(** * vision-hub: the per-camera face-recognition pipeline

    A shallow embedding of [inference/processor.py]
    ([FaceRecognitionProcessor]) and of the violation emitter of
    [backend/routers/video_feed.py], with the properties of the design
    document stated over it; then further properties of the same code
    and of its surroundings: the hourly ledger on a file system, the
    camera loop, the inference service's callback
    ([inference/main.py]), the stream address, and the backend's
    WebSocket registry, transcoder registry and image endpoint.

    Conventions of the embedding.
    - Python [int] is [Z]; Python [float] (wall-clock seconds, cosine
      distances, expansion ratios) is an exact rational [Q].  The
      expansion ratios 0.2, 0.15, 0.3, 0.1 are the rationals 1/5, 3/20,
      3/10, 1/10.
    - A [dict] keyed by strings is a [gmap string _]; [d.get(k, v)] is
      [default v (d !! k)].
    - A timestamp made by [strftime("%Y-%m-%d %H:%M:%S")] is kept as
      its date and its time of day; the string is the two joined by a
      space.
    - File writes, callbacks and model calls are recorded, in program
      order, in a trace of [Effect]s; whether a write succeeds is an
      input of the operation that attempts it (for an evidence image:
      written, not written without an exception, or an exception).
    - An exception that escapes a method is the [Raised] outcome.
    - Objects compared by identity (WebSocket connections, ffmpeg
      processes) are numbers; a directory is a [gmap] from file names
      to files. *)

From Stdlib Require Import ZArith QArith Qround Lia Lqa Bool Ascii String List.
From Stdlib Require Import Decimal DecimalNat DecimalString.
From stdpp Require Import gmap strings list fin_maps.

Local Open Scope Z_scope.

(** ** Python primitives *)

Module Py.

(** [int(x)] on a float: truncation toward zero. *)
Definition int (q : Q) : Z := Z.quot (Qnum q) (Zpos (Qden q)).

(** [max(a, b)] and [min(a, b)]: the first argument wins a tie. *)
Definition max (a b : Q) : Q := if Qlt_le_dec a b then b else a.
Definition min (a b : Q) : Q := if Qlt_le_dec b a then b else a.

(** Length of [seq[start:stop]] for a sequence of length [n]: a negative
    bound counts from the end, and both bounds are clamped to [0, n]. *)
Definition slice_bound (i n : Z) : Z :=
  if i <? 0 then Z.max (i + n) 0 else Z.min i n.

Definition slice_len (start stop n : Z) : Z :=
  Z.max 0 (slice_bound stop n - slice_bound start n).

(** [s.replace(a, b)] for single characters. *)
Fixpoint replace (a b : ascii) (s : string) : string :=
  match s with
  | EmptyString => EmptyString
  | String c rest =>
      String (if Ascii.eqb c a then b else c) (replace a b rest)
  end.

Lemma int_of_Z (z : Z) : int (inject_Z z) = z.
Proof. unfold int; simpl. apply Z.quot_1_r. Qed.

Lemma int_nonneg (q : Q) : (0 <= q)%Q -> 0 <= int q.
Proof.
  intros H. unfold int. apply Z.quot_pos; [|lia].
  unfold Qle in H; simpl in H. lia.
Qed.

(** On a non-negative float, [int] is the floor. *)
Lemma int_floor (q : Q) : (0 <= q)%Q -> int q = Qfloor q.
Proof.
  intros H. unfold int, Qfloor. destruct q as [n d]; simpl.
  unfold Qle in H; simpl in H.
  apply Z.quot_div_nonneg; lia.
Qed.

Lemma int_le_Z (q : Q) (n : Z) : (q <= inject_Z n)%Q -> int q <= n.
Proof.
  intros H. destruct (Qlt_le_dec q 0) as [Hneg|Hpos].
  - (* negative: truncation is the ceiling, still below any integer bound *)
    unfold int. destruct q as [a d]; simpl in *.
    unfold Qlt in Hneg; unfold Qle in H; simpl in *.
    assert (Ha : a < 0) by lia.
    rewrite <- (Z.opp_involutive a), Z.quot_opp_l by lia.
    assert (Hq : 0 <= Z.quot (- a) (Z.pos d)) by (apply Z.quot_pos; lia).
    assert (Hq' : - a < Z.pos d * Z.succ (Z.quot (- a) (Z.pos d))).
    { apply Z.mul_succ_quot_gt; lia. }
    nia.
  - rewrite int_floor by assumption.
    apply Qfloor_resp_le in H. now rewrite Qfloor_Z in H.
Qed.

Lemma floor_le_Z (q : Q) (n : Z) : (q <= inject_Z n)%Q -> Qfloor q <= n.
Proof.
  intros H. apply Qfloor_resp_le in H. now rewrite Qfloor_Z in H.
Qed.

Lemma Z_le_floor (q : Q) (n : Z) : (inject_Z n <= q)%Q -> n <= Qfloor q.
Proof.
  intros H. apply Qfloor_resp_le in H. now rewrite Qfloor_Z in H.
Qed.

Lemma max_lower (a b : Q) : (a <= max a b)%Q.
Proof. unfold max. destruct (Qlt_le_dec a b); lra. Qed.

Lemma min_upper (a b : Q) : (min a b <= a)%Q.
Proof. unfold min. destruct (Qlt_le_dec b a); lra. Qed.

End Py.

(** ** Crop geometry ([crop_face_with_buffer]) *)

Module Crop.

(** A detector box, as the detector returns it (floats, [xyxy]). *)
Record Box := { bx1 : Q; by1 : Q; bx2 : Q; by2 : Q }.

(** An integer pixel rectangle. *)
Record Rect := { rx1 : Z; ry1 : Z; rx2 : Z; ry2 : Z }.

(** [x1, y1, x2, y2 = map(int, box)] *)
Definition corners (box : Box) : Rect :=
  {| rx1 := Py.int (bx1 box); ry1 := Py.int (by1 box);
     rx2 := Py.int (bx2 box); ry2 := Py.int (by2 box) |}.

Definition width (r : Rect) : Z := rx2 r - rx1 r.
Definition height (r : Rect) : Z := ry2 r - ry1 r.
Definition area (r : Rect) : Z := width r * height r.

(** The three expansion tiers: [(expand_x, expand_up, expand_down)]. *)
Definition expansion (a : Z) : Q * Q * Q :=
  if a <? 8000 then (1 # 5, 1 # 5, 3 # 10)
  else if a <? 25000 then (3 # 20, 3 # 20, 3 # 10)
  else (1 # 10, 1 # 10, 1 # 10).

(** The box [c] grown by the given ratios and clipped: the low sides at
    0, the high sides at the image size.  The products [w * expand_x]
    are taken exactly; on pixel-sized integers the float product lies
    within rounding of a multiple of 1/20, so the truncation is the
    same. *)
Definition expand (img_w img_h : Z) (c : Rect) (ratios : Q * Q * Q) : Rect :=
  let '(expand_x, expand_up, expand_down) := ratios in
  let w := width c in
  let h := height c in
  {| rx1 := Py.int (Py.max 0 (inject_Z (rx1 c) - inject_Z w * expand_x));
     rx2 := Py.int (Py.min (inject_Z img_w)
                           (inject_Z (rx2 c) + inject_Z w * expand_x));
     ry1 := Py.int (Py.max 0 (inject_Z (ry1 c) - inject_Z h * expand_up));
     ry2 := Py.int (Py.min (inject_Z img_h)
                           (inject_Z (ry2 c) + inject_Z h * expand_down)) |}.

(** [crop_face_with_buffer]: the rectangle it slices out of an image of
    [img_w] by [img_h] pixels. *)
Definition crop_face_with_buffer (img_w img_h : Z) (box : Box) : Rect :=
  let c := corners box in
  expand img_w img_h c (expansion (area c)).

(** [img[y1:y2, x1:x2].shape[:2]]: rows, then columns. *)
Definition crop_shape (img_w img_h : Z) (box : Box) : Z * Z :=
  let r := crop_face_with_buffer img_w img_h box in
  (Py.slice_len (ry1 r) (ry2 r) img_h, Py.slice_len (rx1 r) (rx2 r) img_w).

(** A box whose corners are the given integers. *)
Definition box_of (x1 y1 x2 y2 : Z) : Box :=
  {| bx1 := inject_Z x1; by1 := inject_Z y1;
     bx2 := inject_Z x2; by2 := inject_Z y2 |}.

(** The box lies inside the frame. *)
Definition inside (img_w img_h : Z) (c : Rect) : Prop :=
  0 <= rx1 c /\ rx1 c <= rx2 c /\ rx2 c <= img_w /\
  0 <= ry1 c /\ ry1 c <= ry2 c /\ ry2 c <= img_h.

(** The box is at the centre of the frame: its midpoint
    [((x1 + x2) / 2, (y1 + y2) / 2)] is the midpoint of the frame. *)
Definition centred (img_w img_h : Z) (c : Rect) : Prop :=
  rx1 c + rx2 c = img_w /\ ry1 c + ry2 c = img_h.

(** The whole frame, as a box. *)
Definition frame (img_w img_h : Z) : Rect :=
  {| rx1 := 0; ry1 := 0; rx2 := img_w; ry2 := img_h |}.

(** Every side of the crop lies strictly outside the box. *)
Definition strictly_contains (r c : Rect) : Prop :=
  rx1 r < rx1 c /\ rx2 c < rx2 r /\ ry1 r < ry1 c /\ ry2 c < ry2 r.

Definition contains (r c : Rect) : Prop :=
  rx1 r <= rx1 c /\ rx2 c <= rx2 r /\ ry1 r <= ry1 c /\ ry2 c <= ry2 r.

(** The crop contains the box and is larger than it. *)
Definition properly_contains (r c : Rect) : Prop :=
  contains r c /\ r <> c.

Definition within_frame (img_w img_h : Z) (r : Rect) : Prop :=
  0 <= rx1 r /\ rx2 r <= img_w /\ 0 <= ry1 r /\ ry2 r <= img_h.

Lemma corners_box_of x1 y1 x2 y2 :
  corners (box_of x1 y1 x2 y2) =
  {| rx1 := x1; ry1 := y1; rx2 := x2; ry2 := y2 |}.
Proof. unfold corners, box_of; simpl. now rewrite !Py.int_of_Z. Qed.

(** The low side: [int(max(0, c - d))] for a non-negative margin [d]. *)
Lemma low_side (c : Z) (d : Q) :
  let v := Py.int (Py.max 0 (inject_Z c - d)) in
  0 <= v /\ ((0 <= d)%Q -> 0 <= c -> v <= c) /\
  ((0 < d)%Q -> 0 < c -> v < c).
Proof.
  cbv zeta.
  assert (Hnn : (0 <= Py.max 0 (inject_Z c - d))%Q) by apply Py.max_lower.
  split; [now apply Py.int_nonneg|].
  rewrite Py.int_floor by assumption.
  unfold Py.max in *. destruct (Qlt_le_dec 0 (inject_Z c - d)) as [Hp|Hp].
  - split; intros Hd Hc.
    + apply Py.floor_le_Z. lra.
    + assert (H1 : (inject_Z (Qfloor (inject_Z c - d)) <= inject_Z c - d)%Q)
        by apply Qfloor_le.
      assert (H2 : (inject_Z (Qfloor (inject_Z c - d)) < inject_Z c)%Q) by lra.
      now rewrite <- Zlt_Qlt in H2.
  - change (Qfloor 0) with 0. split; intros; lia.
Qed.

(** The high side: [int(min(bound, c + d))]. *)
Lemma high_side (bound c : Z) (d : Q) :
  let v := Py.int (Py.min (inject_Z bound) (inject_Z c + d)) in
  v <= bound /\ ((0 <= d)%Q -> 0 <= c -> c <= bound -> c <= v) /\
  ((1 <= d)%Q -> 0 <= c -> c < bound -> c < v).
Proof.
  cbv zeta. split; [apply Py.int_le_Z, Py.min_upper|].
  unfold Py.min. destruct (Qlt_le_dec (inject_Z c + d) (inject_Z bound)) as [Hp|Hp].
  - split; intros Hd Hc Hb;
      assert (Hc' : (0 <= inject_Z c)%Q) by (rewrite (Zle_Qle 0 c) in Hc; exact Hc);
      (rewrite Py.int_floor by lra).
    + apply Py.Z_le_floor. lra.
    + assert (H1 : c + 1 <= Qfloor (inject_Z c + d)).
      { apply Py.Z_le_floor. rewrite inject_Z_plus.
        change (inject_Z 1) with 1%Q. lra. }
      lia.
  - rewrite Py.int_of_Z. split; intros; lia.
Qed.

Lemma expand_within_frame img_w img_h c ex eu ed :
  within_frame img_w img_h (expand img_w img_h c (ex, eu, ed)).
Proof.
  unfold within_frame, expand; simpl.
  pose proof (low_side (rx1 c) (inject_Z (width c) * ex)) as (? & _).
  pose proof (low_side (ry1 c) (inject_Z (height c) * eu)) as (? & _).
  pose proof (high_side img_w (rx2 c) (inject_Z (width c) * ex)) as (? & _).
  pose proof (high_side img_h (ry2 c) (inject_Z (height c) * ed)) as (? & _).
  auto.
Qed.

Lemma scaled_nonneg (n : Z) (e : Q) :
  0 <= n -> (0 <= e)%Q -> (0 <= inject_Z n * e)%Q.
Proof.
  intros Hn He. apply Qmult_le_0_compat; [|assumption].
  now rewrite (Zle_Qle 0 n) in Hn.
Qed.

Lemma scaled_ge_1 (n k : Z) (e : Q) :
  k <= n -> (1 <= inject_Z k * e)%Q -> (0 <= e)%Q -> (1 <= inject_Z n * e)%Q.
Proof.
  intros Hn Hk He. rewrite (Zle_Qle k n) in Hn.
  assert ((inject_Z k * e <= inject_Z n * e)%Q)
    by (apply Qmult_le_compat_r; assumption).
  lra.
Qed.

Lemma scaled_pos (n : Z) (e : Q) :
  0 < n -> (0 < e)%Q -> (0 < inject_Z n * e)%Q.
Proof.
  intros Hn He. rewrite (Zlt_Qlt 0 n) in Hn.
  apply Qmult_lt_0_compat; assumption.
Qed.

Lemma expand_contains img_w img_h c ex eu ed :
  (0 <= ex)%Q -> (0 <= eu)%Q -> (0 <= ed)%Q ->
  inside img_w img_h c -> contains (expand img_w img_h c (ex, eu, ed)) c.
Proof.
  intros Hx Hu Hd (H1 & H2 & H3 & H4 & H5 & H6).
  unfold contains, expand; simpl.
  assert (Hw : 0 <= width c) by (unfold width; lia).
  assert (Hh : 0 <= height c) by (unfold height; lia).
  pose proof (low_side (rx1 c) (inject_Z (width c) * ex)) as (_ & Ha & _).
  pose proof (low_side (ry1 c) (inject_Z (height c) * eu)) as (_ & Hb & _).
  pose proof (high_side img_w (rx2 c) (inject_Z (width c) * ex)) as (_ & Hc & _).
  pose proof (high_side img_h (ry2 c) (inject_Z (height c) * ed)) as (_ & He & _).
  repeat split.
  - apply Ha; [now apply scaled_nonneg | lia].
  - apply Hc; [now apply scaled_nonneg | lia | lia].
  - apply Hb; [now apply scaled_nonneg | lia].
  - apply He; [now apply scaled_nonneg | lia | lia].
Qed.

(** The first tier pushes every side out by at least a pixel once the
    box is 5 pixels wide and 4 pixels high and has room around it. *)
Lemma expand_small_strict img_w img_h c :
  5 <= width c -> 4 <= height c ->
  0 < rx1 c -> rx2 c < img_w -> 0 < ry1 c -> ry2 c < img_h ->
  strictly_contains (expand img_w img_h c (1 # 5, 1 # 5, 3 # 10)) c.
Proof.
  intros Hw Hh Hx1 Hx2 Hy1 Hy2.
  assert (0 <= rx2 c) by (unfold width in Hw; lia).
  assert (0 <= ry2 c) by (unfold height in Hh; lia).
  unfold strictly_contains, expand; simpl.
  pose proof (low_side (rx1 c) (inject_Z (width c) * (1 # 5))) as (_ & _ & Ha).
  pose proof (low_side (ry1 c) (inject_Z (height c) * (1 # 5))) as (_ & _ & Hb).
  pose proof (high_side img_w (rx2 c) (inject_Z (width c) * (1 # 5)))
    as (_ & _ & Hc).
  pose proof (high_side img_h (ry2 c) (inject_Z (height c) * (3 # 10)))
    as (_ & _ & He).
  repeat split.
  - apply Ha; [apply scaled_pos; [lia | reflexivity] | lia].
  - apply Hc; [|lia|lia].
    apply (scaled_ge_1 _ 5); [lia | vm_compute; discriminate | lra].
  - apply Hb; [apply scaled_pos; [lia | reflexivity] | lia].
  - apply He; [|lia|lia].
    apply (scaled_ge_1 _ 4); [lia | vm_compute; discriminate | lra].
Qed.

(** In the first tier the left and the top side move out as soon as
    there is room for them. *)
Lemma expand_small_proper img_w img_h c :
  0 < width c -> 0 < height c -> inside img_w img_h c ->
  0 < rx1 c \/ 0 < ry1 c ->
  properly_contains (expand img_w img_h c (1 # 5, 1 # 5, 3 # 10)) c.
Proof.
  intros Hw Hh Hin Hroom. split; [apply expand_contains; (lra || assumption)|].
  pose proof (low_side (rx1 c) (inject_Z (width c) * (1 # 5))) as (_ & _ & Ha).
  pose proof (low_side (ry1 c) (inject_Z (height c) * (1 # 5))) as (_ & _ & Hb).
  assert (Hq : (0 < 1 # 5)%Q) by reflexivity.
  intros Heq. destruct Hroom as [Hx|Hy].
  - specialize (Ha (scaled_pos (width c) (1 # 5) Hw Hq) Hx).
    apply (f_equal rx1) in Heq. unfold expand in Heq. simpl in Heq. lia.
  - specialize (Hb (scaled_pos (height c) (1 # 5) Hh Hq) Hy).
    apply (f_equal ry1) in Heq. unfold expand in Heq. simpl in Heq. lia.
Qed.

(** C6 (as amended).  The crop is the box grown by one of three tiers
    of ratios chosen by the box area (below 8000: 0.2, 0.2, 0.3; below
    25000: 0.15, 0.15, 0.3; otherwise 0.1 each), with the low sides
    clipped at 0 and the high sides at the frame size.  A box inside the
    frame, one touching an edge included, is contained in its crop, and
    the crop stays in the frame.  A box of area 5000 at the centre of
    the frame that does not fill the whole frame is contained in its
    crop and the crop is larger than it; every side of the crop lies
    strictly outside the box when the box is at least 5 pixels wide and
    4 pixels high and touches no edge of the frame. *)
Theorem crop_tiers_clip_containment (img_w img_h : Z) (box : Box) :
  let c := corners box in
  let r := crop_face_with_buffer img_w img_h box in
  (((area c < 8000) /\ r = expand img_w img_h c (1 # 5, 1 # 5, 3 # 10)) \/
   ((8000 <= area c < 25000) /\
    r = expand img_w img_h c (3 # 20, 3 # 20, 3 # 10)) \/
   ((25000 <= area c) /\
    r = expand img_w img_h c (1 # 10, 1 # 10, 1 # 10))) /\
  within_frame img_w img_h r /\
  (inside img_w img_h c ->
   contains r c /\ (rx1 r <= img_w) /\ (0 <= rx2 r) /\
   (ry1 r <= img_h) /\ (0 <= ry2 r)) /\
  (area c = 5000 -> inside img_w img_h c -> centred img_w img_h c ->
   c <> frame img_w img_h -> properly_contains r c) /\
  (area c = 5000 -> inside img_w img_h c -> centred img_w img_h c ->
   5 <= width c -> 4 <= height c -> 0 < rx1 c -> 0 < ry1 c ->
   strictly_contains r c).
Proof.
  intros c r. subst r. unfold crop_face_with_buffer. fold c.
  assert (Htier :
    ((area c < 8000) /\ expansion (area c) = (1 # 5, 1 # 5, 3 # 10)) \/
    ((8000 <= area c < 25000) /\
      expansion (area c) = (3 # 20, 3 # 20, 3 # 10)) \/
    ((25000 <= area c) /\ expansion (area c) = (1 # 10, 1 # 10, 1 # 10))).
  { unfold expansion.
    destruct (Z.ltb_spec (area c) 8000); [left; split; [lia | reflexivity]|].
    destruct (Z.ltb_spec (area c) 25000);
      [right; left | right; right]; (split; [lia | reflexivity]). }
  split; [|split; [|split; [|split]]].
  - destruct Htier as [(? & ->) | [(? & ->) | (? & ->)]]; auto.
  - destruct (expansion (area c)) as [[ex eu] ed]. apply expand_within_frame.
  - intros Hin.
    assert (Hc : contains (expand img_w img_h c (expansion (area c))) c).
    { destruct Htier as [(_ & ->) | [(_ & ->) | (_ & ->)]];
        apply expand_contains; (lra || assumption). }
    split; [exact Hc|].
    destruct Hc as (? & ? & ? & ?).
    destruct Hin as (? & ? & ? & ? & ? & ?). lia.
  - intros Ha Hin (Hcx & Hcy) Hnot.
    destruct Htier as [(_ & ->) | [(? & _) | (? & _)]]; [|lia|lia].
    pose proof Hin as (I1 & I2 & I3 & I4 & I5 & I6).
    assert (Hwh : 0 < width c /\ 0 < height c).
    { unfold area, width, height in *. nia. }
    destruct Hwh as (Hw & Hh).
    apply expand_small_proper; try assumption.
    destruct (Z.eq_dec (rx1 c) 0) as [Hx0|Hx0]; [|lia].
    destruct (Z.eq_dec (ry1 c) 0) as [Hy0|Hy0]; [|lia].
    exfalso. apply Hnot. unfold frame. destruct c as [x1 y1 x2 y2].
    simpl in *. f_equal; lia.
  - intros Ha Hin (Hcx & Hcy) Hw Hh Hx Hy.
    destruct Htier as [(_ & ->) | [(? & _) | (? & _)]]; [|lia|lia].
    apply expand_small_strict; lia.
Qed.

(** The sentence of C6 on boxes of area 5000 fails for a box that fills
    the frame: in a frame of 100 by 50 pixels the box that covers it has
    area 5000 and sits at the centre, every side is clipped, and the
    crop is the box itself. *)
Lemma crop_of_frame_filling_box :
  let box := box_of 0 0 100 50 in
  let c := corners box in
  area c = 5000 /\ inside 100 50 c /\ centred 100 50 c /\
  crop_face_with_buffer 100 50 box = c /\
  ~ properly_contains (crop_face_with_buffer 100 50 box) c /\
  ~ strictly_contains (crop_face_with_buffer 100 50 box) c.
Proof.
  cbv zeta. repeat split; try (vm_compute; congruence).
  - intros (_ & H). apply H. reflexivity.
  - intros (H & _). vm_compute in H. discriminate.
Qed.

(** A box of area 5000 that spans a 1250 by 720 frame from the left edge
    to the right one, at mid height: the crop gains a row above and one
    below. *)
Example crop_spanning_box :
  let box := box_of 0 358 1250 362 in
  area (corners box) = 5000 /\ centred 1250 720 (corners box) /\
  crop_face_with_buffer 1250 720 box =
    {| rx1 := 0; ry1 := 357; rx2 := 1250; ry2 := 363 |}.
Proof. cbv zeta. repeat split. Qed.

(** Every side moves out only when the expansion reaches a whole pixel:
    the box 4 wide and 1250 high centred in a 2560 by 1440 frame, with
    room on every side, keeps its right side, since
    [int(1282 + 0.8) = 1282]. *)
Lemma crop_area_5000_not_strict :
  let box := box_of 1278 95 1282 1345 in
  let c := corners box in
  area c = 5000 /\ centred 2560 1440 c /\
  rx2 (crop_face_with_buffer 2560 1440 box) = rx2 c /\
  ~ strictly_contains (crop_face_with_buffer 2560 1440 box) c.
Proof.
  cbv zeta. repeat split; try (vm_compute; congruence).
  intros (_ & H & _). vm_compute in H. discriminate.
Qed.

(** The 50 by 100 box centred in a 1280 by 720 frame. *)
Lemma crop_tiers_clip_containment_witness :
  let box := box_of 615 310 665 410 in
  area (corners box) = 5000 /\ centred 1280 720 (corners box) /\
  strictly_contains (crop_face_with_buffer 1280 720 box) (corners box) /\
  properly_contains (crop_face_with_buffer 1280 720 box) (corners box).
Proof.
  cbv zeta.
  assert (Ha : area (corners (box_of 615 310 665 410)) = 5000) by reflexivity.
  assert (Hc : centred 1280 720 (corners (box_of 615 310 665 410)))
    by (vm_compute; repeat split).
  assert (Hin : inside 1280 720 (corners (box_of 615 310 665 410)))
    by (vm_compute; repeat split; discriminate).
  split; [exact Ha | split; [exact Hc|]].
  destruct (crop_tiers_clip_containment 1280 720 (box_of 615 310 665 410))
    as (_ & _ & _ & Hproper & Hstrict).
  split.
  - apply Hstrict; try assumption; vm_compute; (discriminate || reflexivity).
  - apply Hproper; try assumption. vm_compute. discriminate.
Defined.

(** A box touching the left and top edges of a 1280 by 720 frame: the
    crop starts at 0 on both. *)
Example crop_edge_box :
  crop_face_with_buffer 1280 720 (box_of 0 0 50 100) =
  {| rx1 := 0; ry1 := 0; rx2 := 60; ry2 := 130 |}.
Proof. reflexivity. Qed.

(** A box in the bottom right corner: the crop stops at the frame size. *)
Example crop_corner_box :
  crop_face_with_buffer 1280 720 (box_of 1100 500 1280 720) =
  {| rx1 := 1082; ry1 := 478; rx2 := 1280; ry2 := 720 |}.
Proof. reflexivity. Qed.

End Crop.

(** ** Nearest-gallery matching ([match_face]) *)

Module Matcher.

Abbreviation Embedding := (list Q).

(** The sentinel label. *)
Definition Unknown : string := "Unknown".

(** The gallery: [db_labels] and [db_embeddings] are built from the same
    records, so they are kept as one list of pairs. *)
Abbreviation Gallery := (list (string * Embedding)).
Definition db_labels (db : Gallery) : list string := map fst db.
Definition db_embeddings (db : Gallery) : list Embedding := map snd db.

(** [np.argmin] on a one-dimensional array: the index of the first
    minimum; on an empty array it raises. *)
Fixpoint argmin_from (best_idx : nat) (best : Q) (i : nat) (l : list Q) : nat :=
  match l with
  | [] => best_idx
  | x :: rest =>
      if Qlt_le_dec x best then argmin_from i x (S i) rest
      else argmin_from best_idx best (S i) rest
  end.

Definition argmin (l : list Q) : option nat :=
  match l with
  | [] => None
  | x :: rest => Some (argmin_from 0 x 1 rest)
  end.

(** The query and every gallery vector have the same dimension. *)
Definition compatible (e : Embedding) (db : Gallery) : bool :=
  forallb (fun g => Nat.eqb (length g) (length e)) (db_embeddings db).

Section WithDistance.

(** The cosine distance of scikit-learn, an external numeric capability:
    the matcher only compares its results. *)
Variable cosine_distance : Embedding -> Embedding -> Q.

(** [cosine_distances(embedding.reshape(1, -1), db_embeddings).flatten()]:
    one distance per gallery vector; it raises on an empty gallery and on
    a dimension mismatch. *)
Definition cosine_distances (e : Embedding) (db : Gallery) : option (list Q) :=
  match db with
  | [] => None
  | _ => if compatible e db
         then Some (map (cosine_distance e) (db_embeddings db))
         else None
  end.

(** [match_face]: every exception of the body is caught and answered
    with [("Unknown", 1.0)]. *)
Definition match_face (threshold : Q) (db : Gallery)
    (embedding : option Embedding) : string * Q :=
  match embedding with
  | None => (Unknown, 1%Q)
  | Some e =>
      match cosine_distances e db with
      | None => (Unknown, 1%Q)
      | Some dists =>
          match argmin dists with
          | None => (Unknown, 1%Q)
          | Some idx =>
              match dists !! idx, db_labels db !! idx with
              | Some dist, Some label =>
                  if Qlt_le_dec dist threshold then (label, dist)
                  else (Unknown, dist)
              | _, _ => (Unknown, 1%Q)
              end
          end
      end
  end.

(** [idx] is the first index of [l] that holds a minimum of [l]. *)
Definition first_min (l : list Q) (idx : nat) (d : Q) : Prop :=
  l !! idx = Some d /\
  (forall j x, l !! j = Some x -> (d <= x)%Q) /\
  (forall j x, (j < idx)%nat -> l !! j = Some x -> (d < x)%Q).

Lemma argmin_from_first_min (l pre : list Q) (bi : nat) (b : Q) :
  first_min pre bi b ->
  exists d, first_min (pre ++ l) (argmin_from bi b (length pre) l) d.
Proof.
  revert pre bi b. induction l as [|x l IH]; intros pre bi b (Hb & Hmin & Hfst).
  - exists b. rewrite app_nil_r. simpl. now repeat split.
  - simpl. rewrite (cons_middle x pre l), app_assoc.
    assert (Hbi : (bi < length pre)%nat) by (eapply lookup_lt_Some; eauto).
    replace (S (length pre)) with (length (pre ++ [x]))
      by (rewrite length_app; simpl; lia).
    destruct (Qlt_le_dec x b) as [Hlt|Hle]; apply IH; repeat split.
    + rewrite lookup_app_r by lia. now rewrite Nat.sub_diag.
    + intros j y Hj. apply lookup_app_Some in Hj as [Hj|(Hlen & Hj)].
      * specialize (Hmin j y Hj). lra.
      * destruct (j - length pre)%nat; simplify_eq/=. lra.
    + intros j y Hlt' Hj. rewrite lookup_app_l in Hj by lia.
      specialize (Hmin j y Hj). lra.
    + rewrite lookup_app_l by lia. exact Hb.
    + intros j y Hj. apply lookup_app_Some in Hj as [Hj|(Hlen & Hj)].
      * exact (Hmin j y Hj).
      * destruct (j - length pre)%nat; simplify_eq/=. exact Hle.
    + intros j y Hlt' Hj. rewrite lookup_app_l in Hj by lia.
      exact (Hfst j y Hlt' Hj).
Qed.

Lemma argmin_first_min (l : list Q) :
  l <> [] -> exists idx d, argmin l = Some idx /\ first_min l idx d.
Proof.
  destruct l as [|x l]; [congruence|]. intros _.
  destruct (argmin_from_first_min l [x] 0 x) as (d & Hd).
  - repeat split; simpl.
    + intros [|j] y Hj; simplify_eq/=. lra.
    + intros j y Hj. lia.
  - exists (argmin_from 0 x 1 l), d. split; [reflexivity | exact Hd].
Qed.

(** Two first minima of one list sit at the same index. *)
Lemma first_min_unique (l : list Q) (i j : nat) (d d' : Q) :
  first_min l i d -> first_min l j d' -> i = j.
Proof.
  intros (Hi & Hmi & Hfi) (Hj & Hmj & Hfj).
  destruct (Nat.lt_trichotomy i j) as [Hlt|[Heq|Hgt]]; [|exact Heq|].
  - specialize (Hfj i d Hlt Hi). specialize (Hmi j d' Hj). lra.
  - specialize (Hfi j d' Hgt Hj). specialize (Hmj i d Hi). lra.
Qed.

Lemma lookup_distance (e : Embedding) (db : Gallery) (i : nat) (d : Q) :
  map (cosine_distance e) (db_embeddings db) !! i = Some d ->
  exists label g, db !! i = Some (label, g) /\ d = cosine_distance e g /\
                  db_labels db !! i = Some label.
Proof.
  unfold db_embeddings, db_labels. rewrite !list_lookup_fmap.
  destruct (db !! i) as [[label g]|]; intros H; simplify_eq/=.
  now exists label, g.
Qed.

Lemma match_face_label_known threshold db embedding :
  fst (match_face threshold db embedding) ∈ Unknown :: db_labels db.
Proof.
  unfold match_face.
  repeat (case_match; simpl; try apply list_elem_of_here).
  apply list_elem_of_further. eapply list_elem_of_lookup_2; eauto.
Qed.

Lemma match_face_first_min threshold db e :
  db <> [] -> compatible e db = true ->
  exists idx label g,
    db !! idx = Some (label, g) /\
    first_min (map (cosine_distance e) (db_embeddings db)) idx
              (cosine_distance e g) /\
    match_face threshold db (Some e) =
      if Qlt_le_dec (cosine_distance e g) threshold
      then (label, cosine_distance e g)
      else (Unknown, cosine_distance e g).
Proof.
  intros Hne Hcompat.
  set (dists := map (cosine_distance e) (db_embeddings db)).
  assert (Hd : cosine_distances e db = Some dists).
  { unfold cosine_distances. destruct db; [congruence|]. now rewrite Hcompat. }
  destruct (argmin_first_min dists) as (idx & d & Harg & Hfm).
  { subst dists. unfold db_embeddings. destruct db; [congruence|discriminate]. }
  destruct (lookup_distance e db idx d) as (label & g & Hdb & -> & Hlab);
    [apply Hfm|].
  exists idx, label, g. split; [exact Hdb | split; [exact Hfm|]].
  unfold match_face. rewrite Hd, Harg.
  destruct Hfm as (-> & _). now rewrite Hlab.
Qed.

End WithDistance.

(** The cosine distance of two unit vectors, [1 - x.y]; an instance of
    the distance for the concrete examples. *)
Fixpoint dot (x y : Embedding) : Q :=
  match x, y with
  | a :: x', b :: y' => a * b + dot x' y'
  | _, _ => 0
  end.

Definition unit_cosine_distance (x y : Embedding) : Q := 1 - dot x y.

(** C5 (as amended).  Whatever the embedding, the label returned is a
    gallery label or "Unknown".  On a non-empty gallery of the query's
    dimension, [match_face] takes the distance to every gallery vector,
    picks the first index holding the minimum, and returns that entry's
    label with the distance when the distance is strictly below the
    threshold, and "Unknown" with the distance otherwise.  So entry [i]
    is the answer exactly when it is the first minimum and lies below
    the threshold: a query equal to the vector of entry [i] (distance 0)
    gets label [i] when the threshold is positive and every earlier
    entry is at a positive distance. *)
Theorem match_face_nearest_label
    (cosine_distance : Embedding -> Embedding -> Q)
    (threshold : Q) (db : Gallery) :
  (forall embedding,
     fst (match_face cosine_distance threshold db embedding)
       ∈ Unknown :: db_labels db) /\
  (forall e, db <> [] -> compatible e db = true ->
     exists idx label g,
       db !! idx = Some (label, g) /\
       first_min (map (cosine_distance e) (db_embeddings db)) idx
                 (cosine_distance e g) /\
       match_face cosine_distance threshold db (Some e) =
         if Qlt_le_dec (cosine_distance e g) threshold
         then (label, cosine_distance e g)
         else (Unknown, cosine_distance e g)) /\
  (forall e i label g,
     compatible e db = true -> db !! i = Some (label, g) ->
     first_min (map (cosine_distance e) (db_embeddings db)) i
               (cosine_distance e g) ->
     (cosine_distance e g < threshold)%Q ->
     match_face cosine_distance threshold db (Some e) =
       (label, cosine_distance e g)) /\
  (forall e i label,
     compatible e db = true -> db !! i = Some (label, e) ->
     (cosine_distance e e == 0)%Q -> (0 < threshold)%Q ->
     (forall j lj gj, db !! j = Some (lj, gj) ->
                      (0 <= cosine_distance e gj)%Q) ->
     (forall j lj gj, (j < i)%nat -> db !! j = Some (lj, gj) ->
                      (0 < cosine_distance e gj)%Q) ->
     match_face cosine_distance threshold db (Some e) =
       (label, cosine_distance e e)).
Proof.
  assert (Hthird : forall e i label g,
     compatible e db = true -> db !! i = Some (label, g) ->
     first_min (map (cosine_distance e) (db_embeddings db)) i
               (cosine_distance e g) ->
     (cosine_distance e g < threshold)%Q ->
     match_face cosine_distance threshold db (Some e) =
       (label, cosine_distance e g)).
  { intros e i label g Hc Hi Hfm Hlt.
    assert (Hne : db <> []) by (intros ->; discriminate).
    destruct (match_face_first_min cosine_distance threshold db e Hne Hc)
      as (idx & label' & g' & Hidx & Hfm' & ->).
    assert (idx = i) by (eapply first_min_unique; eauto). subst idx.
    rewrite Hi in Hidx. injection Hidx as <- <-.
    destruct (Qlt_le_dec (cosine_distance e g) threshold); [reflexivity|lra]. }
  split; [|split; [|split]].
  - intros embedding. apply match_face_label_known.
  - intros e. apply match_face_first_min.
  - exact Hthird.
  - intros e i label Hc Hi Hzero Hthr Hnn Hpos.
    apply (Hthird e i label e Hc Hi); [|lra].
    repeat split.
    + unfold db_embeddings. rewrite !list_lookup_fmap, Hi. reflexivity.
    + intros j x Hj.
      destruct (lookup_distance cosine_distance e db j x Hj)
        as (lj & gj & Hdb & -> & _).
      specialize (Hnn j lj gj Hdb). lra.
    + intros j x Hlt Hj.
      destruct (lookup_distance cosine_distance e db j x Hj)
        as (lj & gj & Hdb & -> & _).
      specialize (Hpos j lj gj Hlt Hdb). lra.
Qed.

(** The last sentence of C5 fails on a tie: when two entries hold the
    same vector, a query equal to it gets the label of the first one, so
    the query equal to entry 1 ("Bob") is answered "Alice". *)
Lemma match_face_identical_entry_other_label :
  let db := [("Alice"%string, [1%Q; 0%Q]); ("Bob"%string, [1%Q; 0%Q])] in
  db !! 1%nat = Some ("Bob"%string, [1%Q; 0%Q]) /\
  fst (match_face unit_cosine_distance (2 # 5) db (Some [1%Q; 0%Q]))
    = "Alice"%string.
Proof. cbv zeta. split; reflexivity. Qed.

(** A query equal to the second of two orthogonal gallery vectors. *)
Lemma match_face_nearest_label_witness :
  let db := [("Alice"%string, [1%Q; 0%Q]); ("Bob"%string, [0%Q; 1%Q])] in
  match_face unit_cosine_distance (2 # 5) db (Some [0%Q; 1%Q]) =
    ("Bob"%string, unit_cosine_distance [0%Q; 1%Q] [0%Q; 1%Q]).
Proof.
  cbv zeta.
  refine (proj2 (proj2 (proj2 (match_face_nearest_label unit_cosine_distance
    (2 # 5) [("Alice"%string, [1%Q; 0%Q]); ("Bob"%string, [0%Q; 1%Q])])))
    [0%Q; 1%Q] 1%nat "Bob"%string _ _ _ _ _ _).
  - reflexivity.
  - reflexivity.
  - reflexivity.
  - reflexivity.
  - intros [|[|j]] lj gj Hj; simplify_eq/=; vm_compute; discriminate.
  - intros [|[|j]] lj gj Hlt Hj; simplify_eq/=; try lia; reflexivity.
Defined.

End Matcher.

(** ** The processor: confirmation, cooldown, per-box dispatch *)

Module Processor.

Import Matcher.

(** [datetime.now().strftime("%Y-%m-%d %H:%M:%S")] *)
Record Timestamp := { ts_date : string; ts_time : string }.

Definition render (ts : Timestamp) : string :=
  (ts_date ts ++ " " ++ ts_time ts)%string.

(** The keys of [parameters] that the pipeline reads. *)
Record Parameters := {
  threshold : Q;
  required_confirmations : Z;
  unknown_interval : Q;
  min_face_size : option Z;
  save_matched_dir : string;
  save_unknown_dir : string;
}.

(** What an instance is built with: the parameters, the gallery loaded
    by [load_models], and whether each callback was passed. *)
Record Config := {
  parameters : Parameters;
  db : Gallery;
  on_violation : bool;
  on_attendance : bool;
}.

(** The dictionary handed to [on_violation].  [p_small_face] is [true]
    for the small-face payload; the other payload has no such key. *)
Record Payload := {
  p_camera_id : string;
  p_type : string;
  p_name : string;
  p_confidence : Q;
  p_timestamp : Timestamp;
  p_bbox : Crop.Box;
  p_image_filename : option string;
  p_small_face : bool;
}.

Inductive Effect :=
| GetEmbedding (rows cols : Z)
    (** [get_embedding(cropped)] on a crop of that shape *)
| MatchFace (embedding : option Embedding)
    (** [match_face(embedding)] *)
| LedgerAppend (row : list string) (ok : bool)
    (** [log_attendance]: the row offered to the hourly ledger, and
        whether it was written *)
| SaveCrop (folder fname : string) (ok : bool)
    (** [save_face_crop]: the image file offered, and whether the call
        returned its name (nothing in its [try] block raised); the flag
        does not say that the file is on disk *)
| OnAttendance (name : string) (time : Timestamp) (camera_id : string)
| OnViolation (payload : Payload).

Record Stats := {
  total_detections : Z;
  known_faces : Z;
  unknown_faces : Z;
  attendance_today : Z;
}.

(** The tracking fields of the instance, all guarded by [self.lock]. *)
Record State := {
  attendance_log : gmap string Timestamp;
  confirmation_counts : gmap string Z;
  last_unknown_saved_time : gmap string Q;
  stats : Stats;
}.

(** The state [__init__] leaves. *)
Definition init_state : State :=
  {| attendance_log := ∅; confirmation_counts := ∅;
     last_unknown_saved_time := ∅;
     stats := {| total_detections := 0; known_faces := 0;
                 unknown_faces := 0; attendance_today := 0 |} |}.

Definition set_attendance_log
    (f : gmap string Timestamp -> gmap string Timestamp) (st : State) : State :=
  {| attendance_log := f (attendance_log st);
     confirmation_counts := confirmation_counts st;
     last_unknown_saved_time := last_unknown_saved_time st;
     stats := stats st |}.

Definition set_confirmation_counts (f : gmap string Z -> gmap string Z)
    (st : State) : State :=
  {| attendance_log := attendance_log st;
     confirmation_counts := f (confirmation_counts st);
     last_unknown_saved_time := last_unknown_saved_time st;
     stats := stats st |}.

Definition set_last_unknown_saved_time (f : gmap string Q -> gmap string Q)
    (st : State) : State :=
  {| attendance_log := attendance_log st;
     confirmation_counts := confirmation_counts st;
     last_unknown_saved_time := f (last_unknown_saved_time st);
     stats := stats st |}.

Definition set_stats (f : Stats -> Stats) (st : State) : State :=
  {| attendance_log := attendance_log st;
     confirmation_counts := confirmation_counts st;
     last_unknown_saved_time := last_unknown_saved_time st;
     stats := f (stats st) |}.

Definition incr_total_detections (s : Stats) : Stats :=
  {| total_detections := total_detections s + 1; known_faces := known_faces s;
     unknown_faces := unknown_faces s; attendance_today := attendance_today s |}.

Definition incr_known_faces (s : Stats) : Stats :=
  {| total_detections := total_detections s; known_faces := known_faces s + 1;
     unknown_faces := unknown_faces s; attendance_today := attendance_today s |}.

Definition incr_unknown_faces (s : Stats) : Stats :=
  {| total_detections := total_detections s; known_faces := known_faces s;
     unknown_faces := unknown_faces s + 1; attendance_today := attendance_today s |}.

Definition incr_attendance_today (s : Stats) : Stats :=
  {| total_detections := total_detections s; known_faces := known_faces s;
     unknown_faces := unknown_faces s; attendance_today := attendance_today s + 1 |}.

(** How a call ends: with a value, or with an exception that escapes. *)
Inductive Outcome (A : Type) :=
| Returned (a : A)
| Raised.
Arguments Returned {A} a.
Arguments Raised {A}.

(** How the [try] block of [save_face_crop] ends.  [cv2.imwrite]
    reports a failed write by returning [False], without raising, and
    the code drops what it returns. *)
Inductive Save :=
| Written        (** [cv2.imwrite] returned [True] *)
| NotWritten     (** [cv2.imwrite] returned [False]; nothing raised *)
| SaveRaised.    (** [os.makedirs] or [cv2.imwrite] raised *)

(** The block ran through to [return fname]. *)
Definition returned (outcome : Save) : bool :=
  match outcome with
  | Written | NotWritten => true
  | SaveRaised => false
  end.

(** What the surroundings decide during one call: whether the ledger
    write goes through, how the image write ends, whether the
    attendance callback raises, and the reading of [time.time()]. *)
Record IO := {
  ledger_ok : bool;
  save : Save;
  attendance_raises : bool;
  now : Q;
}.

(** [save_face_crop] returns the name of the image: nothing in its
    [try] block raises.  The image is on disk only when, moreover,
    [save io = Written]. *)
Definition save_ok (io : IO) : bool := returned (save io).

(** [confirmation_counts.get(name, 0)] *)
Definition count (st : State) (name : string) : Z :=
  default 0 (confirmation_counts st !! name).

(** [f"{camera_id}_{name}_{timestamp.replace(':', '-').replace(' ', '_')}.jpg"] *)
Definition crop_filename (camera_id name : string) (ts : Timestamp) : string :=
  (camera_id ++ "_" ++ name ++ "_"
   ++ Py.replace " " "_" (Py.replace ":" "-" (render ts)) ++ ".jpg")%string.

(** [save_face_crop]: the filename when the [try] block ran through,
    whatever [cv2.imwrite] returned there; [None] when anything in it
    raised. *)
Definition save_face_crop (name : string) (ts : Timestamp)
    (folder camera_id : string) (outcome : Save)
    : option string * list Effect :=
  let fname := crop_filename camera_id name ts in
  let ok := returned outcome in
  (if ok then Some fname else None, [SaveCrop folder fname ok]).

(** [log_attendance]: one row [name, date, time, camera_id]; a failure
    is caught inside. *)
Definition log_attendance (name : string) (ts : Timestamp) (camera_id : string)
    (ok : bool) : list Effect :=
  [LedgerAppend [name; ts_date ts; ts_time ts; camera_id] ok].

(** [handle_known_face] *)
Definition handle_known_face (cfg : Config) (name : string) (ts : Timestamp)
    (camera_id : string) (io : IO) (st : State)
    : State * list Effect * Outcome (option string) :=
  match attendance_log st !! name with
  | Some _ => (st, [], Returned None)
  | None =>
      let c := count st name + 1 in
      let st1 := set_confirmation_counts (insert name c) st in
      if required_confirmations (parameters cfg) <=? c then
        let st2 := set_attendance_log (insert name ts) st1 in
        let ledger := log_attendance name ts camera_id (ledger_ok io) in
        let '(image_filename, saved) :=
          save_face_crop name ts (save_matched_dir (parameters cfg))
                         camera_id (save io) in
        let st3 := set_stats incr_attendance_today st2 in
        if on_attendance cfg then
          (st3, ledger ++ saved ++ [OnAttendance name ts camera_id],
           if attendance_raises io then Raised else Returned image_filename)
        else (st3, ledger ++ saved, Returned image_filename)
      else (st1, [], Returned None)
  end.

(** The cooldown test of [handle_unknown_face]. *)
Definition unknown_due (cfg : Config) (camera_id : string) (current_time : Q)
    (st : State) : bool :=
  match last_unknown_saved_time st !! camera_id with
  | None => true
  | Some last =>
      if Qlt_le_dec (unknown_interval (parameters cfg)) (current_time - last)
      then true else false
  end.

(** [handle_unknown_face] *)
Definition handle_unknown_face (cfg : Config) (ts : Timestamp)
    (camera_id : string) (io : IO) (st : State)
    : State * list Effect * option string :=
  let current_time := now io in
  if unknown_due cfg camera_id current_time st then
    let '(image_filename, saved) :=
      save_face_crop Unknown ts (save_unknown_dir (parameters cfg))
                     camera_id (save io) in
    (set_last_unknown_saved_time (insert camera_id current_time) st,
     saved, image_filename)
  else (st, [], None).

(** [if saved_filename: image_filename = saved_filename] *)
Definition if_truthy (saved : option string) : option string :=
  match saved with
  | Some f => if String.eqb f "" then None else Some f
  | None => None
  end.

(** Lines 418-463 of [process_frame]: the statistics, the dispatch on
    the matched name and the detection callback, for one box. *)
Definition dispatch (cfg : Config) (camera_id : string) (ts : Timestamp)
    (box : Crop.Box) (name : string) (dist : Q) (io : IO) (st : State)
    : State * list Effect * Outcome unit :=
  let st := set_stats incr_total_detections st in
  let known := negb (String.eqb name Unknown) in
  let confidence := if known then (1 - dist)%Q else 0%Q in
  let emit image_filename :=
    if on_violation cfg then
      [OnViolation {| p_camera_id := camera_id; p_type := "face_detection";
                      p_name := name; p_confidence := confidence;
                      p_timestamp := ts; p_bbox := box;
                      p_image_filename := image_filename;
                      p_small_face := false |}]
    else [] in
  if known then
    match handle_known_face cfg name ts camera_id io st with
    | (st, effs, Raised) => (st, effs, Raised)
    | (st, effs, Returned saved) =>
        (set_stats incr_known_faces st, effs ++ emit (if_truthy saved),
         Returned tt)
    end
  else
    let '(st, effs, saved) := handle_unknown_face cfg ts camera_id io st in
    (set_stats incr_unknown_faces st, effs ++ emit (if_truthy saved),
     Returned tt).

(** One detected box, with what the surroundings supply while it is
    handled: the timestamp taken for a small face, and the embedding
    [get_embedding] returns ([None] when it fails). *)
Record BoxInput := {
  box : Crop.Box;
  small_timestamp : Timestamp;
  embedding : option Embedding;
  io : IO;
}.

(** [int(self.parameters.get("min_face_size", 80))] *)
Definition min_face (cfg : Config) : Z :=
  default 80 (min_face_size (parameters cfg)).

Definition small_payload (camera_id : string) (b : BoxInput) : Payload :=
  {| p_camera_id := camera_id; p_type := "face_detection";
     p_name := Unknown; p_confidence := 0; p_timestamp := small_timestamp b;
     p_bbox := box b; p_image_filename := None; p_small_face := true |}.

Section WithDistance.

Variable cosine_distance : Embedding -> Embedding -> Q.

(** The body of the second loop of [process_frame], for one box. *)
Definition process_box (cfg : Config) (camera_id : string) (img_w img_h : Z)
    (ts : Timestamp) (b : BoxInput) (st : State)
    : State * list Effect * Outcome unit :=
  let '(rows, cols) := Crop.crop_shape img_w img_h (box b) in
  if (rows <? min_face cfg) || (cols <? min_face cfg) then
    (st, if on_violation cfg then [OnViolation (small_payload camera_id b)]
         else [],
     Returned tt)
  else
    let '(name, dist) :=
      match_face cosine_distance (threshold (parameters cfg)) (db cfg)
                 (embedding b) in
    let '(st, effs, out) :=
      dispatch cfg camera_id ts (box b) name dist (io b) st in
    (st, GetEmbedding rows cols :: MatchFace (embedding b) :: effs, out).

(** The second loop of [process_frame]: an exception that escapes a box
    ends the loop, and the enclosing [try] swallows it. *)
Fixpoint process_boxes (cfg : Config) (camera_id : string) (img_w img_h : Z)
    (ts : Timestamp) (boxes : list BoxInput) (st : State)
    : State * list Effect :=
  match boxes with
  | [] => (st, [])
  | b :: rest =>
      match process_box cfg camera_id img_w img_h ts b st with
      | (st, effs, Raised) => (st, effs)
      | (st, effs, Returned _) =>
          let '(st', effs') :=
            process_boxes cfg camera_id img_w img_h ts rest st in
          (st', effs ++ effs')
      end
  end.

(** [process_frame]: [detections] is what the detector returns, [None]
    when it raises. *)
Definition process_frame (cfg : Config) (camera_id : string) (img_w img_h : Z)
    (ts : Timestamp) (detections : option (list BoxInput)) (st : State)
    : State * list Effect :=
  match detections with
  | None => (st, [])
  | Some boxes => process_boxes cfg camera_id img_w img_h ts boxes st
  end.

End WithDistance.

(** *** The confirmation invariant *)

(** No counter is above the threshold, and a label is in the attendance
    log exactly when its counter has reached the threshold. *)
Definition Inv (cfg : Config) (st : State) : Prop :=
  forall name,
    count st name <= required_confirmations (parameters cfg) /\
    (is_Some (attendance_log st !! name) <->
     required_confirmations (parameters cfg) <= count st name).

(** From [st] to [st']: no counter decreases, no label leaves the log or
    changes its entry, and the counter of a logged label stays put. *)
Definition grows (st st' : State) : Prop :=
  (forall name, count st name <= count st' name) /\
  (forall name ts, attendance_log st !! name = Some ts ->
     attendance_log st' !! name = Some ts /\ count st' name = count st name).

(** The operations of the processor that touch the tracking state. *)
Inductive step (cfg : Config) : State -> State -> Prop :=
| step_known name ts camera_id io st :
    step cfg st (handle_known_face cfg name ts camera_id io st).1.1
| step_unknown ts camera_id io st :
    step cfg st (handle_unknown_face cfg ts camera_id io st).1.1
| step_dispatch camera_id ts box name dist io st :
    step cfg st (dispatch cfg camera_id ts box name dist io st).1.1
| step_box cosine_distance camera_id img_w img_h ts b st :
    step cfg st
      (process_box cosine_distance cfg camera_id img_w img_h ts b st).1.1
| step_frame cosine_distance camera_id img_w img_h ts detections st :
    step cfg st
      (process_frame cosine_distance cfg camera_id img_w img_h ts
                     detections st).1.

(** [st'] has the tables of [st]: only the statistics or the cooldown
    table may differ. *)
Definition same_tables (st st' : State) : Prop :=
  attendance_log st' = attendance_log st /\
  confirmation_counts st' = confirmation_counts st.

(** A step keeps the invariant and only grows the tables. *)
Definition sound (cfg : Config) (st st' : State) : Prop :=
  (Inv cfg st -> Inv cfg st') /\ grows st st'.

Lemma same_tables_sound cfg st st' : same_tables st st' -> sound cfg st st'.
Proof.
  intros (Hl & Hc). unfold sound, Inv, grows, count. rewrite Hl, Hc.
  split; [auto|]. split; [intros; lia|].
  intros name ts Hn. split; [assumption | reflexivity].
Qed.

Lemma sound_refl cfg st : sound cfg st st.
Proof. now apply same_tables_sound. Qed.

Lemma sound_trans cfg st1 st2 st3 :
  sound cfg st1 st2 -> sound cfg st2 st3 -> sound cfg st1 st3.
Proof.
  intros (Hi1 & Hc1 & Hl1) (Hi2 & Hc2 & Hl2).
  split; [auto|]. split.
  - intros name. specialize (Hc1 name). specialize (Hc2 name). lia.
  - intros name ts H. destruct (Hl1 name ts H) as (H1 & E1).
    destruct (Hl2 name ts H1) as (H2 & E2). split; [exact H2 | lia].
Qed.

Lemma count_insert st name c name' :
  count (set_confirmation_counts (insert name c) st) name' =
  if decide (name = name') then c else count st name'.
Proof.
  unfold count; simpl. rewrite lookup_insert. now case_decide.
Qed.

Lemma handle_known_face_sound cfg name ts camera_id io st :
  sound cfg st (handle_known_face cfg name ts camera_id io st).1.1.
Proof.
  unfold handle_known_face.
  destruct (attendance_log st !! name) as [old|] eqn:Hlog;
    [apply sound_refl|].
  set (T := required_confirmations (parameters cfg)).
  set (c := count st name + 1).
  set (st1 := set_confirmation_counts (insert name c) st).
  assert (Hgrow1 : forall n, count st n <= count st1 n).
  { intros n. unfold st1. rewrite count_insert. case_decide; subst; lia. }
  assert (Hkeep1 : forall n t, attendance_log st !! n = Some t ->
                               count st1 n = count st n).
  { intros n t Hn. unfold st1. rewrite count_insert.
    case_decide; [congruence | reflexivity]. }
  destruct (Z.leb_spec T c) as [Hreach|Hbelow].
  - (* the confirming sighting *)
    assert (Hgoal : sound cfg st
      (set_stats incr_attendance_today (set_attendance_log (insert name ts) st1))).
    { split; [|split].
      - intros HI n. destruct (HI n) as (Hle & Hiff).
        change (count (set_stats incr_attendance_today
                  (set_attendance_log (insert name ts) st1)) n)
          with (count st1 n).
        unfold st1. rewrite count_insert. simpl. rewrite lookup_insert.
        case_decide as Hn.
        + subst n. fold T in Hle, Hiff.
          assert (count st name < T).
          { destruct (Z.lt_ge_cases (count st name) T) as [|Hge]; [assumption|].
            apply Hiff in Hge. rewrite Hlog in Hge. now destruct Hge. }
          split; [lia|]. split; [intros _; lia | eauto].
        + exact (conj Hle Hiff).
      - exact Hgrow1.
      - intros n t Hn. simpl. rewrite lookup_insert.
        case_decide; [congruence|].
        split; [assumption|]. now apply (Hkeep1 n t). }
    unfold save_face_crop. cbv zeta.
    destruct (on_attendance cfg); exact Hgoal.
  - (* still counting *)
    split; [|split].
    + intros HI n. destruct (HI n) as (Hle & Hiff).
      cbn [fst]. unfold st1 at 1 3. rewrite count_insert.
      change (attendance_log st1) with (attendance_log st).
      case_decide as Hn.
      * subst n. fold T. split; [lia|].
        rewrite Hlog. split; [intros []; discriminate | lia].
      * exact (conj Hle Hiff).
    + exact Hgrow1.
    + intros n t Hn. split; [assumption | now apply (Hkeep1 n t)].
Qed.

Lemma handle_unknown_face_same_tables cfg ts camera_id io st :
  same_tables st (handle_unknown_face cfg ts camera_id io st).1.1.
Proof.
  unfold handle_unknown_face, save_face_crop. cbv zeta.
  destruct (unknown_due cfg camera_id (now io) st); now split.
Qed.

Lemma set_stats_sound cfg f st st' :
  sound cfg st st' -> sound cfg st (set_stats f st').
Proof.
  intros H. eapply sound_trans; [exact H|]. now apply same_tables_sound.
Qed.

Lemma dispatch_sound cfg camera_id ts box name dist io st :
  sound cfg st (dispatch cfg camera_id ts box name dist io st).1.1.
Proof.
  unfold dispatch. cbv zeta.
  set (st0 := set_stats incr_total_detections st).
  assert (H0 : sound cfg st st0) by (now apply same_tables_sound).
  destruct (negb (name =? Unknown)%string).
  - pose proof (handle_known_face_sound cfg name ts camera_id io st0) as Hk.
    destruct (handle_known_face cfg name ts camera_id io st0)
      as [[st1 effs] [saved|]]; simpl in *.
    + apply set_stats_sound. exact (sound_trans _ _ _ _ H0 Hk).
    + exact (sound_trans _ _ _ _ H0 Hk).
  - pose proof (handle_unknown_face_same_tables cfg ts camera_id io st0) as Hu.
    destruct (handle_unknown_face cfg ts camera_id io st0)
      as [[st1 effs] saved]; simpl in *.
    apply set_stats_sound. eapply sound_trans; [exact H0|].
    now apply same_tables_sound.
Qed.

Lemma process_box_sound cosine_distance cfg camera_id img_w img_h ts b st :
  sound cfg st
    (process_box cosine_distance cfg camera_id img_w img_h ts b st).1.1.
Proof.
  unfold process_box.
  destruct (Crop.crop_shape img_w img_h (box b)) as [rows cols].
  destruct ((rows <? min_face cfg) || (cols <? min_face cfg));
    [apply sound_refl|].
  destruct (match_face _ _ _ _) as [name dist].
  pose proof (dispatch_sound cfg camera_id ts (box b) name dist (io b) st) as H.
  now destruct (dispatch cfg camera_id ts (box b) name dist (io b) st)
    as [[st1 effs] out].
Qed.

Lemma process_boxes_sound cosine_distance cfg camera_id img_w img_h ts boxes st :
  sound cfg st
    (process_boxes cosine_distance cfg camera_id img_w img_h ts boxes st).1.
Proof.
  revert st. induction boxes as [|b rest IH]; intros st; simpl;
    [apply sound_refl|].
  pose proof (process_box_sound cosine_distance cfg camera_id img_w img_h
                                ts b st) as Hb.
  destruct (process_box cosine_distance cfg camera_id img_w img_h ts b st)
    as [[st1 effs] [u|]]; simpl in *; [|exact Hb].
  specialize (IH st1).
  destruct (process_boxes cosine_distance cfg camera_id img_w img_h ts rest st1)
    as [st2 effs2]; simpl in *.
  exact (sound_trans _ _ _ _ Hb IH).
Qed.

Lemma step_sound cfg st st' : step cfg st st' -> sound cfg st st'.
Proof.
  intros [name ts camera_id io0 st0 | ts camera_id io0 st0
         | camera_id ts box0 name dist io0 st0
         | cosd camera_id img_w img_h ts b st0
         | cosd camera_id img_w img_h ts [boxes|] st0].
  - apply handle_known_face_sound.
  - apply same_tables_sound, handle_unknown_face_same_tables.
  - apply dispatch_sound.
  - apply process_box_sound.
  - apply process_boxes_sound.
  - apply sound_refl.
Qed.

Lemma Inv_init cfg :
  1 <= required_confirmations (parameters cfg) -> Inv cfg init_state.
Proof.
  intros HT name. unfold count; simpl. rewrite !lookup_empty. simpl.
  split; [lia|]. split; [intros []; discriminate | lia].
Qed.

(** *** Runs of sightings of one label *)

(** One known-face sighting: the box was matched to the label at
    distance [s_dist]. *)
Record Sighting := {
  s_camera : string;
  s_ts : Timestamp;
  s_box : Crop.Box;
  s_dist : Q;
  s_io : IO;
}.

(** The per-box dispatch run on each sighting in turn.  Each sighting is
    in a frame of its own, so an exception in one does not skip the
    next. *)
Fixpoint run_sightings (cfg : Config) (name : string) (l : list Sighting)
    (st : State) : State * list Effect :=
  match l with
  | [] => (st, [])
  | s :: rest =>
      let '(st1, effs1, _) :=
        dispatch cfg (s_camera s) (s_ts s) (s_box s) name (s_dist s)
                 (s_io s) st in
      let '(st2, effs2) := run_sightings cfg name rest st1 in
      (st2, effs1 ++ effs2)
  end.

(** The detection event of a known-face sighting. *)
Definition detection_event (name : string) (s : Sighting)
    (image_filename : option string) : Effect :=
  OnViolation {| p_camera_id := s_camera s; p_type := "face_detection";
                 p_name := name; p_confidence := 1 - s_dist s;
                 p_timestamp := s_ts s; p_bbox := s_box s;
                 p_image_filename := image_filename;
                 p_small_face := false |}.

(** What the confirming sighting does besides the detection event. *)
Definition confirmation_effects (cfg : Config) (name : string) (s : Sighting)
    : list Effect :=
  [LedgerAppend [name; ts_date (s_ts s); ts_time (s_ts s); s_camera s]
                (ledger_ok (s_io s));
   SaveCrop (save_matched_dir (parameters cfg))
            (crop_filename (s_camera s) name (s_ts s)) (save_ok (s_io s))]
  ++ (if on_attendance cfg then [OnAttendance name (s_ts s) (s_camera s)]
      else []).

(** The evidence filename the confirming sighting reports. *)
Definition confirmation_image (name : string) (s : Sighting) : option string :=
  if save_ok (s_io s) then Some (crop_filename (s_camera s) name (s_ts s))
  else None.

Lemma crop_filename_nonempty camera_id name ts :
  (crop_filename camera_id name ts =? "")%string = false.
Proof. unfold crop_filename. now destruct camera_id. Qed.

Lemma known_flag name : name <> Unknown -> negb (name =? Unknown)%string = true.
Proof. intros H. apply negb_true_iff. now apply String.eqb_neq. Qed.

(** A sighting of a label that is already in the log. *)
Lemma dispatch_confirmed cfg name s st :
  name <> Unknown -> on_violation cfg = true ->
  is_Some (attendance_log st !! name) ->
  let r := dispatch cfg (s_camera s) (s_ts s) (s_box s) name (s_dist s)
                    (s_io s) st in
  same_tables st r.1.1 /\
  last_unknown_saved_time r.1.1 = last_unknown_saved_time st /\
  r.1.2 = [detection_event name s None] /\ r.2 = Returned tt.
Proof.
  intros Hn Hv [old Hold]. unfold dispatch, handle_known_face. cbv zeta.
  rewrite (known_flag name Hn), Hv. simpl. rewrite Hold. simpl.
  repeat split.
Qed.

(** A sighting that leaves the counter below the threshold. *)
Lemma dispatch_counting cfg name s st :
  name <> Unknown -> on_violation cfg = true ->
  attendance_log st !! name = None ->
  count st name + 1 < required_confirmations (parameters cfg) ->
  let r := dispatch cfg (s_camera s) (s_ts s) (s_box s) name (s_dist s)
                    (s_io s) st in
  attendance_log r.1.1 = attendance_log st /\
  confirmation_counts r.1.1 =
    <[name := count st name + 1]> (confirmation_counts st) /\
  last_unknown_saved_time r.1.1 = last_unknown_saved_time st /\
  r.1.2 = [detection_event name s None] /\ r.2 = Returned tt.
Proof.
  intros Hn Hv Hlog Hlt. unfold dispatch, handle_known_face. cbv zeta.
  rewrite (known_flag name Hn), Hv. simpl. rewrite Hlog.
  change (count (set_stats incr_total_detections st) name)
    with (count st name).
  destruct (Z.leb_spec (required_confirmations (parameters cfg))
                       (count st name + 1)); [lia|].
  simpl. repeat split.
Qed.

(** The sighting on which the counter reaches the threshold. *)
Lemma dispatch_confirming cfg name s st :
  name <> Unknown -> on_violation cfg = true ->
  attendance_log st !! name = None ->
  required_confirmations (parameters cfg) <= count st name + 1 ->
  let r := dispatch cfg (s_camera s) (s_ts s) (s_box s) name (s_dist s)
                    (s_io s) st in
  attendance_log r.1.1 = <[name := s_ts s]> (attendance_log st) /\
  confirmation_counts r.1.1 =
    <[name := count st name + 1]> (confirmation_counts st) /\
  last_unknown_saved_time r.1.1 = last_unknown_saved_time st /\
  r.1.2 = confirmation_effects cfg name s ++
          (if on_attendance cfg && attendance_raises (s_io s) then []
           else [detection_event name s (confirmation_image name s)]) /\
  r.2 = (if on_attendance cfg && attendance_raises (s_io s) then Raised
         else Returned tt).
Proof.
  intros Hn Hv Hlog Hge. unfold dispatch, handle_known_face. cbv zeta.
  rewrite (known_flag name Hn), Hv. simpl. rewrite Hlog.
  change (count (set_stats incr_total_detections st) name)
    with (count st name).
  destruct (Z.leb_spec (required_confirmations (parameters cfg))
                       (count st name + 1)); [|lia].
  unfold confirmation_effects, confirmation_image, detection_event, save_ok.
  destruct (on_attendance cfg), (attendance_raises (s_io s)),
    (returned (save (s_io s))); simpl;
    rewrite ?crop_filename_nonempty; repeat split.
Qed.

Lemma run_sightings_app cfg name l1 l2 st :
  run_sightings cfg name (l1 ++ l2) st =
  let r1 := run_sightings cfg name l1 st in
  let r2 := run_sightings cfg name l2 r1.1 in
  (r2.1, r1.2 ++ r2.2).
Proof.
  revert st. induction l1 as [|s l1 IH]; intros st; simpl.
  - now destruct (run_sightings cfg name l2 st).
  - destruct (dispatch _ _ _ _ _ _ _ _) as [[st1 effs1] out].
    rewrite IH. cbv zeta.
    destruct (run_sightings cfg name l1 st1) as [st2 effs2]; simpl.
    destruct (run_sightings cfg name l2 st2) as [st3 effs3]; simpl.
    now rewrite app_assoc.
Qed.

Lemma run_sightings_single cfg name c st :
  run_sightings cfg name [c] st =
  let r := dispatch cfg (s_camera c) (s_ts c) (s_box c) name (s_dist c)
                    (s_io c) st in
  (r.1.1, r.1.2).
Proof.
  simpl. destruct (dispatch _ _ _ _ _ _ _ _) as [[? ?] ?]; simpl.
  now rewrite app_nil_r.
Qed.

Lemma run_sightings_split cfg name pre c post st :
  run_sightings cfg name (pre ++ c :: post) st =
  let r1 := run_sightings cfg name pre st in
  let r2 := run_sightings cfg name [c] r1.1 in
  let r3 := run_sightings cfg name post r2.1 in
  (r3.1, r1.2 ++ r2.2 ++ r3.2).
Proof.
  change (c :: post) with ([c] ++ post).
  rewrite run_sightings_app. cbv zeta.
  rewrite (run_sightings_app cfg name [c] post). cbv zeta. reflexivity.
Qed.

(** While the counter stays below the threshold, each sighting adds one
    to it and only sends its detection event. *)
Lemma run_counting cfg name l st :
  name <> Unknown -> on_violation cfg = true ->
  attendance_log st !! name = None ->
  count st name + Z.of_nat (length l) < required_confirmations (parameters cfg) ->
  let r := run_sightings cfg name l st in
  count r.1 name = count st name + Z.of_nat (length l) /\
  attendance_log r.1 = attendance_log st /\
  r.2 = map (fun s => detection_event name s None) l.
Proof.
  intros Hn Hv. revert st. induction l as [|s l IH]; intros st Hlog Hlt.
  - simpl. repeat split. lia.
  - simpl length in Hlt. cbn [run_sightings].
    destruct (dispatch_counting cfg name s st Hn Hv Hlog)
      as (Hl & Hc & _ & He & _); [lia|].
    destruct (dispatch _ _ _ _ _ _ _ _) as [[st1 effs1] out]; simpl in *.
    assert (Hcount1 : count st1 name = count st name + 1)
      by (unfold count at 1; rewrite Hc, lookup_insert_eq; reflexivity).
    destruct (IH st1) as (Hc2 & Hl2 & He2); [now rewrite Hl | lia |].
    destruct (run_sightings cfg name l st1) as [st2 effs2]; simpl in *.
    subst effs1 effs2. split; [lia|]. split; [congruence | reflexivity].
Qed.

(** Once the label is in the log, sightings change neither table and
    only send their detection events. *)
Lemma run_confirmed cfg name l st :
  name <> Unknown -> on_violation cfg = true ->
  is_Some (attendance_log st !! name) ->
  let r := run_sightings cfg name l st in
  same_tables st r.1 /\
  r.2 = map (fun s => detection_event name s None) l.
Proof.
  intros Hn Hv. revert st. induction l as [|s l IH]; intros st Hlog.
  - simpl. repeat split.
  - cbn [run_sightings].
    destruct (dispatch_confirmed cfg name s st Hn Hv Hlog)
      as ((Hl & Hc) & _ & He & _).
    destruct (dispatch _ _ _ _ _ _ _ _) as [[st1 effs1] out]; simpl in *.
    destruct (IH st1) as ((Hl2 & Hc2) & He2); [now rewrite Hl|].
    destruct (run_sightings cfg name l st1) as [st2 effs2]; simpl in *.
    subst effs1 effs2. repeat split; congruence.
Qed.

(** *** A sample configuration for the concrete runs *)

Definition sample_parameters : Parameters :=
  {| threshold := 2 # 5; required_confirmations := 3;
     unknown_interval := 60; min_face_size := Some 80;
     save_matched_dir := "matched"; save_unknown_dir := "unknown" |}.

Definition sample_config : Config :=
  {| parameters := sample_parameters;
     db := [("Alice"%string, [1%Q; 0%Q])];
     on_violation := true; on_attendance := false |}.

Definition sample_ts : Timestamp :=
  {| ts_date := "2024-05-01"; ts_time := "09:30:00" |}.

Definition io_fine (t : Q) : IO :=
  {| ledger_ok := true; save := Written; attendance_raises := false; now := t |}.

(** C10.  With a threshold of at least 1, the state [__init__] leaves
    satisfies the invariant (no counter above the threshold; a label is
    in the attendance log exactly when its counter has reached the
    threshold), every operation keeps it, so every reachable state has
    it; and an operation never decreases a counter, never removes or
    rewrites a log entry, and leaves the counter of a logged label
    as it was. *)
Theorem confirmation_invariant (cfg : Config) :
  1 <= required_confirmations (parameters cfg) ->
  Inv cfg init_state /\
  (forall st st', Inv cfg st -> step cfg st st' ->
                  Inv cfg st' /\ grows st st') /\
  (forall st, rtc (step cfg) init_state st -> Inv cfg st).
Proof.
  intros HT.
  assert (Hstep : forall st st', Inv cfg st -> step cfg st st' ->
                                 Inv cfg st' /\ grows st st').
  { intros st st' HI Hs. destruct (step_sound cfg st st' Hs) as (Hi & Hg).
    split; [now apply Hi | exact Hg]. }
  split; [now apply Inv_init|]. split; [exact Hstep|].
  intros st Hreach. pattern st. revert st Hreach. apply rtc_ind_r.
  - now apply Inv_init.
  - intros mid st _ Hlast IH. now apply (Hstep mid st).
Qed.

Lemma confirmation_invariant_witness :
  1 <= required_confirmations (parameters sample_config) /\
  Inv sample_config
    (handle_known_face sample_config "Alice" sample_ts "C1" (io_fine 0)
                       init_state).1.1.
Proof.
  assert (HT : 1 <= required_confirmations (parameters sample_config))
    by (simpl; lia).
  split; [exact HT|].
  destruct (confirmation_invariant sample_config HT) as (Hinit & Hstep & _).
  exact (proj1 (Hstep _ _ Hinit
    (step_known sample_config "Alice" sample_ts "C1" (io_fine 0) init_state))).
Defined.

(** *** Reading a trace *)

(** The ledger rows that were written. *)
Definition ledger_rows (effs : list Effect) : list (list string) :=
  omap (fun e => match e with
                 | LedgerAppend row true => Some row
                 | _ => None
                 end) effs.

(** The ledger rows that were offered, written or not. *)
Definition ledger_attempts (effs : list Effect) : list (list string) :=
  omap (fun e => match e with
                 | LedgerAppend row _ => Some row
                 | _ => None
                 end) effs.

(** The evidence images that were offered, written or not. *)
Definition evidence_attempts (effs : list Effect) : list (string * string) :=
  omap (fun e => match e with
                 | SaveCrop folder fname _ => Some (folder, fname)
                 | _ => None
                 end) effs.

(** The calls of the attendance callback. *)
Definition attendance_calls (effs : list Effect) : list string :=
  omap (fun e => match e with
                 | OnAttendance name _ _ => Some name
                 | _ => None
                 end) effs.

(** The detection events handed to [on_violation]. *)
Definition detection_events (effs : list Effect) : list Payload :=
  omap (fun e => match e with
                 | OnViolation payload => Some payload
                 | _ => None
                 end) effs.

Lemma detection_event_trace name l :
  let effs := map (fun s => detection_event name s None) l in
  ledger_attempts effs = [] /\ evidence_attempts effs = [] /\
  attendance_calls effs = [] /\ length (detection_events effs) = length l.
Proof.
  induction l as [|s l (H1 & H2 & H3 & H4)]; simpl in *; [repeat split|].
  unfold ledger_attempts, evidence_attempts, attendance_calls,
    detection_events in *.
  simpl. rewrite H1, H2, H3, H4. repeat split.
Qed.

(** *** Runs of frames *)

(** One processed frame: the camera, the frame size, the timestamp taken
    at the top of [process_frame], and what the detector returns. *)
Record Frame := {
  f_camera : string;
  f_width : Z;
  f_height : Z;
  f_ts : Timestamp;
  f_detections : option (list BoxInput);
}.

(** [process_frame] on each frame in turn, whatever cameras they come
    from: the tracking state is shared. *)
Fixpoint run_frames (cosine_distance : Embedding -> Embedding -> Q)
    (cfg : Config) (frames : list Frame) (st : State) : State * list Effect :=
  match frames with
  | [] => (st, [])
  | f :: rest =>
      let '(st1, effs1) :=
        process_frame cosine_distance cfg (f_camera f) (f_width f)
                      (f_height f) (f_ts f) (f_detections f) st in
      let '(st2, effs2) := run_frames cosine_distance cfg rest st1 in
      (st2, effs1 ++ effs2)
  end.

(** The effect offers the ledger a row for the label. *)
Definition logs_label (name : string) (e : Effect) : bool :=
  match e with
  | LedgerAppend (n :: _) _ => String.eqb n name
  | _ => false
  end.

(** How many rows for the label a trace offers to the ledger. *)
Definition ledger_count (name : string) (effs : list Effect) : nat :=
  length (List.filter (logs_label name) effs).

(** 1 when the label is in the attendance log, 0 otherwise. *)
Definition logged (st : State) (name : string) : nat :=
  match attendance_log st !! name with Some _ => 1 | None => 0 end.

(** From [st] to [st'] with trace [effs], the rows offered for the label
    are accounted for by its entering the log. *)
Definition accounted (name : string) (st : State) (effs : list Effect)
    (st' : State) : Prop :=
  (ledger_count name effs + logged st name = logged st' name)%nat.

Lemma accounted_nil name st st' :
  attendance_log st' = attendance_log st -> accounted name st [] st'.
Proof. unfold accounted, logged. now intros ->. Qed.

Lemma accounted_app name st1 effs1 st2 effs2 st3 :
  accounted name st1 effs1 st2 -> accounted name st2 effs2 st3 ->
  accounted name st1 (effs1 ++ effs2) st3.
Proof.
  unfold accounted, ledger_count. rewrite List.filter_app, length_app. lia.
Qed.

Lemma handle_known_face_accounted cfg name' ts camera_id io st name :
  let r := handle_known_face cfg name' ts camera_id io st in
  accounted name st r.1.2 r.1.1.
Proof.
  cbv zeta. unfold handle_known_face.
  destruct (attendance_log st !! name') as [old|] eqn:Hlog;
    [now apply accounted_nil|].
  destruct (Z.leb_spec (required_confirmations (parameters cfg))
                       (count st name' + 1)); [|now apply accounted_nil].
  unfold save_face_crop, log_attendance. cbv zeta.
  assert (Hgoal : forall tail, List.filter (logs_label name) tail = [] ->
    (length (List.filter (logs_label name)
       ([LedgerAppend [name'; ts_date ts; ts_time ts; camera_id] (ledger_ok io)]
        ++ tail)) + logged st name)%nat
    = match <[name' := ts]> (attendance_log st) !! name with
      | Some _ => 1%nat | None => 0%nat end).
  { intros tail Htail. rewrite List.filter_app, Htail, app_nil_r.
    unfold logged. simpl. rewrite lookup_insert.
    destruct (String.eqb_spec name' name) as [->|Hne].
    - rewrite decide_True by reflexivity. now rewrite Hlog.
    - rewrite decide_False by assumption. reflexivity. }
  destruct (on_attendance cfg); unfold accounted, ledger_count, logged;
    cbn [fst snd attendance_log set_stats set_attendance_log];
    apply Hgoal; reflexivity.
Qed.

Lemma handle_unknown_face_accounted cfg ts camera_id io st name :
  let r := handle_unknown_face cfg ts camera_id io st in
  accounted name st r.1.2 r.1.1.
Proof.
  cbv zeta. unfold handle_unknown_face, save_face_crop. cbv zeta.
  destruct (unknown_due cfg camera_id (now io) st);
    [|now apply accounted_nil].
  unfold accounted, ledger_count, logged. reflexivity.
Qed.

Lemma accounted_events name st effs st' (tail : list Effect) :
  accounted name st effs st' ->
  List.filter (logs_label name) tail = [] ->
  accounted name st (effs ++ tail) st'.
Proof.
  unfold accounted, ledger_count. intros H Htail.
  now rewrite List.filter_app, Htail, app_nil_r.
Qed.

Lemma dispatch_accounted cfg camera_id ts box name' dist io st name :
  let r := dispatch cfg camera_id ts box name' dist io st in
  accounted name st r.1.2 r.1.1.
Proof.
  cbv zeta. unfold dispatch. cbv zeta.
  set (st0 := set_stats incr_total_detections st).
  destruct (negb (name' =? Unknown)%string).
  - pose proof (handle_known_face_accounted cfg name' ts camera_id io st0 name)
      as Hk. cbv zeta in Hk.
    destruct (handle_known_face cfg name' ts camera_id io st0)
      as [[st1 effs] [saved|]]; cbn [fst snd] in *.
    + apply accounted_events; [exact Hk|].
      now destruct (on_violation cfg).
    + exact Hk.
  - pose proof (handle_unknown_face_accounted cfg ts camera_id io st0 name)
      as Hu. cbv zeta in Hu.
    destruct (handle_unknown_face cfg ts camera_id io st0)
      as [[st1 effs] saved]; cbn [fst snd] in *.
    apply accounted_events; [exact Hu|].
    now destruct (on_violation cfg).
Qed.

Lemma process_box_accounted cosine_distance cfg camera_id img_w img_h ts b st
    name :
  let r := process_box cosine_distance cfg camera_id img_w img_h ts b st in
  accounted name st r.1.2 r.1.1.
Proof.
  cbv zeta. unfold process_box.
  destruct (Crop.crop_shape img_w img_h (box b)) as [rows cols].
  destruct ((rows <? min_face cfg) || (cols <? min_face cfg)).
  - cbn [fst snd]. destruct (on_violation cfg); reflexivity.
  - destruct (match_face _ _ _ _) as [name' dist].
    pose proof (dispatch_accounted cfg camera_id ts (box b) name' dist (io b)
                                   st name) as H. cbv zeta in H.
    destruct (dispatch cfg camera_id ts (box b) name' dist (io b) st)
      as [[st1 effs] out]; cbn [fst snd] in *.
    exact H.
Qed.

Lemma process_boxes_accounted cosine_distance cfg camera_id img_w img_h ts
    boxes st name :
  let r := process_boxes cosine_distance cfg camera_id img_w img_h ts boxes st in
  accounted name st r.2 r.1.
Proof.
  cbv zeta. revert st. induction boxes as [|b rest IH]; intros st;
    cbn [process_boxes]; [reflexivity|].
  pose proof (process_box_accounted cosine_distance cfg camera_id img_w img_h
                                    ts b st name) as Hb. cbv zeta in Hb.
  destruct (process_box cosine_distance cfg camera_id img_w img_h ts b st)
    as [[st1 effs] [u|]]; cbn [fst snd] in *; [|exact Hb].
  specialize (IH st1).
  destruct (process_boxes cosine_distance cfg camera_id img_w img_h ts rest st1)
    as [st2 effs2]; cbn [fst snd] in *.
  exact (accounted_app _ _ _ _ _ _ Hb IH).
Qed.

(** Over any run of frames, the rows a label is offered to the ledger
    are accounted for by its entering the log. *)
Lemma run_frames_accounted cosine_distance cfg frames st name :
  let r := run_frames cosine_distance cfg frames st in
  accounted name st r.2 r.1.
Proof.
  cbv zeta. revert st. induction frames as [|f rest IH]; intros st;
    cbn [run_frames]; [reflexivity|].
  assert (Hf : let r := process_frame cosine_distance cfg (f_camera f)
                          (f_width f) (f_height f) (f_ts f)
                          (f_detections f) st in
               accounted name st r.2 r.1).
  { unfold process_frame. destruct (f_detections f) as [boxes|];
      [apply process_boxes_accounted | reflexivity]. }
  cbv zeta in Hf.
  destruct (process_frame _ _ _ _ _ _ _ _) as [st1 effs1]; cbn [fst snd] in *.
  specialize (IH st1).
  destruct (run_frames cosine_distance cfg rest st1) as [st2 effs2];
    cbn [fst snd] in *.
  exact (accounted_app _ _ _ _ _ _ Hf IH).
Qed.

(** C1.  Take a label that is unseen (not in the log, counter 0) and a
    threshold [T >= 1], and feed it [T - 1] sightings, one more, and then
    any number of further ones.  The first [T - 1] bring the counter to
    [T - 1], one by one, and do nothing but send their detection events.
    The next one brings the counter to [T], enters the label in the
    attendance log, offers one row to the ledger and one image to the
    evidence store, and calls the attendance callback if there is one.
    Every later sighting leaves the log and the counters as they are and
    only sends its detection event, without an evidence filename: over
    the whole run there is one ledger row offered, one image offered,
    and one detection event for each sighting after the confirming one.
    And over any run of frames from the initial state, whatever labels
    and cameras it mixes, each label is offered to the ledger at most
    once: once when it ends in the attendance log, never otherwise. *)
Theorem attendance_confirmed_exactly_once
    (cfg : Config) (name : string) (pre post : list Sighting) (c : Sighting)
    (st : State) :
  1 <= required_confirmations (parameters cfg) ->
  name <> Unknown -> on_violation cfg = true ->
  attendance_log st !! name = None -> count st name = 0 ->
  Z.of_nat (length pre) = required_confirmations (parameters cfg) - 1 ->
  let r1 := run_sightings cfg name pre st in
  let r2 := run_sightings cfg name [c] r1.1 in
  let r3 := run_sightings cfg name post r2.1 in
  let r := run_sightings cfg name (pre ++ c :: post) st in
  (r.1 = r3.1 /\ r.2 = r1.2 ++ r2.2 ++ r3.2) /\
  (count r1.1 name = required_confirmations (parameters cfg) - 1 /\
   attendance_log r1.1 !! name = None /\
   r1.2 = map (fun s => detection_event name s None) pre) /\
  (count r2.1 name = required_confirmations (parameters cfg) /\
   attendance_log r2.1 !! name = Some (s_ts c) /\
   r2.2 = confirmation_effects cfg name c ++
          (if on_attendance cfg && attendance_raises (s_io c) then []
           else [detection_event name c (confirmation_image name c)])) /\
  (attendance_log r3.1 = attendance_log r2.1 /\
   confirmation_counts r3.1 = confirmation_counts r2.1 /\
   r3.2 = map (fun s => detection_event name s None) post) /\
  (ledger_attempts r.2 =
     [[name; ts_date (s_ts c); ts_time (s_ts c); s_camera c]] /\
   ledger_rows r.2 =
     (if ledger_ok (s_io c)
      then [[name; ts_date (s_ts c); ts_time (s_ts c); s_camera c]]
      else []) /\
   evidence_attempts r.2 =
     [(save_matched_dir (parameters cfg),
       crop_filename (s_camera c) name (s_ts c))] /\
   attendance_calls r.2 = (if on_attendance cfg then [name] else []) /\
   length (detection_events r3.2) = length post) /\
  (forall cosine_distance frames label,
     let rf := run_frames cosine_distance cfg frames init_state in
     ledger_count label rf.2 = logged rf.1 label /\
     (ledger_count label rf.2 <= 1)%nat).
Proof.
  intros HT Hn Hv Hlog Hzero Hlen. cbv zeta.
  rewrite run_sightings_split. cbv zeta. cbn [fst snd].
  (* the counting phase *)
  destruct (run_counting cfg name pre st Hn Hv Hlog) as (Hc1 & Hl1 & He1);
    [lia|].
  destruct (run_sightings cfg name pre st) as [s1 e1]; cbn [fst snd] in *.
  assert (Hlog1 : attendance_log s1 !! name = None) by (now rewrite Hl1).
  (* the confirming sighting *)
  destruct (dispatch_confirming cfg name c s1 Hn Hv Hlog1)
    as (Hl2 & Hc2 & _ & He2 & _); [lia|].
  rewrite run_sightings_single. cbv zeta. cbn [fst snd].
  destruct (dispatch cfg (s_camera c) (s_ts c) (s_box c) name (s_dist c)
                     (s_io c) s1) as [[s2 e2] out2]; cbn [fst snd] in *.
  assert (Hlog2 : attendance_log s2 !! name = Some (s_ts c))
    by (now rewrite Hl2, lookup_insert_eq).
  (* the sightings after it *)
  destruct (run_confirmed cfg name post s2 Hn Hv) as ((Hl3 & Hc3) & He3);
    [now rewrite Hlog2|].
  destruct (run_sightings cfg name post s2) as [s3 e3]; cbn [fst snd] in *.
  split; [split; reflexivity|].
  split; [repeat split; [lia | assumption | assumption]|].
  split.
  { split; [|split; [assumption | assumption]].
    unfold count. rewrite Hc2, lookup_insert_eq. simpl. lia. }
  split; [repeat split; assumption|].
  split; cycle 1.
  { intros cosd frames label. cbv zeta.
    pose proof (run_frames_accounted cosd cfg frames init_state label) as Hacc.
    cbv zeta in Hacc. unfold accounted in Hacc.
    change (logged init_state label) with 0%nat in Hacc.
    rewrite Nat.add_0_r in Hacc. split; [exact Hacc|].
    rewrite Hacc. unfold logged. destruct (attendance_log _ !! label); lia. }
  pose proof (detection_event_trace name pre) as (P1 & P2 & P3 & _).
  pose proof (detection_event_trace name post) as (Q1 & Q2 & Q3 & Q4).
  cbv zeta in *. rewrite <- He1 in *. rewrite <- He3 in *.
  unfold ledger_attempts, ledger_rows, evidence_attempts, attendance_calls,
    detection_events in *.
  rewrite !omap_app, ?P1, ?P2, ?P3, ?Q1, ?Q2, ?Q3, He2.
  assert (Hrows1 : omap (fun e => match e with
                    | LedgerAppend row true => Some row | _ => None end) e1 = []).
  { rewrite He1. clear. induction pre; simpl; auto. }
  assert (Hrows3 : omap (fun e => match e with
                    | LedgerAppend row true => Some row | _ => None end) e3 = []).
  { rewrite He3. clear. induction post; simpl; auto. }
  rewrite Hrows1, Hrows3, !omap_app.
  unfold confirmation_effects, detection_event.
  destruct (on_attendance cfg), (attendance_raises (s_io c)),
    (ledger_ok (s_io c)); simpl; repeat split; assumption.
Qed.

Definition sample_sighting (io : IO) : Sighting :=
  {| s_camera := "C1"; s_ts := sample_ts;
     s_box := Crop.box_of 600 300 700 420; s_dist := 1 # 10; s_io := io |}.

(** Threshold 3 and 3 + 5 sightings of "Alice": one ledger row. *)
Lemma attendance_confirmed_exactly_once_witness :
  let s := sample_sighting (io_fine 0) in
  ledger_rows
    (run_sightings sample_config "Alice" ([s; s] ++ s :: [s; s; s; s; s])
                   init_state).2
  = [["Alice"; "2024-05-01"; "09:30:00"; "C1"]]%string.
Proof.
  cbv zeta.
  refine (proj1 (proj2 (proj1 (proj2 (proj2 (proj2 (proj2
    (attendance_confirmed_exactly_once sample_config "Alice"
       [sample_sighting (io_fine 0); sample_sighting (io_fine 0)]
       (repeat (sample_sighting (io_fine 0)) 5)
       (sample_sighting (io_fine 0)) init_state _ _ _ _ _ _)))))))).
  - simpl; lia.
  - discriminate.
  - reflexivity.
  - reflexivity.
  - reflexivity.
  - reflexivity.
Defined.

(** The detection event of the sighting [c], with the given evidence
    filename. *)
Definition confirming_event (name : string) (c : Sighting)
    (image_filename : option string) : Payload :=
  {| p_camera_id := s_camera c; p_type := "face_detection";
     p_name := name; p_confidence := 1 - s_dist c;
     p_timestamp := s_ts c; p_bbox := s_box c;
     p_image_filename := image_filename; p_small_face := false |}.

(** C7 (as amended).  On the sighting that brings an unconfirmed label to
    the threshold, whether or not the ledger write goes through and
    however the image save ends: the call returns (unless an attendance
    callback raises), the label is in the attendance log afterwards, the
    ledger row and the image were offered, and one detection event is
    sent.  The event carries no evidence filename when the save raised,
    and the filename of the image when the image was written, whatever
    happened to the ledger write.  Any later sightings leave the log and
    the counters as they are and offer nothing to the ledger or the
    evidence store. *)
Theorem confirmation_survives_storage_failure
    (cfg : Config) (name : string) (c : Sighting) (later : list Sighting)
    (st : State) :
  name <> Unknown -> on_violation cfg = true ->
  attendance_log st !! name = None ->
  required_confirmations (parameters cfg) <= count st name + 1 ->
  on_attendance cfg && attendance_raises (s_io c) = false ->
  let r := dispatch cfg (s_camera c) (s_ts c) (s_box c) name (s_dist c)
                    (s_io c) st in
  let r' := run_sightings cfg name later r.1.1 in
  let fname := crop_filename (s_camera c) name (s_ts c) in
  r.2 = Returned tt /\
  attendance_log r.1.1 !! name = Some (s_ts c) /\
  (exists image_filename,
     detection_events r.1.2 = [confirming_event name c image_filename]) /\
  (save (s_io c) = SaveRaised ->
   detection_events r.1.2 = [confirming_event name c None]) /\
  (save (s_io c) = Written ->
   detection_events r.1.2 = [confirming_event name c (Some fname)]) /\
  ledger_attempts r.1.2 =
    [[name; ts_date (s_ts c); ts_time (s_ts c); s_camera c]] /\
  ledger_rows r.1.2 =
    (if ledger_ok (s_io c)
     then [[name; ts_date (s_ts c); ts_time (s_ts c); s_camera c]] else []) /\
  evidence_attempts r.1.2 = [(save_matched_dir (parameters cfg), fname)] /\
  attendance_log r'.1 = attendance_log r.1.1 /\
  confirmation_counts r'.1 = confirmation_counts r.1.1 /\
  ledger_attempts r'.2 = [] /\ evidence_attempts r'.2 = [].
Proof.
  intros Hn Hv Hlog Hge Hcb. cbv zeta.
  destruct (dispatch_confirming cfg name c st Hn Hv Hlog Hge)
    as (Hl & Hc & _ & He & Hout).
  destruct (dispatch cfg (s_camera c) (s_ts c) (s_box c) name (s_dist c)
                     (s_io c) st) as [[s1 e1] out]; cbn [fst snd] in *.
  rewrite Hcb in He, Hout.
  assert (Hlog1 : attendance_log s1 !! name = Some (s_ts c))
    by (now rewrite Hl, lookup_insert_eq).
  destruct (run_confirmed cfg name later s1 Hn Hv) as ((Hl' & Hc') & He');
    [now rewrite Hlog1|].
  destruct (run_sightings cfg name later s1) as [s2 e2]; cbn [fst snd] in *.
  pose proof (detection_event_trace name later) as (Q1 & Q2 & _).
  cbv zeta in Q1, Q2. rewrite <- He' in Q1, Q2.
  assert (Hev : detection_events e1 =
                [confirming_event name c (confirmation_image name c)]).
  { rewrite He. unfold confirmation_effects, detection_event,
      detection_events. destruct (on_attendance cfg); reflexivity. }
  split; [exact Hout|]. split; [exact Hlog1|].
  split; [now exists (confirmation_image name c)|].
  split; [|split].
  - intros Hs. rewrite Hev. unfold confirmation_image, save_ok.
    now rewrite Hs.
  - intros Hs. rewrite Hev. unfold confirmation_image, save_ok.
    now rewrite Hs.
  - split; [|split; [|split; [|repeat split; assumption]]].
    + rewrite He. unfold confirmation_effects, detection_event,
        ledger_attempts. destruct (on_attendance cfg); reflexivity.
    + rewrite He. unfold confirmation_effects, detection_event, ledger_rows.
      destruct (on_attendance cfg), (ledger_ok (s_io c)); reflexivity.
    + rewrite He. unfold confirmation_effects, detection_event,
        evidence_attempts. destruct (on_attendance cfg); reflexivity.
Qed.

Definition io_ledger_down : IO :=
  {| ledger_ok := false; save := Written; attendance_raises := false;
     now := 0 |}.

Definition io_storage_down : IO :=
  {| ledger_ok := false; save := SaveRaised; attendance_raises := false;
     now := 0 |}.

(** The state after two sightings of "Alice" under threshold 3. *)
Definition two_seen : State :=
  (run_sightings sample_config "Alice"
     [sample_sighting (io_fine 0); sample_sighting (io_fine 0)]
     init_state).1.

(** C7 as stated fails when only the ledger write fails: the image is
    saved, and the detection event carries its filename. *)
Lemma ledger_failure_event_has_filename :
  let s := sample_sighting io_ledger_down in
  let r := dispatch sample_config (s_camera s) (s_ts s) (s_box s) "Alice"
                    (s_dist s) (s_io s) two_seen in
  attendance_log two_seen !! "Alice"%string = None /\
  count two_seen "Alice" + 1 = required_confirmations sample_parameters /\
  ledger_attempts r.1.2 = [["Alice"; "2024-05-01"; "09:30:00"; "C1"]]%string /\
  ledger_rows r.1.2 = [] /\
  map p_image_filename (detection_events r.1.2) =
    [Some "C1_Alice_2024-05-01_09-30-00.jpg"%string].
Proof. cbv zeta. repeat split; vm_compute; reflexivity. Qed.

(** Both writes fail on the confirming sighting. *)
Lemma confirmation_survives_storage_failure_witness :
  let s := sample_sighting io_storage_down in
  let r := dispatch sample_config (s_camera s) (s_ts s) (s_box s) "Alice"
                    (s_dist s) (s_io s) two_seen in
  r.2 = Returned tt /\
  attendance_log r.1.1 !! "Alice"%string = Some sample_ts /\
  map p_image_filename (detection_events r.1.2) = [None].
Proof.
  cbv zeta.
  destruct (confirmation_survives_storage_failure sample_config "Alice"
              (sample_sighting io_storage_down) [] two_seen)
    as (H1 & H2 & _ & H3 & _).
  - discriminate.
  - reflexivity.
  - vm_compute; reflexivity.
  - vm_compute; discriminate.
  - reflexivity.
  - split; [exact H1|]. split; [exact H2|].
    cbv zeta in H3. rewrite (H3 eq_refl). reflexivity.
Defined.

(** What the amended C7 leaves out.  [save_face_crop] promises "None if
    save failed", but a write that [cv2.imwrite] reports by returning
    [False] raises nothing: the name is returned and the event of the
    confirming sighting carries it, though no image is on disk. *)
Lemma silent_write_failure_names_a_file :
  let io := {| ledger_ok := true; save := NotWritten;
               attendance_raises := false; now := 0 |} in
  let s := sample_sighting io in
  let r := dispatch sample_config (s_camera s) (s_ts s) (s_box s) "Alice"
                    (s_dist s) (s_io s) two_seen in
  save_face_crop "Alice" sample_ts "matched" "C1" NotWritten =
    (Some "C1_Alice_2024-05-01_09-30-00.jpg"%string,
     [SaveCrop "matched" "C1_Alice_2024-05-01_09-30-00.jpg" true]) /\
  map p_image_filename (detection_events r.1.2) =
    [Some "C1_Alice_2024-05-01_09-30-00.jpg"%string].
Proof. cbv zeta. split; vm_compute; reflexivity. Qed.

(** *** The size gate *)

(** C4.  With a detection callback installed: when the shorter side of
    the expanded crop is below the minimum face size, handling the box
    leaves the state alone and does one thing only, sending one event
    with label "Unknown", confidence 0, no evidence filename and
    [small_face] set, so neither [get_embedding] nor [match_face] is
    called; when the crop meets the minimum, the box goes to
    [get_embedding] and then to [match_face]. *)
Theorem small_face_gate
    (cosine_distance : Embedding -> Embedding -> Q) (cfg : Config)
    (camera_id : string) (img_w img_h : Z) (ts : Timestamp) (b : BoxInput)
    (st : State) :
  on_violation cfg = true ->
  let shape := Crop.crop_shape img_w img_h (box b) in
  let r := process_box cosine_distance cfg camera_id img_w img_h ts b st in
  (Z.min shape.1 shape.2 < min_face cfg ->
   r = (st,
        [OnViolation
           {| p_camera_id := camera_id; p_type := "face_detection";
              p_name := "Unknown"; p_confidence := 0;
              p_timestamp := small_timestamp b; p_bbox := box b;
              p_image_filename := None; p_small_face := true |}],
        Returned tt)) /\
  (min_face cfg <= Z.min shape.1 shape.2 ->
   exists rest,
     r.1.2 = GetEmbedding shape.1 shape.2 :: MatchFace (embedding b) :: rest).
Proof.
  intros Hv. cbv zeta. unfold process_box.
  destruct (Crop.crop_shape img_w img_h (box b)) as [rows cols]; simpl.
  destruct (Z.ltb_spec rows (min_face cfg)), (Z.ltb_spec cols (min_face cfg));
    simpl; rewrite ?Hv; (split; intros Hm; [try reflexivity; lia|]); try lia.
  destruct (match_face _ _ _ _) as [name dist].
  destruct (dispatch _ _ _ _ _ _ _ _) as [[st1 effs] out]; simpl.
  now exists effs.
Qed.

Definition small_box : BoxInput :=
  {| box := Crop.box_of 600 300 620 320; small_timestamp := sample_ts;
     embedding := Some [1%Q; 0%Q]; io := io_fine 0 |}.

(** A 20 by 20 box in a 1280 by 720 frame: the crop is 28 by 30, under
    the minimum of 80. *)
Lemma small_face_gate_witness :
  Crop.crop_shape 1280 720 (box small_box) = (30, 28) /\
  process_box unit_cosine_distance sample_config "C1" 1280 720 sample_ts
              small_box init_state
  = (init_state, [OnViolation (small_payload "C1" small_box)], Returned tt).
Proof.
  split; [reflexivity|].
  apply (small_face_gate unit_cosine_distance sample_config "C1" 1280 720
                         sample_ts small_box init_state).
  - reflexivity.
  - vm_compute; reflexivity.
Defined.

(** A box that passes the gate is dispatched on the matcher's answer. *)
Lemma process_box_dispatch
    (cosine_distance : Embedding -> Embedding -> Q) (cfg : Config)
    (camera_id : string) (img_w img_h : Z) (ts : Timestamp) (b : BoxInput)
    (st : State) (name : string) (dist : Q) :
  let shape := Crop.crop_shape img_w img_h (box b) in
  min_face cfg <= Z.min shape.1 shape.2 ->
  match_face cosine_distance (threshold (parameters cfg)) (db cfg)
             (embedding b) = (name, dist) ->
  process_box cosine_distance cfg camera_id img_w img_h ts b st =
    let r := dispatch cfg camera_id ts (box b) name dist (io b) st in
    (r.1.1, GetEmbedding shape.1 shape.2 :: MatchFace (embedding b) :: r.1.2,
     r.2).
Proof.
  cbv zeta. unfold process_box.
  destruct (Crop.crop_shape img_w img_h (box b)) as [rows cols]; simpl.
  intros Hm ->.
  destruct (Z.ltb_spec rows (min_face cfg)), (Z.ltb_spec cols (min_face cfg));
    try lia; simpl.
  now destruct (dispatch _ _ _ _ _ _ _ _) as [[st1 effs] out].
Qed.

Definition alice_box : BoxInput :=
  {| box := Crop.box_of 600 300 700 420; small_timestamp := sample_ts;
     embedding := Some [4 # 5; 3 # 5]; io := io_fine 0 |}.

(** The end-to-end scenario: a gallery holding "Alice", threshold 0.4,
    three confirmations required, and three frames on camera "C1" each
    with one box matched to "Alice" (at distance 0.2).  The first two
    frames only count; the third writes one ledger row and one image
    under the matched folder. *)
Example three_frames_confirm_alice :
  let frame st :=
    process_frame unit_cosine_distance sample_config "C1" 1280 720
                  sample_ts (Some [alice_box]) st in
  let r1 := frame init_state in
  let r2 := frame r1.1 in
  let r3 := frame r2.1 in
  map p_name (detection_events r1.2) = ["Alice"%string] /\
  ledger_attempts (r1.2 ++ r2.2) = [] /\
  evidence_attempts (r1.2 ++ r2.2) = [] /\
  count r2.1 "Alice" = 2 /\
  ledger_rows r3.2 = [["Alice"; "2024-05-01"; "09:30:00"; "C1"]]%string /\
  evidence_attempts r3.2 =
    [("matched", "C1_Alice_2024-05-01_09-30-00.jpg")]%string /\
  attendance_log r3.1 !! "Alice"%string = Some sample_ts.
Proof. vm_compute. repeat split. Qed.

(** *** The unknown-face cooldown *)

(** Two unknown-face detections in a row on one camera. *)
Definition two_unknown (cfg : Config) (camera_id : string)
    (ts1 : Timestamp) (io1 : IO) (ts2 : Timestamp) (io2 : IO) (st : State)
    : State * list Effect :=
  let '(st1, effs1, _) := handle_unknown_face cfg ts1 camera_id io1 st in
  let '(st2, effs2, _) := handle_unknown_face cfg ts2 camera_id io2 st1 in
  (st2, effs1 ++ effs2).

(** C2 (as amended).  The cooldown admits a write exactly when the
    camera has no earlier save or the time since the last one exceeds
    the interval.  An admitted detection offers one image and records
    the current time for the camera; a skipped one offers nothing and
    leaves the state as it is.  After a first admitted detection, a
    second one on the same camera is written when it comes more than the
    interval later (two writes), and skipped when it comes within the
    interval, the interval itself included (one write). *)
Theorem unknown_cooldown_gate
    (cfg : Config) (camera_id : string) (ts1 ts2 : Timestamp) (io1 io2 : IO)
    (st : State) :
  let I := unknown_interval (parameters cfg) in
  let r := handle_unknown_face cfg ts1 camera_id io1 st in
  (unknown_due cfg camera_id (now io1) st = true <->
   (last_unknown_saved_time st !! camera_id = None \/
    exists last, last_unknown_saved_time st !! camera_id = Some last /\
                 (I < now io1 - last)%Q)) /\
  (unknown_due cfg camera_id (now io1) st = true ->
   evidence_attempts r.1.2 =
     [(save_unknown_dir (parameters cfg),
       crop_filename camera_id Unknown ts1)] /\
   last_unknown_saved_time r.1.1 =
     <[camera_id := now io1]> (last_unknown_saved_time st) /\
   r.2 = (if save_ok io1 then Some (crop_filename camera_id Unknown ts1)
          else None)) /\
  (unknown_due cfg camera_id (now io1) st = false ->
   r = (st, [], None)) /\
  (unknown_due cfg camera_id (now io1) st = true ->
   let r2 := two_unknown cfg camera_id ts1 io1 ts2 io2 st in
   ((I < now io2 - now io1)%Q ->
    length (evidence_attempts r2.2) = 2%nat /\
    last_unknown_saved_time r2.1 !! camera_id = Some (now io2)) /\
   ((now io2 - now io1 <= I)%Q ->
    length (evidence_attempts r2.2) = 1%nat /\
    last_unknown_saved_time r2.1 !! camera_id = Some (now io1))).
Proof.
  cbv zeta.
  assert (Hstep : forall ts io0 st0,
    unknown_due cfg camera_id (now io0) st0 = true ->
    handle_unknown_face cfg ts camera_id io0 st0 =
      (set_last_unknown_saved_time (insert camera_id (now io0)) st0,
       [SaveCrop (save_unknown_dir (parameters cfg))
                 (crop_filename camera_id Unknown ts) (save_ok io0)],
       if save_ok io0 then Some (crop_filename camera_id Unknown ts)
       else None)).
  { intros ts io0 st0 Hdue. unfold handle_unknown_face. cbv zeta.
    now rewrite Hdue. }
  assert (Hskip : forall ts io0 st0,
    unknown_due cfg camera_id (now io0) st0 = false ->
    handle_unknown_face cfg ts camera_id io0 st0 = (st0, [], None)).
  { intros ts io0 st0 Hdue. unfold handle_unknown_face. cbv zeta.
    now rewrite Hdue. }
  split; [|split; [|split; [|]]].
  - unfold unknown_due.
    destruct (last_unknown_saved_time st !! camera_id) as [last|].
    + destruct (Qlt_le_dec _ _) as [Hlt|Hle]; split.
      * intros _. right. now exists last.
      * reflexivity.
      * discriminate.
      * intros [Hnone | (last' & Heq & Hlt)]; [discriminate|].
        injection Heq as <-. lra.
    + split; [now left | reflexivity].
  - intros Hdue. rewrite (Hstep ts1 io1 st Hdue). repeat split.
  - intros Hdue. exact (Hskip ts1 io1 st Hdue).
  - intros Hdue. unfold two_unknown. rewrite (Hstep ts1 io1 st Hdue).
    set (st1 := set_last_unknown_saved_time (insert camera_id (now io1)) st).
    assert (Hlast : last_unknown_saved_time st1 !! camera_id = Some (now io1))
      by (unfold st1; simpl; apply lookup_insert_eq).
    split; intros Hgap.
    + assert (Hdue2 : unknown_due cfg camera_id (now io2) st1 = true).
      { unfold unknown_due. rewrite Hlast.
        destruct (Qlt_le_dec _ _); [reflexivity | lra]. }
      rewrite (Hstep ts2 io2 st1 Hdue2). simpl.
      split; [reflexivity | apply lookup_insert_eq].
    + assert (Hdue2 : unknown_due cfg camera_id (now io2) st1 = false).
      { unfold unknown_due. rewrite Hlast.
        destruct (Qlt_le_dec _ _); [lra | reflexivity]. }
      rewrite (Hskip ts2 io2 st1 Hdue2). simpl.
      split; [reflexivity | exact Hlast].
Qed.

(** C2 as stated fails at a separation of exactly the interval: with an
    interval of 60 seconds, detections at 1000 and 1060 on one camera
    give one evidence write, not two. *)
Lemma unknown_at_interval_single_write :
  let r := two_unknown sample_config "C1" sample_ts (io_fine 1000)
                       sample_ts (io_fine 1060) init_state in
  (unknown_interval sample_parameters <= now (io_fine 1060) - now (io_fine 1000))%Q /\
  length (evidence_attempts r.2) = 1%nat /\
  last_unknown_saved_time r.1 !! "C1"%string = Some 1000%Q.
Proof. cbv zeta. split; [vm_compute; discriminate | split; reflexivity]. Qed.

(** Detections 61 seconds apart under an interval of 60: two writes. *)
Lemma unknown_cooldown_gate_witness :
  let r := two_unknown sample_config "C1" sample_ts (io_fine 1000)
                       sample_ts (io_fine 1061) init_state in
  length (evidence_attempts r.2) = 2%nat.
Proof.
  cbv zeta.
  destruct (unknown_cooldown_gate sample_config "C1" sample_ts sample_ts
              (io_fine 1000) (io_fine 1061) init_state)
    as (_ & _ & _ & Htwo).
  destruct (Htwo eq_refl) as (Hfar & _).
  apply Hfar. vm_compute; reflexivity.
Defined.

End Processor.

(** ** The violation emitter ([video_feed.py]) *)

Module Emitter.

Import Processor.

(** The module-level settings read from the environment. *)
Record Settings := {
  EMIT_VIOLATIONS : bool;
  VIOLATION_EMIT_INTERVAL : Q;
}.

(** [_last_violation_emit]: last emission time by [(camera_id, name)]. *)
Abbreviation Table := (gmap (string * string) Q).

(** [_last_violation_emit.get(key, 0.0)] *)
Definition last_emit (tbl : Table) (key : string * string) : Q :=
  default 0%Q (tbl !! key).

(** [_should_emit_violation] *)
Definition _should_emit_violation (cfg : Settings) (camera_id name : string)
    (now : Q) (tbl : Table) : bool * Table :=
  let key := (camera_id, name) in
  let last := last_emit tbl key in
  if Qlt_le_dec (now - last) (VIOLATION_EMIT_INTERVAL cfg) then (false, tbl)
  else (true, <[key := now]> tbl).

Definition is_digit (c : ascii) : bool :=
  (48 <=? nat_of_ascii c)%nat && (nat_of_ascii c <=? 57)%nat.

Fixpoint digits_value (acc : Z) (s : string) : option Z :=
  match s with
  | EmptyString => Some acc
  | String c rest =>
      if is_digit c
      then digits_value (10 * acc + (Z.of_nat (nat_of_ascii c) - 48)) rest
      else None
  end.

(** [_camera_id_to_int] on a string identifier: ["C" + digits] gives the
    number, anything else gives 1. *)
Definition _camera_id_to_int (camera_id : string) : Z :=
  match camera_id with
  | String "C" (String c rest) => default 1 (digits_value 0 (String c rest))
  | _ => 1
  end.

(** The body posted to [/api/violations/]. *)
Record Violation := {
  v_app_id : Z;
  v_camera_id : Z;
  v_details : Payload;
  v_image_path : string;
}.

(** How the [requests.post] ends: status 200, another status, or an
    exception (network error, timeout).  The last two are only logged. *)
Inductive PostOutcome := Accepted | Rejected | Unreachable.

Definition violation_of (data : Payload) : Violation :=
  {| v_app_id := 1; v_camera_id := _camera_id_to_int (p_camera_id data);
     v_details := data;
     v_image_path := default ""%string (if_truthy (p_image_filename data)) |}.

(** [_emit_violation]: the new table and the requests posted. *)
Definition _emit_violation (cfg : Settings) (data : Payload) (now : Q)
    (outcome : PostOutcome) (tbl : Table)
    : Table * list (Violation * PostOutcome) :=
  if negb (EMIT_VIOLATIONS cfg) then (tbl, [])
  else
    let '(go, tbl') :=
      _should_emit_violation cfg (p_camera_id data) (p_name data) now tbl in
    if go then (tbl', [(violation_of data, outcome)]) else (tbl', []).

(** One event as it reaches the emitter: the payload, the reading of
    [time.time()], and how the post will end. *)
Record Arrival := {
  a_data : Payload;
  a_now : Q;
  a_outcome : PostOutcome;
}.

Definition key_of (data : Payload) : string * string :=
  (p_camera_id data, p_name data).

(** The emitter called on each arrival in turn. *)
Fixpoint emit_all (cfg : Settings) (l : list Arrival) (tbl : Table)
    : Table * list (Violation * PostOutcome) :=
  match l with
  | [] => (tbl, [])
  | a :: rest =>
      let '(tbl1, sent1) :=
        _emit_violation cfg (a_data a) (a_now a) (a_outcome a) tbl in
      let '(tbl2, sent2) := emit_all cfg rest tbl1 in
      (tbl2, sent1 ++ sent2)
  end.

(** The arrivals, and the posted requests, of one key. *)
Definition arrivals_of (key : string * string) (l : list Arrival) : list Arrival :=
  filter (fun a => key_of (a_data a) = key) l.

Definition sent_of (key : string * string)
    (sent : list (Violation * PostOutcome)) : list (Violation * PostOutcome) :=
  filter (fun v => key_of (v_details v.1) = key) sent.

(** Every arrival comes less than the interval after [t0]. *)
Definition within (cfg : Settings) (t0 : Q) (l : list Arrival) : Prop :=
  Forall (fun a => (a_now a - t0 < VIOLATION_EMIT_INTERVAL cfg)%Q) l.

(** Each arrival comes at least the interval after the one before it,
    the first one after [prev]. *)
Fixpoint spaced (cfg : Settings) (prev : Q) (l : list Arrival) : Prop :=
  match l with
  | [] => True
  | a :: rest =>
      (VIOLATION_EMIT_INTERVAL cfg <= a_now a - prev)%Q /\
      spaced cfg (a_now a) rest
  end.

Lemma emit_drop cfg data now outcome tbl :
  EMIT_VIOLATIONS cfg = true ->
  (now - last_emit tbl (key_of data) < VIOLATION_EMIT_INTERVAL cfg)%Q ->
  _emit_violation cfg data now outcome tbl = (tbl, []).
Proof.
  intros He Hlt. unfold _emit_violation, _should_emit_violation. rewrite He.
  simpl. fold (key_of data).
  destruct (Qlt_le_dec _ _); [reflexivity | lra].
Qed.

Lemma emit_forward cfg data now outcome tbl :
  EMIT_VIOLATIONS cfg = true ->
  (VIOLATION_EMIT_INTERVAL cfg <= now - last_emit tbl (key_of data))%Q ->
  _emit_violation cfg data now outcome tbl =
    (<[key_of data := now]> tbl, [(violation_of data, outcome)]).
Proof.
  intros He Hle. unfold _emit_violation, _should_emit_violation. rewrite He.
  simpl. fold (key_of data).
  destruct (Qlt_le_dec _ _); [lra | reflexivity].
Qed.

(** An arrival of another key leaves the entry of [key] alone and posts
    nothing of [key]. *)
Lemma emit_other_key cfg data now outcome tbl key :
  key_of data <> key ->
  let r := _emit_violation cfg data now outcome tbl in
  r.1 !! key = tbl !! key /\ sent_of key r.2 = [].
Proof.
  intros Hne. unfold _emit_violation, _should_emit_violation. cbv zeta.
  destruct (negb (EMIT_VIOLATIONS cfg)); [now split|].
  fold (key_of data). destruct (Qlt_le_dec _ _); simpl; [now split|].
  split; [now apply lookup_insert_ne|].
  unfold sent_of. rewrite filter_cons. simpl. now rewrite decide_False.
Qed.

Lemma last_emit_lookup (tbl tbl' : Table) key :
  tbl' !! key = tbl !! key -> last_emit tbl' key = last_emit tbl key.
Proof. unfold last_emit. now intros ->. Qed.

(** After an emission at [t0], arrivals of the key within the window are
    all dropped, whatever arrives for other keys in between. *)
Lemma burst_dropped cfg key t0 l tbl :
  EMIT_VIOLATIONS cfg = true ->
  tbl !! key = Some t0 ->
  within cfg t0 (arrivals_of key l) ->
  let r := emit_all cfg l tbl in
  r.1 !! key = Some t0 /\ sent_of key r.2 = [].
Proof.
  intros He. revert tbl. induction l as [|a l IH]; intros tbl Ht Hw.
  - now split.
  - cbn [emit_all]. unfold arrivals_of in Hw. rewrite filter_cons in Hw.
    destruct (decide (key_of (a_data a) = key)) as [Hk|Hk].
    + apply Forall_cons in Hw as (Ha & Hw).
      rewrite emit_drop;
        [|assumption | unfold last_emit; rewrite Hk, Ht; exact Ha].
      destruct (IH tbl Ht Hw) as (H1 & H2).
      destruct (emit_all cfg l tbl) as [tbl2 sent2]; simpl in *.
      now split.
    + destruct (emit_other_key cfg (a_data a) (a_now a) (a_outcome a) tbl key Hk)
        as (H1 & H2).
      destruct (_emit_violation _ _ _ _ _) as [tbl1 sent1]; simpl in *.
      destruct (IH tbl1) as (H3 & H4); [now rewrite H1 | exact Hw|].
      destruct (emit_all cfg l tbl1) as [tbl2 sent2]; simpl in *.
      split; [exact H3|].
      unfold sent_of in *. now rewrite filter_app, H2, H4.
Qed.

(** Arrivals of the key spaced by at least the interval are all posted. *)
Lemma spaced_forwarded cfg key l tbl :
  EMIT_VIOLATIONS cfg = true ->
  spaced cfg (last_emit tbl key) (arrivals_of key l) ->
  let r := emit_all cfg l tbl in
  sent_of key r.2 =
    map (fun a => (violation_of (a_data a), a_outcome a)) (arrivals_of key l).
Proof.
  intros He. revert tbl. induction l as [|a l IH]; intros tbl Hs.
  - reflexivity.
  - cbn [emit_all]. unfold arrivals_of in *. rewrite filter_cons in *.
    destruct (decide (key_of (a_data a) = key)) as [Hk|Hk].
    + destruct Hs as (Ha & Hs).
      rewrite emit_forward; [|assumption | now rewrite Hk].
      specialize (IH (<[key_of (a_data a) := a_now a]> tbl)).
      cbv zeta in IH.
      destruct (emit_all cfg l _) as [tbl2 sent2]; simpl in *.
      unfold sent_of in *. rewrite filter_cons. simpl.
      rewrite decide_True by assumption. f_equal. apply IH.
      unfold last_emit. now rewrite Hk, lookup_insert_eq.
    + destruct (emit_other_key cfg (a_data a) (a_now a) (a_outcome a) tbl key Hk)
        as (H1 & H2).
      destruct (_emit_violation _ _ _ _ _) as [tbl1 sent1]; simpl in *.
      specialize (IH tbl1). cbv zeta in IH.
      destruct (emit_all cfg l tbl1) as [tbl2 sent2]; simpl in *.
      unfold sent_of in *. rewrite filter_app, H2. simpl. apply IH.
      now rewrite (last_emit_lookup tbl tbl1 key H1).
Qed.

(** C3.  With emission switched on, for every key [(camera_id, name)]
    and interval [W]: an event is dropped, with nothing posted and the
    table left as it is, exactly when the time since the recorded last
    emission of its key (0.0 for a key never emitted) is below [W];
    otherwise the current time is recorded for the key and the event is
    posted, and the table is updated whatever the outcome of the post.
    So after a posted event, the events of the same key that arrive
    within [W] of it are all dropped (one post for the whole burst), and
    events of one key spaced at least [W] apart are all posted; events
    of other keys arriving in between change neither. *)
Theorem emitter_throttle (cfg : Settings) (key : string * string) (tbl : Table) :
  EMIT_VIOLATIONS cfg = true ->
  let W := VIOLATION_EMIT_INTERVAL cfg in
  (forall now,
     ((_should_emit_violation cfg key.1 key.2 now tbl).1 = false <->
      (now - last_emit tbl key < W)%Q) /\
     ((_should_emit_violation cfg key.1 key.2 now tbl).1 = false ->
      (_should_emit_violation cfg key.1 key.2 now tbl).2 = tbl) /\
     ((_should_emit_violation cfg key.1 key.2 now tbl).1 = true ->
      (_should_emit_violation cfg key.1 key.2 now tbl).2 = <[key := now]> tbl)) /\
  (forall data now outcome, key_of data = key ->
     ((now - last_emit tbl key < W)%Q ->
      _emit_violation cfg data now outcome tbl = (tbl, [])) /\
     ((W <= now - last_emit tbl key)%Q ->
      _emit_violation cfg data now outcome tbl =
        (<[key := now]> tbl, [(violation_of data, outcome)]))) /\
  (forall first rest,
     key_of (a_data first) = key ->
     (W <= a_now first - last_emit tbl key)%Q ->
     within cfg (a_now first) (arrivals_of key rest) ->
     let r := emit_all cfg (first :: rest) tbl in
     sent_of key r.2 = [(violation_of (a_data first), a_outcome first)] /\
     r.1 !! key = Some (a_now first)) /\
  (forall l,
     spaced cfg (last_emit tbl key) (arrivals_of key l) ->
     sent_of key (emit_all cfg l tbl).2 =
       map (fun a => (violation_of (a_data a), a_outcome a))
           (arrivals_of key l)).
Proof.
  intros He W. subst W. split; [|split; [|split]].
  - intros now. destruct key as [camera_id name].
    unfold _should_emit_violation. cbv zeta. simpl.
    destruct (Qlt_le_dec _ _) as [Hlt|Hle]; simpl.
    + repeat split; auto; discriminate.
    + repeat split; auto; try discriminate. intros H; lra.
  - intros data now outcome <-. split; intros H.
    + now apply emit_drop.
    + now apply emit_forward.
  - intros first rest Hk Hfirst Hw. cbv zeta. cbn [emit_all].
    rewrite emit_forward; [|assumption | now rewrite Hk].
    destruct (burst_dropped cfg key (a_now first) rest
                (<[key_of (a_data first) := a_now first]> tbl) He)
      as (H1 & H2); [rewrite Hk; apply lookup_insert_eq | exact Hw |].
    destruct (emit_all cfg rest _) as [tbl2 sent2]; simpl in *.
    split; [|exact H1].
    unfold sent_of in *. rewrite filter_cons. simpl.
    rewrite decide_True by assumption. now rewrite H2.
  - intros l Hs. now apply spaced_forwarded.
Qed.

Definition sample_settings : Settings :=
  {| EMIT_VIOLATIONS := true; VIOLATION_EMIT_INTERVAL := 5 |}.

Definition alice_event : Payload :=
  {| p_camera_id := "C1"; p_type := "face_detection"; p_name := "Alice";
     p_confidence := 9 # 10; p_timestamp := sample_ts;
     p_bbox := Crop.box_of 600 300 700 420; p_image_filename := None;
     p_small_face := false |}.

Definition arrival_at (t : Q) (outcome : PostOutcome) : Arrival :=
  {| a_data := alice_event; a_now := t; a_outcome := outcome |}.

(** Four events of one key within 5 seconds, the first post failing. *)
Lemma emitter_throttle_witness :
  let r := emit_all sample_settings
             [arrival_at 100 Unreachable; arrival_at 101 Accepted;
              arrival_at 103 Accepted; arrival_at (1049 # 10) Accepted] ∅ in
  length (sent_of ("C1", "Alice")%string r.2) = 1%nat /\
  r.1 !! ("C1", "Alice")%string = Some 100%Q.
Proof.
  cbv zeta.
  destruct (emitter_throttle sample_settings ("C1", "Alice")%string ∅ eq_refl)
    as (_ & _ & Hburst & _).
  destruct (Hburst (arrival_at 100 Unreachable)
              [arrival_at 101 Accepted; arrival_at 103 Accepted;
               arrival_at (1049 # 10) Accepted]) as (H1 & H2).
  - reflexivity.
  - vm_compute; discriminate.
  - repeat constructor.
  - cbv zeta in H1, H2. rewrite H1. split; [reflexivity | exact H2].
Defined.

End Emitter.

(** ** The camera worker ([process_camera]) *)

Module Worker.

(** The keys of [parameters] that the loop reads. *)
Record Params := {
  reconnect_delay : Q;
  max_failures : Z;
  frame_skip : Z;
}.

(** [self.stream_resolution] *)
Definition stream_resolution : Z * Z := (1280, 720).

(** Lines 254-281: 1920x1080 is requested; when the source answers with
    anything else, 1280x720 is requested and the second answer is kept.
    The result is [self.capture_resolution]. *)
Definition negotiate (first_answer second_answer : Z * Z) : Z * Z :=
  if decide (first_answer = (1920, 1080)) then first_answer else second_answer.

(** Lines 348-353: the size a frame is resized to, if it is resized. *)
Definition resize_target (capture_resolution : Z * Z) : option (Z * Z) :=
  let '(cap_w, cap_h) := capture_resolution in
  let '(stream_w, stream_h) := stream_resolution in
  if (stream_w <? cap_w) || (stream_h <? cap_h)
  then Some (stream_w, stream_h) else None.

(** The size of the frame after the resize step. *)
Definition resized (capture_resolution frame : Z * Z) : Z * Z :=
  default frame (resize_target capture_resolution).

(** What the loop does that can be seen from outside. *)
Inductive Event :=
| Sleep (seconds : Q)
| Open
| Release
| Read (ret : bool)
| Resize (size : Z * Z)
| ProcessFrame (size : Z * Z)
| Publish.

(** The loop variables.  [cap] is [None] for no handle, [Some b] for a
    handle whose [isOpened()] is [b].  [clock] is the time spent
    sleeping so far: the model charges time to [time.sleep] only. *)
Record WState := {
  cap : option bool;
  fail_count : Z;
  frame_counter : Z;
  clock : Q;
}.

(** [self.running] at time [t], when [stop()] is called at [stop_at]. *)
Definition running (stop_at : option Q) (t : Q) : bool :=
  match stop_at with
  | None => true
  | Some s => if Qlt_le_dec t s then true else false
  end.

(** Lines 302-305: up to [n] sleeps of one second, the flag checked
    before each. *)
Fixpoint backoff (stop_at : option Q) (n : nat) (t : Q) : Q * list Event :=
  match n with
  | O => (t, [])
  | S n' =>
      if running stop_at t then
        let '(t', evs) := backoff stop_at n' (t + 1) in
        (t', Sleep 1 :: evs)
      else (t, [])
  end.

(** What one pass of the loop meets: the answer of [cap.read()], the
    size of the frame read, and whether a fresh [VideoCapture] opens. *)
Record Tick := {
  read_ret : bool;
  frame_size : Z * Z;
  open_ok : bool;
}.

Inductive Flow := Continue | Break.

Definition set_clock (t : Q) (w : WState) : WState :=
  {| cap := cap w; fail_count := fail_count w;
     frame_counter := frame_counter w; clock := t |}.

(** One pass of [while self.running] (lines 295-371). *)
Definition iteration (p : Params) (capture_resolution : Z * Z)
    (stop_at : option Q) (tick : Tick) (w : WState)
    : WState * list Event * Flow :=
  if negb (running stop_at (clock w)) then (w, [], Break)
  else
    match cap w with
    | None | Some false =>
        let '(t, evs) :=
          backoff stop_at (Z.to_nat (Py.int (reconnect_delay p))) (clock w) in
        if negb (running stop_at t) then (set_clock t w, evs, Break)
        else
          ({| cap := Some (open_ok tick); fail_count := fail_count w;
              frame_counter := frame_counter w; clock := t |},
           evs ++ [Open], Continue)
    | Some true =>
        if negb (read_ret tick) then
          let fails := fail_count w + 1 in
          if max_failures p <=? fails then
            ({| cap := None; fail_count := 0;
                frame_counter := frame_counter w;
                clock := clock w + (1 # 2) |},
             [Read false; Release; Sleep (1 # 2)], Continue)
          else
            ({| cap := cap w; fail_count := fails;
                frame_counter := frame_counter w;
                clock := clock w + (1 # 2) |},
             [Read false; Sleep (1 # 2)], Continue)
        else
          let counter := frame_counter w + 1 in
          let t := (clock w + (3 # 100))%Q in
          let w' := {| cap := cap w; fail_count := 0;
                       frame_counter := counter; clock := t |} in
          let resize :=
            match resize_target capture_resolution with
            | Some size => [Resize size]
            | None => []
            end in
          let size := resized capture_resolution (frame_size tick) in
          if frame_skip p =? 0 then
            (* [frame_counter % 0] raises; the handler sleeps a second *)
            if negb (running stop_at t)
            then (w', [Read true; Sleep (3 # 100)] ++ resize, Break)
            else (set_clock (t + 1) w',
                  [Read true; Sleep (3 # 100)] ++ resize ++ [Sleep 1],
                  Continue)
          else if negb (counter mod frame_skip p =? 0) then
            (w', [Read true; Sleep (3 # 100)] ++ resize, Continue)
          else
            (w', [Read true; Sleep (3 # 100)] ++ resize
                 ++ [ProcessFrame size; Publish], Continue)
    end.

(** The loop of [process_camera] over the ticks it meets, until it
    breaks. *)
Fixpoint process_camera (p : Params) (capture_resolution : Z * Z)
    (stop_at : option Q) (ticks : list Tick) (w : WState)
    : WState * list Event * Flow :=
  match ticks with
  | [] => (w, [], Continue)
  | tick :: rest =>
      match iteration p capture_resolution stop_at tick w with
      | (w1, evs1, Break) => (w1, evs1, Break)
      | (w1, evs1, Continue) =>
          let '(w2, evs2, flow) :=
            process_camera p capture_resolution stop_at rest w1 in
          (w2, evs1 ++ evs2, flow)
      end
  end.

(** A read that returns no frame. *)
Definition failed_read (tick : Tick) : Prop := read_ret tick = false.

Definition is_release (e : Event) : bool :=
  match e with Release => true | _ => false end.

Definition is_open (e : Event) : bool :=
  match e with Open => true | _ => false end.

(** The number of [cap.release()] calls, and of reopening attempts, in a
    trace. *)
Definition releases (evs : list Event) : nat :=
  length (List.filter is_release evs).

Definition opens (evs : list Event) : nat :=
  length (List.filter is_open evs).

(** The whole seconds of the configured delay: [int(reconnect_delay)]. *)
Definition delay_ticks (p : Params) : nat :=
  Z.to_nat (Py.int (reconnect_delay p)).

Lemma running_Qeq stop_at (a b : Q) :
  (a == b)%Q -> running stop_at a = running stop_at b.
Proof.
  intros H. unfold running. destruct stop_at as [s|]; [|reflexivity].
  destruct (Qlt_le_dec a s), (Qlt_le_dec b s); (reflexivity || lra).
Qed.

Lemma inject_succ (k : nat) :
  (inject_Z (Z.of_nat (S k)) == inject_Z (Z.of_nat k) + 1)%Q.
Proof.
  rewrite Nat2Z.inj_succ. unfold Z.succ. rewrite inject_Z_plus. reflexivity.
Qed.

(** The wait sleeps [k <= n] whole seconds; it sleeps all [n] unless it
    finds the flag cleared, and the flag was still set one second before
    its end. *)
Lemma backoff_trace stop_at n t :
  let r := backoff stop_at n t in
  exists k : nat,
    (k <= n)%nat /\ r.2 = replicate k (Sleep 1) /\
    (r.1 == t + inject_Z (Z.of_nat k))%Q /\
    (k = n \/ running stop_at r.1 = false) /\
    ((0 < k)%nat -> running stop_at (r.1 - 1) = true).
Proof.
  revert t. induction n as [|n IH]; intros t; cbn [backoff].
  - exists 0%nat. cbn [fst snd]. split; [lia|]. split; [reflexivity|].
    split; [change (inject_Z (Z.of_nat 0)) with 0%Q; lra|].
    split; [now left | lia].
  - destruct (running stop_at t) eqn:Hrun.
    + destruct (IH (t + 1)%Q) as (k & Hk & Hev & Ht & Hend & Hprev).
      destruct (backoff stop_at n (t + 1)) as [t' evs]; simpl in *.
      exists (S k). split; [lia|]. split; [now rewrite Hev|].
      split; [rewrite inject_succ; lra|].
      split; [destruct Hend; [left; lia | now right]|].
      intros _. destruct k as [|k]; [|apply Hprev; lia].
      rewrite <- Hrun. apply running_Qeq.
      change (inject_Z (Z.of_nat 0)) with 0%Q in Ht. lra.
    + exists 0%nat. cbn [fst snd]. split; [lia|]. split; [reflexivity|].
      split; [change (inject_Z (Z.of_nat 0)) with 0%Q; lra|].
      split; [now right | lia].
Qed.

Lemma filter_replicate_sleep k :
  List.filter is_open (replicate k (Sleep 1)) = [] /\
  List.filter is_release (replicate k (Sleep 1)) = [].
Proof. induction k as [|k (H1 & H2)]; simpl; auto. Qed.

(** A series of failed reads that stays below [max_failures]. *)
Lemma failed_reads_counted p res ticks w :
  cap w = Some true -> Forall failed_read ticks ->
  fail_count w + Z.of_nat (length ticks) < max_failures p ->
  let r := process_camera p res None ticks w in
  cap r.1.1 = Some true /\
  fail_count r.1.1 = fail_count w + Z.of_nat (length ticks) /\
  frame_counter r.1.1 = frame_counter w /\
  releases r.1.2 = 0%nat /\ r.2 = Continue.
Proof.
  revert w. induction ticks as [|tick ticks IH]; intros w Hcap Hall Hlt.
  - simpl. repeat split; auto. lia.
  - apply Forall_cons in Hall as (Hfail & Hall). unfold failed_read in Hfail.
    simpl length in Hlt. cbn [process_camera]. unfold iteration. simpl running.
    cbn [negb]. rewrite Hcap, Hfail. cbn [negb].
    destruct (Z.leb_spec (max_failures p) (fail_count w + 1)); [lia|].
    match goal with |- context [process_camera p res None ticks ?w1] =>
      destruct (IH w1) as (H1 & H2 & H3 & H4 & H5);
        [reflexivity | exact Hall | simpl; lia |];
      destruct (process_camera p res None ticks w1) as [[w2 evs2] flow]
    end.
    simpl in *. repeat split; auto. lia.
Qed.

(** The ticks of the wait are the configured delay rounded down to
    whole seconds; a delay below one second gives none. *)
Lemma delay_ticks_floor (p : Params) :
  ((0 <= reconnect_delay p)%Q ->
   (inject_Z (Z.of_nat (delay_ticks p)) <= reconnect_delay p)%Q /\
   (reconnect_delay p < inject_Z (Z.of_nat (delay_ticks p)) + 1)%Q) /\
  ((reconnect_delay p < 1)%Q -> delay_ticks p = 0%nat).
Proof.
  unfold delay_ticks. split.
  - intros Hd. pose proof (Py.int_nonneg _ Hd) as Hnn.
    rewrite Z2Nat.id by assumption. rewrite Py.int_floor by assumption.
    split; [apply Qfloor_le|].
    pose proof (Qlt_floor (reconnect_delay p)) as Hlt.
    rewrite inject_Z_plus in Hlt. exact Hlt.
  - intros Hd. destruct (Qlt_le_dec (reconnect_delay p) 0) as [Hneg|Hpos].
    + assert (Py.int (reconnect_delay p) <= 0)
        by (apply Py.int_le_Z; change (inject_Z 0) with 0%Q; lra).
      lia.
    + rewrite Py.int_floor by assumption.
      assert (Qfloor (reconnect_delay p) <= 0).
      { assert (Hlt : Qfloor (reconnect_delay p) < 1).
        { rewrite Zlt_Qlt. change (inject_Z 1) with 1%Q.
          pose proof (Qfloor_le (reconnect_delay p)). lra. }
        lia. }
      lia.
Qed.

(** C8 (as amended).  With [max_failures >= 1] and no stop request: a
    worker with an open handle and a failure counter of 0 that meets
    [max_failures] failed reads in a row keeps the handle through the
    first [max_failures - 1] of them and, on the last, releases it, drops
    it and resets the counter; the next pass sleeps
    [int(reconnect_delay)] times one second, which is the configured
    delay rounded down to whole seconds (the delay itself when it is a
    whole number, nothing when it is below one second), and then opens
    the source again.  With a stop request at time [s] during that wait,
    the pass checks the flag before each one-second sleep, so it leaves
    the loop without opening the source, at a time in [[s, s + 1)]: less
    than one tick after the request. *)
Theorem reconnect_backoff (p : Params) (res : Z * Z) :
  1 <= max_failures p ->
  (((0 <= reconnect_delay p)%Q ->
    (inject_Z (Z.of_nat (delay_ticks p)) <= reconnect_delay p)%Q /\
    (reconnect_delay p < inject_Z (Z.of_nat (delay_ticks p)) + 1)%Q) /\
   ((reconnect_delay p < 1)%Q -> delay_ticks p = 0%nat)) /\
  (forall w ticks tick,
     cap w = Some true -> fail_count w = 0 ->
     Forall failed_read (ticks ++ [tick]) ->
     Z.of_nat (length (ticks ++ [tick])) = max_failures p ->
     let r0 := process_camera p res None ticks w in
     let r := iteration p res None tick r0.1.1 in
     (cap r0.1.1 = Some true /\ fail_count r0.1.1 = max_failures p - 1 /\
      releases r0.1.2 = 0%nat /\ r0.2 = Continue) /\
     (r.1.2 = [Read false; Release; Sleep (1 # 2)] /\
      cap r.1.1 = None /\ fail_count r.1.1 = 0 /\ r.2 = Continue)) /\
  (forall w tick,
     cap w = None ->
     let r := iteration p res None tick w in
     r.1.2 = replicate (delay_ticks p) (Sleep 1) ++ [Open] /\
     cap r.1.1 = Some (open_ok tick) /\ fail_count r.1.1 = fail_count w /\
     (clock r.1.1 == clock w + inject_Z (Z.of_nat (delay_ticks p)))%Q /\
     (forall n, 0 <= n -> reconnect_delay p = inject_Z n ->
                (clock r.1.1 == clock w + reconnect_delay p)%Q) /\
     r.2 = Continue) /\
  (forall w tick s,
     cap w = None -> (clock w < s)%Q ->
     let r := iteration p res (Some s) tick w in
     ((s <= clock w + inject_Z (Z.of_nat (delay_ticks p)))%Q ->
      r.2 = Break /\ opens r.1.2 = 0%nat /\ cap r.1.1 = None /\
      (exists k, (k <= delay_ticks p)%nat /\ r.1.2 = replicate k (Sleep 1)) /\
      (s <= clock r.1.1)%Q /\ (clock r.1.1 < s + 1)%Q) /\
     ((clock w + inject_Z (Z.of_nat (delay_ticks p)) < s)%Q ->
      r.2 = Continue /\
      r.1.2 = replicate (delay_ticks p) (Sleep 1) ++ [Open] /\
      (clock r.1.1 == clock w + inject_Z (Z.of_nat (delay_ticks p)))%Q)).
Proof.
  intros Hmax. split; [apply delay_ticks_floor|]. split; [|split].
  - intros w ticks tick Hcap Hzero Hall Hlen. cbv zeta.
    apply Forall_app in Hall as (Hall & Hlast).
    apply Forall_cons in Hlast as (Hlast & _). unfold failed_read in Hlast.
    rewrite length_app in Hlen. simpl in Hlen.
    destruct (failed_reads_counted p res ticks w Hcap Hall)
      as (H1 & H2 & _ & H4 & H5); [lia|].
    destruct (process_camera p res None ticks w) as [[w0 evs0] flow0];
      simpl in *.
    split; [repeat split; auto; lia|].
    unfold iteration. simpl running. cbn [negb]. rewrite H1, Hlast.
    cbn [negb].
    destruct (Z.leb_spec (max_failures p) (fail_count w0 + 1)); [|lia].
    simpl. repeat split.
  - intros w tick Hcap. cbv zeta. unfold iteration. simpl running.
    cbn [negb]. rewrite Hcap. fold (delay_ticks p).
    destruct (backoff_trace None (delay_ticks p) (clock w))
      as (k & Hk & Hev & Ht & [Hend|Hend] & _); [|discriminate].
    destruct (backoff None (delay_ticks p) (clock w)) as [t evs].
    simpl in *. subst k. rewrite Hev.
    do 3 (split; [reflexivity|]). split; [exact Ht|].
    split; [|reflexivity].
    intros n Hn Hd. rewrite Ht. unfold delay_ticks.
    rewrite Hd, Py.int_of_Z, Z2Nat.id by lia. reflexivity.
  - intros w tick s Hcap Hrun. cbv zeta. unfold iteration.
    assert (Hrunning : running (Some s) (clock w) = true).
    { simpl. destruct (Qlt_le_dec (clock w) s); [reflexivity | lra]. }
    rewrite Hrunning. cbn [negb]. rewrite Hcap. fold (delay_ticks p).
    destruct (backoff_trace (Some s) (delay_ticks p) (clock w))
      as (k & Hk & Hev & Ht & Hend & Hprev).
    destruct (backoff (Some s) (delay_ticks p) (clock w)) as [t evs].
    cbn [fst snd] in *.
    split; intros Hs.
    + (* the request falls inside the wait *)
      assert (Hstopped : running (Some s) t = false).
      { destruct Hend as [->|Hend]; [|exact Hend].
        simpl. destruct (Qlt_le_dec t s); [lra | reflexivity]. }
      rewrite Hstopped. simpl.
      assert (Hafter : (s <= t)%Q).
      { simpl in Hstopped. destruct (Qlt_le_dec t s); [discriminate|assumption]. }
      assert (Hk0 : (0 < k)%nat).
      { destruct k; [|lia].
        change (inject_Z (Z.of_nat 0)) with 0%Q in Ht. lra. }
      specialize (Hprev Hk0). simpl in Hprev.
      destruct (Qlt_le_dec (t - 1) s); [|discriminate].
      repeat split; auto; try lra.
      * unfold opens. rewrite Hev.
        now rewrite (proj1 (filter_replicate_sleep k)).
      * now exists k.
    + (* the wait ends before the request *)
      assert (Hall : k = delay_ticks p).
      { destruct Hend as [->|Hend]; [reflexivity|].
        simpl in Hend. destruct (Qlt_le_dec t s); [discriminate|].
        assert (inject_Z (Z.of_nat k) <= inject_Z (Z.of_nat (delay_ticks p)))%Q.
        { rewrite <- Zle_Qle. lia. }
        lra. }
      subst k.
      assert (Hgo : running (Some s) t = true).
      { simpl. destruct (Qlt_le_dec t s); [reflexivity | lra]. }
      rewrite Hgo. simpl. rewrite Hev. repeat split. exact Ht.
Qed.

Definition sample_params : Params :=
  {| reconnect_delay := 5; max_failures := 3; frame_skip := 2 |}.

Definition failed_tick : Tick :=
  {| read_ret := false; frame_size := (0, 0); open_ok := true |}.

Definition frame_tick (size : Z * Z) : Tick :=
  {| read_ret := true; frame_size := size; open_ok := true |}.

Definition opened : WState :=
  {| cap := Some true; fail_count := 0; frame_counter := 0; clock := 0 |}.

(** Three failed reads under [max_failures = 3]: the third releases. *)
Lemma reconnect_backoff_witness :
  1 <= max_failures sample_params /\
  (iteration sample_params (1920, 1080) None failed_tick
     (process_camera sample_params (1920, 1080) None [failed_tick; failed_tick]
          opened).1.1).1.2
  = [Read false; Release; Sleep (1 # 2)].
Proof.
  assert (H : 1 <= max_failures sample_params) by (simpl; lia).
  split; [exact H|].
  destruct (reconnect_backoff sample_params (1920, 1080) H)
    as (_ & Hrel & _).
  destruct (Hrel opened [failed_tick; failed_tick] failed_tick) as (_ & Hlast).
  - reflexivity.
  - reflexivity.
  - repeat constructor.
  - reflexivity.
  - exact (proj1 Hlast).
Defined.

(** C8 as stated fails for a delay that is not a whole number of
    seconds: under a reconnect delay of 2.9 seconds the pass sleeps two
    seconds and opens the source 0.9 seconds before the configured
    delay has passed, and under 0.5 seconds it opens at once. *)
Lemma reopen_before_fractional_delay :
  let p := {| reconnect_delay := 29 # 10; max_failures := 3;
              frame_skip := 2 |} in
  let p' := {| reconnect_delay := 1 # 2; max_failures := 3;
               frame_skip := 2 |} in
  let w := {| cap := None; fail_count := 0; frame_counter := 0;
              clock := 0 |} in
  let r := iteration p (1920, 1080) None failed_tick w in
  r.1.2 = [Sleep 1; Sleep 1; Open] /\
  (clock r.1.1 == 2)%Q /\
  (clock r.1.1 < clock w + reconnect_delay p)%Q /\
  (iteration p' (1920, 1080) None failed_tick w).1.2 = [Open].
Proof. cbv zeta. repeat split. Qed.

(** After the release, the next pass waits five seconds and reopens. *)
Example reopen_after_five_seconds :
  (process_camera sample_params (1920, 1080) None
       [failed_tick; failed_tick; failed_tick; failed_tick] opened).1.2
  = [Read false; Sleep (1 # 2); Read false; Sleep (1 # 2);
     Read false; Release; Sleep (1 # 2);
     Sleep 1; Sleep 1; Sleep 1; Sleep 1; Sleep 1; Open].
Proof. reflexivity. Qed.

(** *** The resize step *)

(** The resize step is taken only when the capture exceeds the stream
    resolution in some dimension, and it never enlarges a frame whose
    capture is at least 1280 by 720 in both. *)
Lemma resize_target_cases (capture_resolution : Z * Z) :
  (resize_target capture_resolution = None <->
   capture_resolution.1 <= 1280 /\ capture_resolution.2 <= 720) /\
  (1280 <= capture_resolution.1 -> 720 <= capture_resolution.2 ->
   (resized capture_resolution capture_resolution).1 <= capture_resolution.1 /\
   (resized capture_resolution capture_resolution).2 <= capture_resolution.2).
Proof.
  destruct capture_resolution as [cap_w cap_h]. unfold resized, resize_target.
  simpl.
  destruct (Z.ltb_spec 1280 cap_w), (Z.ltb_spec 720 cap_h); simpl;
    (split; [split; [try discriminate; intros; lia | intros; try reflexivity; lia]
            | intros; lia]).
Qed.

(** C9 fails on the code: a source that captures 1024 by 768 is above
    the stream resolution in height only, and every frame of it is
    resized to 1280 by 720, wider than it was captured. *)
Theorem resize_enlarges_1024x768 :
  let capture_resolution := negotiate (1024, 768) (1024, 768) in
  let r := iteration sample_params capture_resolution None
                     (frame_tick (1024, 768))
                     {| cap := Some true; fail_count := 0;
                        frame_counter := 1; clock := 0 |} in
  capture_resolution = (1024, 768) /\
  resize_target capture_resolution = Some (1280, 720) /\
  r.1.2 = [Read true; Sleep (3 # 100); Resize (1280, 720);
           ProcessFrame (1280, 720); Publish] /\
  capture_resolution.1 < (resized capture_resolution (1024, 768)).1.
Proof. cbv zeta. repeat split. Qed.

End Worker.

(** ** More on the processor: statistics, events, the size gate *)

Module ProcessorFacts.

Import Matcher Processor.

(** The statistics follow the tables: [attendance_today] counts the
    labels of the attendance log, and no more known and unknown faces
    are counted than detections. *)
Definition StatsInv (st : State) : Prop :=
  attendance_today (stats st) = Z.of_nat (size (attendance_log st)) /\
  known_faces (stats st) + unknown_faces (stats st)
    <= total_detections (stats st).

Lemma handle_known_face_stats cfg name ts camera_id io st :
  let st' := (handle_known_face cfg name ts camera_id io st).1.1 in
  attendance_today (stats st') - Z.of_nat (size (attendance_log st')) =
  attendance_today (stats st) - Z.of_nat (size (attendance_log st)) /\
  known_faces (stats st') = known_faces (stats st) /\
  unknown_faces (stats st') = unknown_faces (stats st) /\
  total_detections (stats st') = total_detections (stats st).
Proof.
  cbv zeta. unfold handle_known_face.
  destruct (attendance_log st !! name) as [old|] eqn:Hlog; [now repeat split|].
  destruct (required_confirmations (parameters cfg) <=? count st name + 1);
    [|now repeat split].
  unfold save_face_crop. cbv zeta.
  assert (Hsize : Z.of_nat (size (<[name := ts]> (attendance_log st))) =
                  Z.of_nat (size (attendance_log st)) + 1).
  { rewrite map_size_insert_None by assumption. lia. }
  destruct (on_attendance cfg); simpl; rewrite Hsize; repeat split; lia.
Qed.

Lemma handle_unknown_face_stats cfg ts camera_id io st :
  let st' := (handle_unknown_face cfg ts camera_id io st).1.1 in
  stats st' = stats st /\ attendance_log st' = attendance_log st.
Proof.
  cbv zeta. unfold handle_unknown_face, save_face_crop. cbv zeta.
  now destruct (unknown_due cfg camera_id (now io) st).
Qed.

Lemma dispatch_stats cfg camera_id ts box name dist io st :
  StatsInv st ->
  StatsInv (dispatch cfg camera_id ts box name dist io st).1.1.
Proof.
  intros (Ha & Hk). unfold dispatch. cbv zeta.
  set (st0 := set_stats incr_total_detections st).
  destruct (negb (name =? Unknown)%string).
  - pose proof (handle_known_face_stats cfg name ts camera_id io st0)
      as (H1 & H2 & H3 & H4). cbv zeta in *.
    destruct (handle_known_face cfg name ts camera_id io st0)
      as [[st1 effs] [saved|]]; subst st0; simpl in *;
      unfold StatsInv; simpl; split; lia.
  - pose proof (handle_unknown_face_stats cfg ts camera_id io st0)
      as (H1 & H2). cbv zeta in *.
    destruct (handle_unknown_face cfg ts camera_id io st0)
      as [[st1 effs] saved]; subst st0; simpl in *.
    unfold StatsInv. simpl. rewrite H1, H2. simpl. split; lia.
Qed.

Lemma process_box_stats cosine_distance cfg camera_id img_w img_h ts b st :
  StatsInv st ->
  StatsInv (process_box cosine_distance cfg camera_id img_w img_h ts b st).1.1.
Proof.
  intros HI. unfold process_box.
  destruct (Crop.crop_shape img_w img_h (box b)) as [rows cols].
  destruct ((rows <? min_face cfg) || (cols <? min_face cfg)); [exact HI|].
  destruct (match_face _ _ _ _) as [name dist].
  pose proof (dispatch_stats cfg camera_id ts (box b) name dist (io b) st HI).
  now destruct (dispatch cfg camera_id ts (box b) name dist (io b) st)
    as [[st1 effs] out].
Qed.

Lemma process_boxes_stats cosine_distance cfg camera_id img_w img_h ts boxes st :
  StatsInv st ->
  StatsInv
    (process_boxes cosine_distance cfg camera_id img_w img_h ts boxes st).1.
Proof.
  revert st. induction boxes as [|b rest IH]; intros st HI; simpl; [exact HI|].
  pose proof (process_box_stats cosine_distance cfg camera_id img_w img_h
                                ts b st HI) as Hb.
  destruct (process_box cosine_distance cfg camera_id img_w img_h ts b st)
    as [[st1 effs] [u|]]; simpl in *; [|exact Hb].
  specialize (IH st1 Hb).
  now destruct (process_boxes cosine_distance cfg camera_id img_w img_h ts
                              rest st1).
Qed.

Lemma step_stats cfg st st' : StatsInv st -> step cfg st st' -> StatsInv st'.
Proof.
  intros HI Hs.
  destruct Hs as [name ts camera_id io0 st0 | ts camera_id io0 st0
         | camera_id ts box0 name dist io0 st0
         | cosd camera_id img_w img_h ts b st0
         | cosd camera_id img_w img_h ts [boxes|] st0].
  - destruct HI as (Ha & Hk).
    pose proof (handle_known_face_stats cfg name ts camera_id io0 st0)
      as (H1 & H2 & H3 & H4). cbv zeta in *. unfold StatsInv. split; lia.
  - pose proof (handle_unknown_face_stats cfg ts camera_id io0 st0)
      as (H1 & H2). cbv zeta in *. unfold StatsInv. now rewrite H1, H2.
  - now apply dispatch_stats.
  - now apply process_box_stats.
  - now apply process_boxes_stats.
  - exact HI.
Qed.

(** X1.  In every state the processor can reach from the one [__init__]
    leaves, the statistic [attendance_today] is the number of labels in
    the attendance log, and the known and unknown faces counted add up
    to no more than the detections counted. *)
Theorem stats_follow_tables (cfg : Config) :
  StatsInv init_state /\
  (forall st st', StatsInv st -> step cfg st st' -> StatsInv st') /\
  (forall st, rtc (step cfg) init_state st ->
     attendance_today (stats st) = Z.of_nat (size (attendance_log st)) /\
     known_faces (stats st) + unknown_faces (stats st)
       <= total_detections (stats st)).
Proof.
  assert (H0 : StatsInv init_state).
  { split; simpl; [|lia]. now rewrite map_size_empty. }
  split; [exact H0|]. split; [apply step_stats|].
  intros st Hreach. change (StatsInv st). pattern st. revert st Hreach.
  apply rtc_ind_r; [exact H0|].
  intros mid st _ Hlast IH. exact (step_stats cfg mid st IH Hlast).
Qed.

(** *** The events of one box *)

(** What [match_face] can answer: a label other than "Unknown" is a
    gallery label at a distance below the threshold. *)
Lemma match_face_answer cosine_distance threshold db embedding :
  let r := match_face cosine_distance threshold db embedding in
  r.1 <> Unknown -> r.1 ∈ db_labels db /\ (r.2 < threshold)%Q.
Proof.
  cbv zeta. unfold match_face.
  repeat (case_match; simpl; try congruence).
  intros _. split; [|assumption].
  eapply list_elem_of_lookup_2; eauto.
Qed.

(** When nothing can be compared, the answer is "Unknown" at 1.0. *)
Lemma match_face_fallback cosine_distance threshold db embedding :
  embedding = None \/ db = [] \/
  (exists e, embedding = Some e /\ compatible e db = false) ->
  match_face cosine_distance threshold db embedding = (Unknown, 1%Q).
Proof.
  intros [-> | [-> | (e & -> & Hc)]]; [reflexivity| |].
  - now destruct embedding.
  - unfold match_face, cosine_distances. rewrite Hc. now destruct db.
Qed.

Lemma handle_known_face_no_event cfg name ts camera_id io st :
  detection_events (handle_known_face cfg name ts camera_id io st).1.2 = [].
Proof.
  unfold handle_known_face, save_face_crop, log_attendance. cbv zeta.
  destruct (attendance_log st !! name); [reflexivity|].
  destruct (_ <=? _); [|reflexivity].
  now destruct (on_attendance cfg).
Qed.

Lemma handle_unknown_face_no_event cfg ts camera_id io st :
  detection_events (handle_unknown_face cfg ts camera_id io st).1.2 = [] /\
  ledger_attempts (handle_unknown_face cfg ts camera_id io st).1.2 = [].
Proof.
  unfold handle_unknown_face, save_face_crop. cbv zeta.
  now destruct (unknown_due cfg camera_id (now io) st).
Qed.

(** X2.  Handling one box hands [on_violation] at most one event, and
    an event it hands over is of the camera and the box at hand and is
    either an "Unknown" event with confidence 0, or an event for a
    gallery label whose confidence is [1.0 - dist] for the distance
    [dist] the matcher answered, which is below the threshold. *)
Theorem box_event_shape
    (cosine_distance : Embedding -> Embedding -> Q) (cfg : Config)
    (camera_id : string) (img_w img_h : Z) (ts : Timestamp) (b : BoxInput)
    (st : State) :
  let r := process_box cosine_distance cfg camera_id img_w img_h ts b st in
  let dist := (match_face cosine_distance (threshold (parameters cfg))
                          (db cfg) (embedding b)).2 in
  (length (detection_events r.1.2) <= 1)%nat /\
  (forall payload, payload ∈ detection_events r.1.2 ->
     p_camera_id payload = camera_id /\ p_bbox payload = box b /\
     p_type payload = "face_detection"%string /\
     ((p_name payload = Unknown /\ p_confidence payload = 0%Q) \/
      (p_name payload <> Unknown /\
       p_name payload ∈ db_labels (db cfg) /\
       p_small_face payload = false /\ p_timestamp payload = ts /\
       p_confidence payload = (1 - dist)%Q /\
       (dist < threshold (parameters cfg))%Q))).
Proof.
  cbv zeta. unfold process_box.
  destruct (Crop.crop_shape img_w img_h (box b)) as [rows cols].
  destruct ((rows <? min_face cfg) || (cols <? min_face cfg)).
  - cbn [fst snd]. destruct (on_violation cfg); simpl; (split; [lia|]);
      intros payload Hin; [|now apply elem_of_nil in Hin].
    apply list_elem_of_singleton in Hin as ->. simpl. repeat split. now left.
  - pose proof (match_face_answer cosine_distance (threshold (parameters cfg))
                  (db cfg) (embedding b)) as Hans. cbv zeta in Hans.
    destruct (match_face _ _ _ _) as [name dist]. simpl in Hans.
    unfold dispatch. cbv zeta.
    set (st0 := set_stats incr_total_detections st).
    destruct (String.eqb_spec name Unknown) as [->|Hne]; cbn [negb].
    + pose proof (handle_unknown_face_no_event cfg ts camera_id (io b) st0)
        as (He & _).
      destruct (handle_unknown_face cfg ts camera_id (io b) st0)
        as [[st1 effs] saved]. cbn [fst snd] in *.
      change (detection_events
                (GetEmbedding rows cols :: MatchFace (embedding b) :: ?l))
        with (detection_events l).
      unfold detection_events in *. rewrite omap_app, He.
      destruct (on_violation cfg); simpl; (split; [lia|]);
        intros payload Hin; [|now apply elem_of_nil in Hin].
      apply list_elem_of_singleton in Hin as ->. simpl. repeat split. now left.
    + destruct (Hans Hne) as (Hlab & Hlt).
      pose proof (handle_known_face_no_event cfg name ts camera_id (io b) st0)
        as He.
      destruct (handle_known_face cfg name ts camera_id (io b) st0)
        as [[st1 effs] [saved|]]; cbn [fst snd] in *;
        change (detection_events
                  (GetEmbedding rows cols :: MatchFace (embedding b) :: ?l))
          with (detection_events l).
      * unfold detection_events in *. rewrite omap_app, He.
        destruct (on_violation cfg); simpl; (split; [lia|]);
          intros payload Hin; [|now apply elem_of_nil in Hin].
        apply list_elem_of_singleton in Hin as ->. simpl.
        repeat split. right. repeat split; auto.
      * rewrite He. simpl. split; [lia|].
        intros payload Hin. now apply elem_of_nil in Hin.
Qed.

(** X3.  With a detection callback installed, a box that passes the size
    gate and that the matcher calls "Unknown" (no gallery vector under
    the threshold, an embedding that failed, an empty gallery or one of
    another dimension) leaves the attendance log and the counters alone,
    offers no ledger row, and sends exactly one event labelled "Unknown"
    with confidence 0; the event carries an evidence filename exactly
    when the camera's cooldown admitted the save and [save_face_crop]
    returned, that is, nothing in it raised ([save_ok]): also when
    [cv2.imwrite] returned [False] there and no file was written. *)
Theorem unknown_face_event
    (cosine_distance : Embedding -> Embedding -> Q) (cfg : Config)
    (camera_id : string) (img_w img_h : Z) (ts : Timestamp) (b : BoxInput)
    (st : State) :
  on_violation cfg = true ->
  (let shape := Crop.crop_shape img_w img_h (box b) in
   min_face cfg <= Z.min shape.1 shape.2) ->
  (match_face cosine_distance (threshold (parameters cfg)) (db cfg)
              (embedding b)).1 = Unknown ->
  let r := process_box cosine_distance cfg camera_id img_w img_h ts b st in
  let due := unknown_due cfg camera_id (now (io b)) st in
  r.2 = Returned tt /\
  attendance_log r.1.1 = attendance_log st /\
  confirmation_counts r.1.1 = confirmation_counts st /\
  ledger_attempts r.1.2 = [] /\
  evidence_attempts r.1.2 =
    (if due then [(save_unknown_dir (parameters cfg),
                   crop_filename camera_id Unknown ts)] else []) /\
  detection_events r.1.2 =
    [{| p_camera_id := camera_id; p_type := "face_detection";
        p_name := Unknown; p_confidence := 0; p_timestamp := ts;
        p_bbox := box b;
        p_image_filename :=
          (if due && save_ok (io b)
           then Some (crop_filename camera_id Unknown ts) else None);
        p_small_face := false |}].
Proof.
  intros Hv Hgate Hname. cbv zeta in *. unfold process_box.
  destruct (Crop.crop_shape img_w img_h (box b)) as [rows cols].
  cbn [fst snd] in Hgate.
  destruct (Z.ltb_spec rows (min_face cfg)), (Z.ltb_spec cols (min_face cfg));
    try lia. cbn [orb].
  destruct (match_face _ _ _ _) as [name dist]. cbn [fst] in Hname. subst name.
  unfold dispatch, handle_unknown_face, save_face_crop, save_ok. cbv zeta.
  rewrite Hv. cbn [String.eqb negb].
  change (unknown_due cfg camera_id (now (io b))
            (set_stats incr_total_detections st))
    with (unknown_due cfg camera_id (now (io b)) st).
  destruct (unknown_due cfg camera_id (now (io b)) st);
    [destruct (returned (save (io b)))|]; cbn;
    rewrite ?crop_filename_nonempty; repeat split.
Qed.

Definition stranger_box : BoxInput :=
  {| box := Crop.box_of 600 300 700 420; small_timestamp := sample_ts;
     embedding := None; io := io_fine 1000 |}.

(** A box whose embedding failed, on a camera with no earlier save. *)
Lemma unknown_face_event_witness :
  map p_image_filename
    (detection_events
       (process_box unit_cosine_distance sample_config "C1" 1280 720
                    sample_ts stranger_box init_state).1.2)
  = [Some "C1_Unknown_2024-05-01_09-30-00.jpg"%string].
Proof.
  destruct (unknown_face_event unit_cosine_distance sample_config "C1"
              1280 720 sample_ts stranger_box init_state)
    as (_ & _ & _ & _ & _ & H).
  - reflexivity.
  - vm_compute; discriminate.
  - reflexivity.
  - cbv zeta in H. rewrite H. reflexivity.
Defined.

(** *** Boxes that always pass the size gate *)

Lemma slice_len_inside (a b n : Z) :
  0 <= a -> a <= b -> b <= n -> Py.slice_len a b n = b - a.
Proof.
  intros Ha Hab Hbn. unfold Py.slice_len, Py.slice_bound.
  destruct (Z.ltb_spec a 0), (Z.ltb_spec b 0); lia.
Qed.

Lemma expansion_positive (a : Z) :
  exists ex eu ed, Crop.expansion a = (ex, eu, ed) /\
                   (0 <= ex)%Q /\ (0 <= eu)%Q /\ (0 <= ed)%Q.
Proof.
  unfold Crop.expansion. destruct (a <? 8000); [|destruct (a <? 25000)];
    eexists _, _, _; (split; [reflexivity|]); repeat split; lra.
Qed.

(** X4.  The size gate looks at the expanded crop, which is never
    smaller than the box: for a box inside the frame, the crop has at
    least the rows and columns of the box and at most those of the
    frame, so a box whose two sides are at least the minimum face size
    always goes on to [get_embedding]. *)
Theorem large_box_passes_gate
    (cosine_distance : Embedding -> Embedding -> Q) (cfg : Config)
    (camera_id : string) (img_w img_h : Z) (ts : Timestamp) (b : BoxInput)
    (st : State) :
  let c := Crop.corners (box b) in
  let shape := Crop.crop_shape img_w img_h (box b) in
  Crop.inside img_w img_h c ->
  (Crop.height c <= shape.1 <= img_h /\ Crop.width c <= shape.2 <= img_w) /\
  (min_face cfg <= Crop.width c -> min_face cfg <= Crop.height c ->
   exists rest,
     (process_box cosine_distance cfg camera_id img_w img_h ts b st).1.2 =
     GetEmbedding shape.1 shape.2 :: MatchFace (embedding b) :: rest).
Proof.
  intros c shape Hin.
  assert (Hshape : (Crop.height c <= shape.1 <= img_h) /\
                   (Crop.width c <= shape.2 <= img_w)).
  { subst shape. unfold Crop.crop_shape, Crop.crop_face_with_buffer.
    fold c. destruct (expansion_positive (Crop.area c))
      as (ex & eu & ed & -> & Hx & Hu & Hd).
    pose proof (Crop.expand_within_frame img_w img_h c ex eu ed)
      as (W1 & W2 & W3 & W4).
    pose proof (Crop.expand_contains img_w img_h c ex eu ed Hx Hu Hd Hin)
      as (C1 & C2 & C3 & C4).
    destruct Hin as (I1 & I2 & I3 & I4 & I5 & I6).
    cbn [fst snd]. rewrite !slice_len_inside by lia.
    unfold Crop.height, Crop.width. lia. }
  split; [exact Hshape|]. intros Hw Hh.
  unfold process_box. fold shape. destruct shape as [rows cols].
  cbn [fst snd] in *.
  destruct (Z.ltb_spec rows (min_face cfg)), (Z.ltb_spec cols (min_face cfg));
    try lia. cbn [orb].
  destruct (match_face _ _ _ _) as [name dist].
  destruct (dispatch _ _ _ _ _ _ _ _) as [[st1 effs] out]. now exists effs.
Qed.

(** The sample box, 100 by 120, under a minimum of 80. *)
Lemma large_box_passes_gate_witness :
  exists rest,
    (process_box unit_cosine_distance sample_config "C1" 1280 720 sample_ts
                 alice_box init_state).1.2 =
    GetEmbedding 174 130 :: MatchFace (embedding alice_box) :: rest.
Proof.
  destruct (large_box_passes_gate unit_cosine_distance sample_config "C1"
              1280 720 sample_ts alice_box init_state) as (_ & H).
  - vm_compute. repeat split; discriminate.
  - apply H; vm_compute; discriminate.
Defined.

(** *** An attendance callback that raises *)

(** X5.  [handle_known_face] calls the attendance callback with nothing
    to catch what it raises.  When it raises on the confirming sighting,
    the label is already in the log and its ledger row and image already
    offered, but the exception leaves [process_frame]'s loop: no
    detection event is sent for that box and the boxes after it in the
    frame are not handled at all. *)
Theorem attendance_callback_raises
    (cosine_distance : Embedding -> Embedding -> Q) (cfg : Config)
    (camera_id : string) (img_w img_h : Z) (ts : Timestamp) (b : BoxInput)
    (rest : list BoxInput) (st : State) (name : string) (dist : Q) :
  (let shape := Crop.crop_shape img_w img_h (box b) in
   min_face cfg <= Z.min shape.1 shape.2) ->
  match_face cosine_distance (threshold (parameters cfg)) (db cfg)
             (embedding b) = (name, dist) ->
  name <> Unknown ->
  attendance_log st !! name = None ->
  required_confirmations (parameters cfg) <= count st name + 1 ->
  on_attendance cfg = true -> attendance_raises (io b) = true ->
  let r := process_boxes cosine_distance cfg camera_id img_w img_h ts
                         (b :: rest) st in
  r = process_boxes cosine_distance cfg camera_id img_w img_h ts [b] st /\
  attendance_log r.1 !! name = Some ts /\
  ledger_attempts r.2 = [[name; ts_date ts; ts_time ts; camera_id]] /\
  attendance_calls r.2 = [name] /\
  detection_events r.2 = [].
Proof.
  intros Hgate Hmatch Hne Hlog Hge Hon Hraise. cbv zeta in *.
  cbn [process_boxes].
  rewrite (process_box_dispatch cosine_distance cfg camera_id img_w img_h ts
             b st name dist Hgate Hmatch).
  cbv zeta. unfold dispatch, handle_known_face. cbv zeta.
  rewrite (known_flag name Hne). simpl attendance_log. rewrite Hlog.
  change (count (set_stats incr_total_detections st) name)
    with (count st name).
  destruct (Z.leb_spec (required_confirmations (parameters cfg))
                       (count st name + 1)); [|lia].
  unfold save_face_crop, log_attendance. cbv zeta. rewrite Hon, Hraise.
  cbn. rewrite lookup_insert_eq. repeat split.
Qed.

Definition raising_config : Config :=
  {| parameters := sample_parameters;
     db := [("Alice"%string, [1%Q; 0%Q])];
     on_violation := true; on_attendance := true |}.

Definition raising_box : BoxInput :=
  {| box := Crop.box_of 600 300 700 420; small_timestamp := sample_ts;
     embedding := Some [4 # 5; 3 # 5];
     io := {| ledger_ok := true; save := Written; attendance_raises := true;
              now := 0 |} |}.

(** The third sighting of "Alice", followed by a second box. *)
Lemma attendance_callback_raises_witness :
  let r := process_boxes unit_cosine_distance raising_config "C1" 1280 720
                         sample_ts [raising_box; alice_box] two_seen in
  attendance_log r.1 !! "Alice"%string = Some sample_ts /\
  detection_events r.2 = [].
Proof.
  cbv zeta.
  destruct (attendance_callback_raises unit_cosine_distance raising_config
              "C1" 1280 720 sample_ts raising_box [alice_box] two_seen
              "Alice" (1 - ((4 # 5) * 1 + ((3 # 5) * 0 + 0))))
    as (_ & H1 & _ & _ & H2).
  - vm_compute; discriminate.
  - reflexivity.
  - discriminate.
  - reflexivity.
  - vm_compute; discriminate.
  - reflexivity.
  - reflexivity.
  - split; [exact H1 | exact H2].
Defined.

(** *** The cooldown, camera by camera *)

(** One unknown-face detection. *)
Record UnknownSighting := {
  u_camera : string;
  u_ts : Timestamp;
  u_io : IO;
}.

(** [handle_unknown_face] on each detection in turn; for each, its camera
    and the evidence images it offered. *)
Fixpoint run_unknown (cfg : Config) (l : list UnknownSighting) (st : State)
    : State * list (string * list (string * string)) :=
  match l with
  | [] => (st, [])
  | u :: rest =>
      let '(st1, effs, _) :=
        handle_unknown_face cfg (u_ts u) (u_camera u) (u_io u) st in
      let '(st2, log) := run_unknown cfg rest st1 in
      (st2, (u_camera u, evidence_attempts effs) :: log)
  end.

Definition of_camera (camera_id : string) (l : list UnknownSighting)
    : list UnknownSighting :=
  filter (fun u => u_camera u = camera_id) l.

Lemma handle_unknown_face_local cfg ts camera_id io st st' :
  last_unknown_saved_time st' !! camera_id =
  last_unknown_saved_time st !! camera_id ->
  let r := handle_unknown_face cfg ts camera_id io st in
  let r' := handle_unknown_face cfg ts camera_id io st' in
  r'.1.2 = r.1.2 /\ r'.2 = r.2 /\
  last_unknown_saved_time r'.1.1 !! camera_id =
  last_unknown_saved_time r.1.1 !! camera_id.
Proof.
  intros Heq. cbv zeta. unfold handle_unknown_face, unknown_due.
  cbv zeta. rewrite Heq.
  destruct (last_unknown_saved_time st !! camera_id) as [last|] eqn:E.
  - destruct (Qlt_le_dec _ _); simpl; rewrite ?lookup_insert_eq, ?Heq, ?E;
      auto.
  - simpl. rewrite !lookup_insert_eq. auto.
Qed.

Lemma handle_unknown_face_other cfg ts camera_id io st other :
  camera_id <> other ->
  last_unknown_saved_time
    (handle_unknown_face cfg ts camera_id io st).1.1 !! other =
  last_unknown_saved_time st !! other.
Proof.
  intros Hne. unfold handle_unknown_face, save_face_crop. cbv zeta.
  destruct (unknown_due cfg camera_id (now io) st); simpl; [|reflexivity].
  now apply lookup_insert_ne.
Qed.

Lemma run_unknown_projection cfg camera_id l st st' :
  last_unknown_saved_time st' !! camera_id =
  last_unknown_saved_time st !! camera_id ->
  filter (fun entry => entry.1 = camera_id) (run_unknown cfg l st).2 =
  (run_unknown cfg (of_camera camera_id l) st').2.
Proof.
  revert st st'. induction l as [|u l IH]; intros st st' Heq; [reflexivity|].
  unfold of_camera. rewrite filter_cons. cbn [run_unknown].
  destruct (decide (u_camera u = camera_id)) as [Hc|Hc].
  - cbn [run_unknown].
    pose proof (handle_unknown_face_local cfg (u_ts u) camera_id (u_io u)
                  st st' Heq) as (H1 & _ & H3). cbv zeta in *.
    rewrite <- Hc in *.
    destruct (handle_unknown_face cfg (u_ts u) (u_camera u) (u_io u) st)
      as [[st1 effs] saved].
    destruct (handle_unknown_face cfg (u_ts u) (u_camera u) (u_io u) st')
      as [[st1' effs'] saved']. cbn [fst snd] in *.
    specialize (IH st1 st1' H3). unfold of_camera in IH.
    destruct (run_unknown cfg l st1) as [st2 log].
    destruct (run_unknown cfg (filter _ l) st1') as [st2' log'].
    cbn [fst snd] in *. rewrite filter_cons. cbn [fst].
    rewrite decide_True by reflexivity. now rewrite IH, H1.
  - pose proof (handle_unknown_face_other cfg (u_ts u) (u_camera u) (u_io u)
                  st camera_id Hc) as Hother.
    destruct (handle_unknown_face cfg (u_ts u) (u_camera u) (u_io u) st)
      as [[st1 effs] saved]. cbn [fst snd] in *.
    specialize (IH st1 st'). unfold of_camera in IH.
    destruct (run_unknown cfg l st1) as [st2 log]. cbn [fst snd] in *.
    rewrite filter_cons. cbn [fst]. rewrite decide_False by assumption.
    apply IH. now rewrite Heq, Hother.
Qed.

(** X6.  The cooldown of one camera does not see the others: in any
    sequence of unknown-face detections over several cameras, the images
    offered for a camera are the ones offered when its detections are
    handled alone, from the same starting state. *)
Theorem cooldown_per_camera
    (cfg : Config) (camera_id : string) (l : list UnknownSighting)
    (st : State) :
  filter (fun entry => entry.1 = camera_id) (run_unknown cfg l st).2 =
  (run_unknown cfg (of_camera camera_id l) st).2.
Proof.
  apply run_unknown_projection with (st := st) (st' := st). reflexivity.
Qed.

End ProcessorFacts.

(** ** The hourly attendance ledger ([get_current_csv_path],
    [log_attendance]) on a file system *)

Module Ledger.

(** The attendance files: path to rows. *)
Abbreviation Files := (gmap string (list (list string))).

Definition header : list string := ["Name"; "Date"; "Time"; "CameraID"].

(** [os.path.isabs] and [os.path.join] on POSIX paths. *)
Definition isabs (path : string) : bool :=
  match path with String "/" _ => true | _ => false end.

Fixpoint ends_with_slash (path : string) : bool :=
  match path with
  | EmptyString => false
  | String c EmptyString => Ascii.eqb c "/"
  | String _ rest => ends_with_slash rest
  end.

Definition join (a b : string) : string :=
  if isabs b then b
  else if (a =? "")%string || ends_with_slash a then (a ++ b)%string
  else (a ++ "/" ++ b)%string.

(** [_resolve_path]; [here] is the directory of the module. *)
Definition _resolve_path (here path : string) : string :=
  if isabs path then path else join here path.

(** [f"attendance_{hour_str}-00.csv"] under the attendance directory. *)
Definition csv_path (attendance_dir hour_str : string) : string :=
  join attendance_dir ("attendance_" ++ hour_str ++ "-00.csv").

(** [self.current_hour] and [self.current_csv_path]. *)
Record Rotation := {
  current_hour : option string;
  current_csv_path : option string;
}.

Definition fresh : Rotation :=
  {| current_hour := None; current_csv_path := None |}.

(** What one call meets: the hour of [datetime.now()] as
    ["%Y-%m-%d_%H"], and whether [os.makedirs], the writing of the
    header and the appending of the row go through. *)
Record Call := {
  hour_str : string;
  dir_ok : bool;
  header_ok : bool;
  append_ok : bool;
  row : list string;
}.

(** [get_current_csv_path]: [None] stands for an exception; the fields
    assigned before it are kept. *)
Definition get_current_csv_path (attendance_dir : string) (c : Call)
    (rot : Rotation) (fs : Files) : option string * Rotation * Files :=
  if negb (bool_decide (current_hour rot = Some (hour_str c)))
     || negb (bool_decide (is_Some (current_csv_path rot)))
  then
    let rot1 := {| current_hour := Some (hour_str c);
                   current_csv_path := current_csv_path rot |} in
    if negb (dir_ok c) then (None, rot1, fs)
    else
      let path := csv_path attendance_dir (hour_str c) in
      let rot2 := {| current_hour := Some (hour_str c);
                     current_csv_path := Some path |} in
      match fs !! path with
      | Some _ => (Some path, rot2, fs)
      | None =>
          if header_ok c then (Some path, rot2, <[path := [header]]> fs)
          else (None, rot2, fs)
      end
  else (current_csv_path rot, rot, fs).

(** [log_attendance]: whatever is raised is caught; [open(path, "a")]
    creates a missing file. *)
Definition log_attendance (attendance_dir : string) (c : Call)
    (rot : Rotation) (fs : Files) : Rotation * Files :=
  match get_current_csv_path attendance_dir c rot fs with
  | (Some path, rot', fs') =>
      if append_ok c
      then (rot', <[path := default [] (fs' !! path) ++ [row c]]> fs')
      else (rot', fs')
  | (None, rot', fs') => (rot', fs')
  end.

Fixpoint log_all (attendance_dir : string) (calls : list Call)
    (rot : Rotation) (fs : Files) : Rotation * Files :=
  match calls with
  | [] => (rot, fs)
  | c :: rest =>
      let '(rot', fs') := log_attendance attendance_dir c rot fs in
      log_all attendance_dir rest rot' fs'
  end.

(** Nothing fails during the call. *)
Definition smooth (c : Call) : Prop :=
  dir_ok c = true /\ header_ok c = true /\ append_ok c = true.

(** The rows of the calls whose hour names the file [path]. *)
Definition rows_for (attendance_dir path : string) (calls : list Call)
    : list (list string) :=
  map row (filter (fun c => csv_path attendance_dir (hour_str c) = path) calls).

(** The file after the rows [rs] were logged to it: untouched when there
    are none, else the old rows, or the header of a new file, followed
    by [rs]. *)
Definition file_after (old : option (list (list string)))
    (rs : list (list string)) : option (list (list string)) :=
  match rs with
  | [] => old
  | _ => Some (default [header] old ++ rs)
  end.

(** The cached path is the file of the cached hour, and it exists. *)
Definition cached_ok (attendance_dir : string) (rot : Rotation) (fs : Files)
    : Prop :=
  current_csv_path rot = None \/
  exists h, current_hour rot = Some h /\
            current_csv_path rot = Some (csv_path attendance_dir h) /\
            is_Some (fs !! csv_path attendance_dir h).

Lemma log_attendance_smooth attendance_dir c rot fs :
  smooth c -> cached_ok attendance_dir rot fs ->
  let path := csv_path attendance_dir (hour_str c) in
  let r := log_attendance attendance_dir c rot fs in
  r.2 = <[path := default [header] (fs !! path) ++ [row c]]> fs /\
  cached_ok attendance_dir r.1 r.2.
Proof.
  intros (Hd & Hh & Ha) Hc. cbv zeta.
  unfold log_attendance, get_current_csv_path. rewrite Hd, Hh, Ha. cbn [negb].
  set (path := csv_path attendance_dir (hour_str c)).
  assert (Hnew : forall fs1 rows,
    fs1 !! path = Some rows ->
    cached_ok attendance_dir
      {| current_hour := Some (hour_str c); current_csv_path := Some path |}
      (<[path := rows ++ [row c]]> fs1)).
  { intros fs1 rows _. right. exists (hour_str c). repeat split.
    fold path. rewrite lookup_insert_eq. eauto. }
  destruct (bool_decide_reflect (current_hour rot = Some (hour_str c)))
    as [Hhour|Hhour]; cbn [negb orb].
  - destruct Hc as [Hnone | (h & H1 & H2 & (rows & H3))].
    + rewrite Hnone.
      rewrite bool_decide_eq_false_2 by (intros [? ?]; discriminate).
      cbn [negb]. fold path.
      destruct (fs !! path) as [rows|] eqn:Hp; cbn [fst snd].
      * rewrite Hp. simpl. split; [reflexivity | now apply (Hnew fs rows)].
      * rewrite lookup_insert_eq. simpl. rewrite insert_insert_eq.
        split; [reflexivity|].
        right. exists (hour_str c). repeat split. fold path.
        rewrite lookup_insert_eq. eauto.
    + rewrite H2. rewrite bool_decide_eq_true_2 by eauto. cbn [negb].
      assert (h = hour_str c) by congruence. subst h. fold path in H3 |- *.
      cbn [fst snd]. rewrite H3. simpl.
      split; [reflexivity|]. right. exists (hour_str c).
      rewrite H1. repeat split; [now rewrite H2|].
      fold path. rewrite lookup_insert_eq. eauto.
  - fold path. destruct (fs !! path) as [rows|] eqn:Hp; cbn [fst snd].
    + rewrite Hp. simpl. split; [reflexivity | now apply (Hnew fs rows)].
    + rewrite lookup_insert_eq. simpl. rewrite insert_insert_eq.
      split; [reflexivity|].
      right. exists (hour_str c). repeat split. fold path.
      rewrite lookup_insert_eq. eauto.
Qed.

Lemma log_all_smooth attendance_dir calls rot fs path :
  Forall smooth calls -> cached_ok attendance_dir rot fs ->
  (log_all attendance_dir calls rot fs).2 !! path =
  file_after (fs !! path) (rows_for attendance_dir path calls).
Proof.
  revert rot fs. induction calls as [|c calls IH]; intros rot fs Hall Hc;
    [reflexivity|].
  apply Forall_cons in Hall as (Hs & Hall). cbn [log_all].
  destruct (log_attendance_smooth attendance_dir c rot fs Hs Hc) as (Hfs & Hc').
  destruct (log_attendance attendance_dir c rot fs) as [rot' fs'].
  cbn [fst snd] in *. rewrite (IH rot' fs' Hall Hc'). subst fs'.
  unfold rows_for. rewrite filter_cons.
  destruct (decide (csv_path attendance_dir (hour_str c) = path)) as [<-|Hne].
  - rewrite lookup_insert_eq. cbn [map]. unfold file_after.
    destruct (map row _) as [|r rs]; simpl; [reflexivity|].
    now rewrite <- app_assoc.
  - now rewrite lookup_insert_ne.
Qed.

(** X7.  Take a fresh processor and any attendance files already on
    disk, and log any number of rows with no write failing.  Then every
    attendance file holds what it held before (just the header row, if
    it did not exist) followed by the rows logged during the hours that
    name it, in the order they were logged; files of other hours are
    untouched.  The hour is the wall-clock hour at the time of logging,
    not the hour in the row. *)
Theorem ledger_files_after_logging
    (attendance_dir : string) (calls : list Call) (fs : Files) (path : string) :
  Forall smooth calls ->
  (log_all attendance_dir calls fresh fs).2 !! path =
  file_after (fs !! path) (rows_for attendance_dir path calls).
Proof.
  intros Hall. apply log_all_smooth; [exact Hall | now left].
Qed.

Definition logged_at (hour : string) (name time : string) : Call :=
  {| hour_str := hour; dir_ok := true; header_ok := true; append_ok := true;
     row := [name; "2024-05-01"; time; "C1"] |}.

(** Two rows in the nine o'clock hour and one in the ten o'clock hour,
    the last one stamped 09:59:59. *)
Lemma ledger_files_after_logging_witness :
  let calls := [logged_at "2024-05-01_09" "Alice" "09:30:00";
                logged_at "2024-05-01_09" "Bob" "09:45:10";
                logged_at "2024-05-01_10" "Carol" "09:59:59"] in
  (log_all "attendance" calls fresh ∅).2
    !! "attendance/attendance_2024-05-01_10-00.csv"%string
  = Some [header; ["Carol"; "2024-05-01"; "09:59:59"; "C1"]]%string.
Proof.
  cbv zeta.
  rewrite (ledger_files_after_logging "attendance"
             [logged_at "2024-05-01_09" "Alice" "09:30:00";
              logged_at "2024-05-01_09" "Bob" "09:45:10";
              logged_at "2024-05-01_10" "Carol" "09:59:59"] ∅
             "attendance/attendance_2024-05-01_10-00.csv").
  - reflexivity.
  - repeat constructor.
Defined.

(** X8.  When the hour has changed and [os.makedirs] fails, the row of
    that call is lost, and the hour is recorded while the path is not:
    the next row logged in the new hour, with nothing failing, goes to
    the file of the previous hour. *)
Theorem stale_path_after_failed_rotation
    (attendance_dir : string) (old_hour : string) (c1 c2 : Call) (fs : Files)
    (rows : list (list string)) :
  let old_path := csv_path attendance_dir old_hour in
  let rot := {| current_hour := Some old_hour;
                current_csv_path := Some old_path |} in
  hour_str c1 <> old_hour -> dir_ok c1 = false ->
  hour_str c2 = hour_str c1 -> append_ok c2 = true ->
  fs !! old_path = Some rows ->
  let r1 := log_attendance attendance_dir c1 rot fs in
  let r2 := log_attendance attendance_dir c2 r1.1 r1.2 in
  r1.2 = fs /\
  r2.2 = <[old_path := rows ++ [row c2]]> fs.
Proof.
  intros old_path rot Hne Hd Hsame Ha Hold. cbv zeta.
  assert (H1 : log_attendance attendance_dir c1 rot fs =
               ({| current_hour := Some (hour_str c1);
                   current_csv_path := Some old_path |}, fs)).
  { unfold log_attendance, get_current_csv_path.
    subst rot. cbn [current_hour current_csv_path].
    rewrite bool_decide_eq_false_2 by congruence. cbn [negb orb].
    now rewrite Hd. }
  rewrite H1. cbn [fst snd]. split; [reflexivity|].
  unfold log_attendance, get_current_csv_path.
  cbn [current_hour current_csv_path].
  rewrite bool_decide_eq_true_2 by congruence.
  rewrite bool_decide_eq_true_2 by eauto. cbn [negb orb].
  rewrite Ha. cbn [fst snd]. now rewrite Hold.
Qed.

Definition failing_rotation : Call :=
  {| hour_str := "2024-05-01_10"; dir_ok := false; header_ok := true;
     append_ok := true; row := ["Bob"; "2024-05-01"; "10:00:02"; "C1"] |}.

Lemma stale_path_after_failed_rotation_witness :
  let fs : Files :=
    {[ "attendance/attendance_2024-05-01_09-00.csv"%string := [header] ]} in
  let rot := {| current_hour := Some "2024-05-01_09"%string;
                current_csv_path :=
                  Some "attendance/attendance_2024-05-01_09-00.csv"%string |} in
  let r1 := log_attendance "attendance" failing_rotation rot fs in
  let r2 := log_attendance "attendance"
              (logged_at "2024-05-01_10" "Carol" "10:00:05") r1.1 r1.2 in
  r2.2 !! "attendance/attendance_2024-05-01_09-00.csv"%string =
    Some [header; ["Carol"; "2024-05-01"; "10:00:05"; "C1"]]%string.
Proof.
  cbv zeta.
  destruct (stale_path_after_failed_rotation "attendance" "2024-05-01_09"
              failing_rotation (logged_at "2024-05-01_10" "Carol" "10:00:05")
              {[ "attendance/attendance_2024-05-01_09-00.csv"%string
                   := [header] ]} [header]) as (_ & H).
  - discriminate.
  - reflexivity.
  - reflexivity.
  - reflexivity.
  - reflexivity.
  - cbv zeta in H.
    refine (eq_trans
      (f_equal (fun m : Files =>
         m !! "attendance/attendance_2024-05-01_09-00.csv"%string) H) _).
    reflexivity.
Defined.

End Ledger.

(** ** More on the camera worker: frame skipping, failure counting,
    shutdown *)

Module WorkerFacts.

Import Worker.

Definition is_process (e : Event) : bool :=
  match e with ProcessFrame _ => true | _ => false end.

(** The number of frames handed to [process_frame] in a trace. *)
Definition processed (evs : list Event) : nat :=
  length (List.filter is_process evs).

(** A read that returns a frame. *)
Definition good_read (tick : Tick) : Prop := read_ret tick = true.

Lemma div_succ (c k : Z) :
  0 < k ->
  (c + 1) / k = c / k + (if (c + 1) mod k =? 0 then 1 else 0).
Proof.
  intros Hk.
  pose proof (Z.div_mod c k ltac:(lia)) as Hc.
  pose proof (Z.mod_pos_bound c k Hk) as Hr.
  pose proof (Z.div_mod (c + 1) k ltac:(lia)) as Hc1.
  pose proof (Z.mod_pos_bound (c + 1) k Hk) as Hr1.
  destruct (Z.eqb_spec ((c + 1) mod k) 0) as [Hz|Hz]; nia.
Qed.

Lemma processed_app evs1 evs2 :
  processed (evs1 ++ evs2) = (processed evs1 + processed evs2)%nat.
Proof. unfold processed. now rewrite List.filter_app, length_app. Qed.

Lemma resize_not_processed res :
  processed (match resize_target res with
             | Some size => [Resize size]
             | None => []
             end) = 0%nat.
Proof. now destruct (resize_target res). Qed.

(** One pass on a frame that was read, with no stop request. *)
Lemma iteration_good_read p res tick w :
  0 < frame_skip p -> cap w = Some true -> good_read tick ->
  let r := iteration p res None tick w in
  cap r.1.1 = Some true /\ fail_count r.1.1 = 0 /\
  frame_counter r.1.1 = frame_counter w + 1 /\
  releases r.1.2 = 0%nat /\ r.2 = Continue /\
  Z.of_nat (processed r.1.2) =
    (if (frame_counter w + 1) mod frame_skip p =? 0 then 1 else 0).
Proof.
  intros Hk Hcap Hgood. cbv zeta. unfold iteration. simpl running.
  cbn [negb]. rewrite Hcap. unfold good_read in Hgood. rewrite Hgood.
  cbn [negb]. destruct (Z.eqb_spec (frame_skip p) 0) as [|_]; [lia|].
  destruct (Z.eqb_spec ((frame_counter w + 1) mod frame_skip p) 0);
    cbn [negb fst snd cap fail_count frame_counter];
    (repeat split; [now destruct (resize_target res)|]);
    change (?a :: ?b :: ?l) with ([a; b] ++ l);
    rewrite ?processed_app, resize_not_processed; reflexivity.
Qed.

(** X9.  With [frame_skip = k >= 1] and no stop request, a worker that
    reads [n] frames in a row counts all of them and hands to
    [process_frame] exactly those whose count is a multiple of [k]:
    starting from a counter of 0, that is [n / k] frames (integer
    division). *)
Theorem frame_skip_processes_every_kth
    (p : Params) (res : Z * Z) (ticks : list Tick) (w : WState) :
  1 <= frame_skip p -> cap w = Some true -> Forall good_read ticks ->
  let r := process_camera p res None ticks w in
  frame_counter r.1.1 = frame_counter w + Z.of_nat (length ticks) /\
  Z.of_nat (processed r.1.2) =
    (frame_counter w + Z.of_nat (length ticks)) / frame_skip p
    - frame_counter w / frame_skip p /\
  releases r.1.2 = 0%nat /\ r.2 = Continue.
Proof.
  intros Hk. revert w. induction ticks as [|tick ticks IH];
    intros w Hcap Hall; cbv zeta.
  - simpl. rewrite Z.add_0_r, Z.sub_diag. repeat split.
  - apply Forall_cons in Hall as (Hgood & Hall). cbn [process_camera].
    destruct (iteration_good_read p res tick w ltac:(lia) Hcap Hgood)
      as (H1 & _ & H3 & H4 & H5 & H6).
    destruct (iteration p res None tick w) as [[w1 evs1] flow1].
    cbn [fst snd] in *. subst flow1.
    destruct (IH w1 H1 Hall) as (I1 & I2 & I3 & I4).
    destruct (process_camera p res None ticks w1) as [[w2 evs2] flow2].
    cbn [fst snd] in *.
    rewrite processed_app, Nat2Z.inj_add, I1, I2, H6, H3.
    pose proof (div_succ (frame_counter w) (frame_skip p) ltac:(lia)) as Hd.
    cbn [length]. rewrite Nat2Z.inj_succ.
    replace (frame_counter w + Z.succ (Z.of_nat (length ticks)))
      with (frame_counter w + 1 + Z.of_nat (length ticks)) by lia.
    split; [reflexivity|]. split; [lia|]. split; [|assumption].
    unfold releases in *. rewrite List.filter_app, length_app. lia.
Qed.

(** Seven frames with [frame_skip = 2]: three are processed. *)
Lemma frame_skip_processes_every_kth_witness :
  processed
    (process_camera sample_params (1280, 720) None
       (repeat (frame_tick (1280, 720)) 7) opened).1.2 = 3%nat.
Proof.
  destruct (frame_skip_processes_every_kth sample_params (1280, 720)
              (repeat (frame_tick (1280, 720)) 7) opened)
    as (_ & H & _).
  - simpl; lia.
  - reflexivity.
  - repeat constructor.
  - cbv zeta in H. apply Nat2Z.inj. rewrite H. reflexivity.
Defined.

(** *** Failures that are not consecutive *)

(** One pass with an open handle and no stop request. *)
Lemma iteration_open p res tick w :
  cap w = Some true ->
  let r := iteration p res None tick w in
  opens r.1.2 = 0%nat /\ r.2 = Continue /\
  (read_ret tick = true ->
   cap r.1.1 = Some true /\ fail_count r.1.1 = 0 /\ releases r.1.2 = 0%nat) /\
  (read_ret tick = false -> fail_count w + 1 < max_failures p ->
   cap r.1.1 = Some true /\ fail_count r.1.1 = fail_count w + 1 /\
   releases r.1.2 = 0%nat).
Proof.
  intros Hcap. cbv zeta. unfold iteration. simpl running. cbn [negb].
  rewrite Hcap. destruct (read_ret tick); cbn [negb].
  - destruct (frame_skip p =? 0);
      [|destruct (negb (_ =? 0))]; cbn [fst snd];
      (split; [now destruct (resize_target res)|]);
      (split; [reflexivity|]); (split; [|discriminate]); intros _;
      (repeat split; now destruct (resize_target res)).
  - destruct (Z.leb_spec (max_failures p) (fail_count w + 1)); cbn [fst snd];
      (split; [reflexivity|]); (split; [reflexivity|]);
      (split; [discriminate|]); intros _ Hlt; [lia|].
    now repeat split.
Qed.

Lemma no_long_failure_run p res ticks suffix w :
  cap w = Some true -> Forall failed_read suffix ->
  fail_count w = Z.of_nat (length suffix) ->
  (forall pre mid post,
     suffix ++ ticks = pre ++ mid ++ post -> Forall failed_read mid ->
     Z.of_nat (length mid) < max_failures p) ->
  let r := process_camera p res None ticks w in
  releases r.1.2 = 0%nat /\ opens r.1.2 = 0%nat /\
  cap r.1.1 = Some true /\ r.2 = Continue.
Proof.
  revert suffix w. induction ticks as [|tick ticks IH];
    intros suffix w Hcap Hsuf Hcount Hruns; cbv zeta; [now repeat split|].
  cbn [process_camera].
  destruct (iteration_open p res tick w Hcap) as (Hop & Hflow & Hgood & Hbad).
  destruct (iteration p res None tick w) as [[w1 evs1] flow1].
  cbn [fst snd] in *. subst flow1.
  assert (Hnext : exists suffix',
    cap w1 = Some true /\ releases evs1 = 0%nat /\
    Forall failed_read suffix' /\
    fail_count w1 = Z.of_nat (length suffix') /\
    (forall pre mid post,
       suffix' ++ ticks = pre ++ mid ++ post -> Forall failed_read mid ->
       Z.of_nat (length mid) < max_failures p)).
  { destruct (read_ret tick) eqn:Hret.
    - destruct (Hgood eq_refl) as (H1 & H2 & H3).
      exists []. repeat split; auto.
      intros pre mid post Heq. apply (Hruns (suffix ++ tick :: pre) mid post).
      simpl in Heq. rewrite Heq. now rewrite <- app_assoc.
    - assert (Hsuf' : Forall failed_read (suffix ++ [tick])).
      { apply Forall_app. split; [assumption|]. now repeat constructor. }
      assert (Hlen : Z.of_nat (length (suffix ++ [tick])) < max_failures p).
      { apply (Hruns [] (suffix ++ [tick]) ticks); [|assumption].
        simpl. now rewrite <- app_assoc. }
      rewrite length_app in Hlen. simpl in Hlen.
      destruct Hbad as (H1 & H2 & H3); [reflexivity | lia |].
      exists (suffix ++ [tick]). repeat split; auto.
      + rewrite length_app. simpl. lia.
      + intros pre mid post Heq. apply (Hruns pre mid post).
        rewrite <- Heq. now rewrite <- app_assoc. }
  destruct Hnext as (suffix' & H1 & H3 & Hsuf' & Hcount' & Hruns').
  destruct (IH suffix' w1 H1 Hsuf' Hcount' Hruns') as (I1 & I2 & I3 & I4).
  destruct (process_camera p res None ticks w1) as [[w2 evs2] flow2].
  cbn [fst snd] in *. unfold releases, opens in *.
  rewrite !List.filter_app, !length_app. repeat split; auto; lia.
Qed.

(** X10.  The failure counter is reset by every frame that is read, so
    only failures in a row count: with no stop request, a worker with an
    open handle and a counter of 0 that never meets [max_failures]
    failed reads in a row keeps its handle, however many reads fail in
    all: it never releases and never reopens. *)
Theorem scattered_failures_keep_the_handle
    (p : Params) (res : Z * Z) (ticks : list Tick) (w : WState) :
  cap w = Some true -> fail_count w = 0 ->
  (forall pre mid post,
     ticks = pre ++ mid ++ post -> Forall failed_read mid ->
     Z.of_nat (length mid) < max_failures p) ->
  let r := process_camera p res None ticks w in
  releases r.1.2 = 0%nat /\ opens r.1.2 = 0%nat /\
  cap r.1.1 = Some true /\ r.2 = Continue.
Proof.
  intros Hcap Hzero Hruns.
  apply (no_long_failure_run p res ticks [] w); auto.
Qed.

(** Two failures, a frame, two failures, under [max_failures = 3]. *)
Lemma scattered_failures_keep_the_handle_witness :
  releases
    (process_camera sample_params (1280, 720) None
       [failed_tick; failed_tick; frame_tick (1280, 720);
        failed_tick; failed_tick] opened).1.2 = 0%nat.
Proof.
  refine (proj1 (scattered_failures_keep_the_handle sample_params (1280, 720)
    [failed_tick; failed_tick; frame_tick (1280, 720);
     failed_tick; failed_tick] opened eq_refl eq_refl _)).
  intros pre mid post Heq Hmid. simpl.
  destruct mid as [|m1 [|m2 [|m3 mid]]]; simpl; try lia.
  exfalso.
  apply Forall_cons in Hmid as (F1 & Hmid).
  apply Forall_cons in Hmid as (F2 & Hmid).
  apply Forall_cons in Hmid as (F3 & _).
  unfold failed_read in *.
  destruct pre as [|q1 [|q2 [|q3 pre]]]; simplify_eq/=.
  destruct pre as [|q4 [|q5 pre]]; simplify_eq/=.
  destruct pre; simplify_eq/=.
Defined.

(** *** Shutdown *)

Lemma running_true s t : (t < s)%Q -> running (Some s) t = true.
Proof. intros H. simpl. destruct (Qlt_le_dec t s); [reflexivity | lra]. Qed.

Lemma running_false s t : (s <= t)%Q -> running (Some s) t = false.
Proof. intros H. simpl. destruct (Qlt_le_dec t s); [lra | reflexivity]. Qed.

Lemma running_spec s t :
  (running (Some s) t = true -> (t < s)%Q) /\
  (running (Some s) t = false -> (s <= t)%Q).
Proof.
  simpl. destruct (Qlt_le_dec t s); split; intros; (assumption || discriminate).
Qed.

(** One pass begun before the stop request. *)
Lemma iteration_clock p res s tick w :
  (clock w < s)%Q ->
  let r := iteration p res (Some s) tick w in
  (clock r.1.1 < s + 1)%Q /\ (r.2 = Break -> (s <= clock r.1.1)%Q).
Proof.
  intros Hrun. cbv zeta. unfold iteration.
  rewrite (running_true s (clock w) Hrun). cbn [negb].
  assert (Hback :
    let '(t, evs) := backoff (Some s) (Z.to_nat (Py.int (reconnect_delay p)))
                             (clock w) in
    (t < s + 1)%Q).
  { destruct (backoff_trace (Some s) (Z.to_nat (Py.int (reconnect_delay p)))
                            (clock w)) as (k & _ & _ & Ht & _ & Hprev).
    destruct (backoff _ _ _) as [t evs]. cbn [fst snd] in *.
    destruct k as [|k].
    - change (inject_Z (Z.of_nat 0)) with 0%Q in Ht. lra.
    - specialize (Hprev ltac:(lia)). apply running_spec in Hprev. lra. }
  assert (Hreconnect :
    let '(t, evs) := backoff (Some s) (Z.to_nat (Py.int (reconnect_delay p)))
                             (clock w) in
    let r := if negb (running (Some s) t) then (set_clock t w, evs, Break)
             else ({| cap := Some (open_ok tick); fail_count := fail_count w;
                      frame_counter := frame_counter w; clock := t |},
                   evs ++ [Open], Continue) in
    (clock r.1.1 < s + 1)%Q /\ (r.2 = Break -> (s <= clock r.1.1)%Q)).
  { destruct (backoff _ _ _) as [t evs]. cbv zeta.
    destruct (running (Some s) t) eqn:Ht; cbn [negb fst snd clock set_clock].
    - split; [exact Hback | discriminate].
    - split; [exact Hback|]. intros _. now apply running_spec in Ht. }
  destruct (cap w) as [[|]|];
    [| revert Hreconnect; destruct (backoff _ _ _) as [t evs]; exact id
     | revert Hreconnect; destruct (backoff _ _ _) as [t evs]; exact id].
  destruct (read_ret tick); cbn [negb].
  - destruct (frame_skip p =? 0).
    + destruct (running (Some s) (clock w + (3 # 100))) eqn:Ht;
        cbn [negb fst snd clock set_clock].
      * apply running_spec in Ht. split; [lra | discriminate].
      * apply running_spec in Ht. split; [lra | intros _; exact Ht].
    + destruct (negb (_ =? 0)); cbn [fst snd clock];
        (split; [lra | discriminate]).
  - destruct (max_failures p <=? fail_count w + 1); cbn [fst snd clock];
      (split; [lra | discriminate]).
Qed.

Lemma iteration_stopped p res s tick w :
  (s <= clock w)%Q -> iteration p res (Some s) tick w = (w, [], Break).
Proof.
  intros H. unfold iteration. now rewrite (running_false s (clock w) H).
Qed.

(** X11.  Every sleep of the loop is at most one second long and the
    flag is tested between any two of them.  So when [stop()] is called
    at time [s] while the worker is anywhere in its loop, the loop ends,
    if it ends within the ticks considered, at a time in [[s, s + 1)];
    and from the moment the worker meets the cleared flag at the top of
    the loop it does nothing more: no read, no reopening, no frame
    processed. *)
Theorem shutdown_within_a_second
    (p : Params) (res : Z * Z) (s : Q) (ticks : list Tick) (w : WState) :
  (clock w < s)%Q ->
  let r := process_camera p res (Some s) ticks w in
  (r.2 = Break -> (s <= clock r.1.1)%Q /\ (clock r.1.1 < s + 1)%Q) /\
  (forall w' tick rest,
     (s <= clock w')%Q ->
     process_camera p res (Some s) (tick :: rest) w' = (w', [], Break)).
Proof.
  intros Hstart. cbv zeta. split.
  - assert (Hgen : forall l w0,
      (clock w0 < s + 1)%Q ->
      (process_camera p res (Some s) l w0).2 = Break ->
      (s <= clock (process_camera p res (Some s) l w0).1.1)%Q /\
      (clock (process_camera p res (Some s) l w0).1.1 < s + 1)%Q).
    { induction l as [|tick l IH]; intros w0 Hw0; [discriminate|].
      cbn [process_camera].
      destruct (Qlt_le_dec (clock w0) s) as [Hlt|Hge].
      - destruct (iteration_clock p res s tick w0 Hlt) as (Hc & Hb).
        destruct (iteration p res (Some s) tick w0) as [[w1 evs1] [|]];
          cbn [fst snd] in *.
        + specialize (IH w1 Hc).
          destruct (process_camera p res (Some s) l w1) as [[w2 evs2] flow2].
          exact IH.
        + intros _. split; [now apply Hb | exact Hc].
      - rewrite (iteration_stopped p res s tick w0 Hge). cbn [fst snd].
        intros _. split; assumption. }
    apply Hgen. lra.
  - intros w' tick rest Hge. cbn [process_camera].
    now rewrite (iteration_stopped p res s tick w' Hge).
Qed.

(** A stop request at 2.2 seconds into a reconnect wait of 5. *)
Lemma shutdown_within_a_second_witness :
  let w := {| cap := None; fail_count := 0; frame_counter := 0; clock := 0 |} in
  let r := process_camera sample_params (1280, 720) (Some (22 # 10))
                          [failed_tick; failed_tick] w in
  r.2 = Break /\ (22 # 10 <= clock r.1.1)%Q /\ (clock r.1.1 < (22 # 10) + 1)%Q.
Proof.
  cbv zeta. split; [reflexivity|].
  refine (proj1 (shutdown_within_a_second sample_params (1280, 720) (22 # 10)
    [failed_tick; failed_tick]
    {| cap := None; fail_count := 0; frame_counter := 0; clock := 0 |} _) _).
  - reflexivity.
  - reflexivity.
Defined.

(** A pass that does not end the loop sleeps: at least 0.03 s. *)
Lemma iteration_progress p res s tick w :
  (1 <= reconnect_delay p)%Q -> (clock w < s)%Q ->
  let r := iteration p res (Some s) tick w in
  r.2 = Continue -> (clock w + (3 # 100) <= clock r.1.1)%Q.
Proof.
  intros Hdelay Hrun. cbv zeta. unfold iteration.
  rewrite (running_true s (clock w) Hrun). cbn [negb].
  assert (Hreconnect :
    let '(t, evs) := backoff (Some s) (Z.to_nat (Py.int (reconnect_delay p)))
                             (clock w) in
    running (Some s) t = true -> (clock w + 1 <= t)%Q).
  { destruct (backoff_trace (Some s) (Z.to_nat (Py.int (reconnect_delay p)))
                            (clock w)) as (k & _ & _ & Ht & Hend & _).
    destruct (backoff _ _ _) as [t evs]. cbn [fst snd] in *. intros Hr.
    destruct Hend as [Hk|Hstop]; [|congruence].
    assert (Hone : 1 <= Py.int (reconnect_delay p)).
    { rewrite Py.int_floor by lra. now apply Py.Z_le_floor. }
    assert (Hk1 : (1 <= inject_Z (Z.of_nat k))%Q).
    { change 1%Q with (inject_Z 1). rewrite <- Zle_Qle. lia. }
    lra. }
  destruct (cap w) as [[|]|].
  - destruct (read_ret tick); cbn [negb].
    + destruct (frame_skip p =? 0).
      * destruct (running (Some s) (clock w + (3 # 100)));
          cbn [negb fst snd clock set_clock]; [intros _; lra | discriminate].
      * destruct (negb (_ =? 0)); cbn [fst snd clock]; intros _; lra.
    + destruct (max_failures p <=? fail_count w + 1); cbn [fst snd clock];
        intros _; lra.
  - revert Hreconnect. destruct (backoff _ _ _) as [t evs]. intros Hreconnect.
    destruct (running (Some s) t); cbn [negb fst snd clock];
      [intros _ | discriminate].
    specialize (Hreconnect eq_refl). lra.
  - revert Hreconnect. destruct (backoff _ _ _) as [t evs]. intros Hreconnect.
    destruct (running (Some s) t); cbn [negb fst snd clock];
      [intros _ | discriminate].
    specialize (Hreconnect eq_refl). lra.
Qed.

(** X12.  [stop()] does end the loop.  When the reconnect delay is at
    least one second, every pass that does not leave the loop sleeps at
    least 0.03 s, whatever the camera does (frames, failed reads, a
    stream that never reopens); so once the passes offered add up to
    the time left before the stop request, plus one for the final test
    of the flag, the loop has left through [break] or its [while]
    test. *)
Theorem stop_ends_the_loop
    (p : Params) (res : Z * Z) (s : Q) (ticks : list Tick) (w : WState) :
  (1 <= reconnect_delay p)%Q -> ticks <> [] ->
  (s - clock w <= (3 # 100) * inject_Z (Z.of_nat (length ticks) - 1))%Q ->
  (process_camera p res (Some s) ticks w).2 = Break.
Proof.
  intros Hdelay. revert w.
  induction ticks as [|tick rest IH]; intros w Hne Hleft; [congruence|].
  cbn [process_camera].
  destruct (Qlt_le_dec (clock w) s) as [Hlt|Hge].
  - pose proof (iteration_progress p res s tick w Hdelay Hlt) as Hstep.
    destruct (iteration p res (Some s) tick w) as [[w1 evs1] [|]];
      cbn [fst snd] in *; [|reflexivity].
    specialize (Hstep eq_refl).
    assert (Hlen : (inject_Z (Z.of_nat (length (tick :: rest)) - 1) ==
                    inject_Z (Z.of_nat (length rest)))%Q).
    { simpl length. rewrite Nat2Z.inj_succ.
      replace (Z.succ (Z.of_nat (length rest)) - 1)
        with (Z.of_nat (length rest)) by lia. reflexivity. }
    rewrite Hlen in Hleft.
    destruct rest as [|tick' rest'].
    + change (inject_Z (Z.of_nat (length (@nil Tick)))) with 0%Q in Hleft.
      lra.
    + assert (Hrest : (inject_Z (Z.of_nat (length (tick' :: rest'))) ==
                       inject_Z (Z.of_nat (length (tick' :: rest')) - 1) + 1)%Q).
      { rewrite <- (inject_Z_plus _ 1).
        replace (Z.of_nat (length (tick' :: rest')) - 1 + 1)
          with (Z.of_nat (length (tick' :: rest'))) by lia. reflexivity. }
      rewrite Hrest in Hleft.
      specialize (IH w1 ltac:(discriminate) ltac:(lra)).
      destruct (process_camera p res (Some s) (tick' :: rest') w1)
        as [[w2 evs2] flow2].
      exact IH.
  - now rewrite (iteration_stopped p res s tick w Hge).
Qed.

(** A stop request 0.05 s into a stream of frames: two passes sleep
    0.03 s each, the third meets the cleared flag. *)
Lemma stop_ends_the_loop_witness :
  (process_camera sample_params (1280, 720) (Some (5 # 100))
     [frame_tick (1280, 720); frame_tick (1280, 720); frame_tick (1280, 720)]
     opened).2 = Break.
Proof.
  apply (stop_ends_the_loop sample_params (1280, 720) (5 # 100)
    [frame_tick (1280, 720); frame_tick (1280, 720); frame_tick (1280, 720)]
    opened).
  - vm_compute. discriminate.
  - discriminate.
  - vm_compute. discriminate.
Defined.

End WorkerFacts.

(** ** The processor wired to the emitter ([video_feed.get_processor]) *)

Module Pipeline.

Import Matcher Processor Emitter.

(** One sighting as the backend's processor meets it.  [get_processor]
    installs [_emit_violation] as [on_violation], so the event of a
    sighting reaches the emitter before the next sighting is handled.
    [e_now] is what [time.time()] reads in the emitter, [e_outcome] how
    the post ends. *)
Record Seen := {
  sighting : Sighting;
  e_now : Q;
  e_outcome : PostOutcome;
}.

(** The events of one sighting, as they reach the emitter. *)
Definition arrivals (x : Seen) (effs : list Effect) : list Arrival :=
  map (fun d => {| a_data := d; a_now := e_now x; a_outcome := e_outcome x |})
      (detection_events effs).

(** The per-box dispatch on each sighting of [name] in turn, its events
    handed to the emitter: the processor's state and effects, the
    emitter's table and the requests posted. *)
Fixpoint feed (cfg : Config) (set : Settings) (name : string)
    (l : list Seen) (st : State) (tbl : Table)
    : State * list Effect * Table * list (Violation * PostOutcome) :=
  match l with
  | [] => (st, [], tbl, [])
  | x :: rest =>
      let s := sighting x in
      let '(st1, effs1, _) :=
        dispatch cfg (s_camera s) (s_ts s) (s_box s) name (s_dist s)
                 (s_io s) st in
      let '(tbl1, sent1) := emit_all set (arrivals x effs1) tbl in
      let '(st2, effs2, tbl2, sent2) := feed cfg set name rest st1 tbl1 in
      (st2, effs1 ++ effs2, tbl2, sent1 ++ sent2)
  end.

(** The event of a sighting that saved no image. *)
Definition plain_event (name : string) (s : Sighting) : Payload :=
  {| p_camera_id := s_camera s; p_type := "face_detection";
     p_name := name; p_confidence := 1 - s_dist s;
     p_timestamp := s_ts s; p_bbox := s_box s;
     p_image_filename := None; p_small_face := false |}.

(** The processor's side of [feed] is [run_sightings]. *)
Lemma feed_processor cfg set name l st tbl :
  let r := feed cfg set name l st tbl in
  (r.1.1.1, r.1.1.2) = run_sightings cfg name (map sighting l) st.
Proof.
  cbv zeta. revert st tbl. induction l as [|x l IH]; intros st tbl;
    [reflexivity|].
  cbn [feed map run_sightings].
  destruct (dispatch _ _ _ _ _ _ _ _) as [[st1 effs1] out].
  destruct (emit_all set (arrivals x effs1) tbl) as [tbl1 sent1].
  specialize (IH st1 tbl1).
  destruct (feed cfg set name l st1 tbl1) as [[[st2 effs2] tbl2] sent2].
  destruct (run_sightings cfg name (map sighting l) st1) as [st2' effs2'].
  cbn [fst snd] in *. congruence.
Qed.

(** Whatever a dispatch hands to the callback is keyed by its camera
    and the matched name. *)
Lemma dispatch_event_key cfg camera_id ts box name dist io st :
  Forall (fun d => key_of d = (camera_id, name))
         (detection_events
            (dispatch cfg camera_id ts box name dist io st).1.2).
Proof.
  unfold dispatch. cbv zeta.
  set (st0 := set_stats incr_total_detections st).
  destruct (negb (name =? Unknown)%string).
  - pose proof (ProcessorFacts.handle_known_face_no_event
                  cfg name ts camera_id io st0) as He.
    destruct (handle_known_face cfg name ts camera_id io st0)
      as [[st1 effs] [saved|]]; cbn [fst snd] in *.
    + unfold detection_events in *. rewrite omap_app, He.
      destruct (on_violation cfg); simpl; repeat constructor.
    + rewrite He. constructor.
  - pose proof (ProcessorFacts.handle_unknown_face_no_event
                  cfg ts camera_id io st0) as (He & _).
    destruct (handle_unknown_face cfg ts camera_id io st0)
      as [[st1 effs] saved]; cbn [fst snd] in *.
    unfold detection_events in *. rewrite omap_app, He.
    destruct (on_violation cfg); simpl; repeat constructor.
Qed.

(** Arrivals of one key inside its window leave the emitter as it was. *)
Lemma emit_all_dropped set key t0 l tbl :
  EMIT_VIOLATIONS set = true -> tbl !! key = Some t0 ->
  Forall (fun a => key_of (a_data a) = key /\
                   (a_now a - t0 < VIOLATION_EMIT_INTERVAL set)%Q) l ->
  emit_all set l tbl = (tbl, []).
Proof.
  intros He Ht Hall. induction Hall as [|a l (Hk & Hlt) _ IH]; [reflexivity|].
  cbn [emit_all]. rewrite emit_drop;
    [|assumption | unfold last_emit; rewrite Hk, Ht; exact Hlt].
  now rewrite IH.
Qed.

Lemma feed_dropped cfg set name cam t0 l st tbl :
  EMIT_VIOLATIONS set = true -> tbl !! (cam, name) = Some t0 ->
  Forall (fun x => s_camera (sighting x) = cam /\
                   (e_now x - t0 < VIOLATION_EMIT_INTERVAL set)%Q) l ->
  (feed cfg set name l st tbl).2 = [].
Proof.
  intros He Ht Hall. revert st.
  induction Hall as [|x l (Hc & Hlt) _ IH]; intros st; [reflexivity|].
  cbn [feed].
  pose proof (dispatch_event_key cfg (s_camera (sighting x))
                (s_ts (sighting x)) (s_box (sighting x)) name
                (s_dist (sighting x)) (s_io (sighting x)) st) as Hkey.
  destruct (dispatch _ _ _ _ _ _ _ _) as [[st1 effs1] out].
  cbn [fst snd] in Hkey.
  rewrite (emit_all_dropped set (cam, name) t0 (arrivals x effs1) tbl He Ht).
  - specialize (IH st1).
    destruct (feed cfg set name l st1 tbl) as [[[st2 effs2] tbl2] sent2].
    exact IH.
  - unfold arrivals. apply Forall_map. rewrite Hc in Hkey.
    eapply Forall_impl; [exact Hkey|]. intros d Hd. now split.
Qed.

(** X13.  Under the backend's wiring the evidence image of a quick
    confirmation is never posted.  Take sightings of one person on one
    camera, the first one forwarded by the emitter and not yet
    confirming, the others all within the emit interval of it, one of
    them the confirming one.  Then the person is confirmed and the
    image is offered to the matched folder, but the backend receives a
    single record, that of the first sighting, with an empty
    [image_path]: the event that carries the filename is throttled. *)
Theorem fast_confirmation_posts_no_image
    (cfg : Config) (set : Settings) (name : string)
    (first : Seen) (pre : list Seen) (c : Seen) (post : list Seen)
    (st : State) (tbl : Table) :
  let cam := s_camera (sighting first) in
  name <> Unknown -> on_violation cfg = true -> EMIT_VIOLATIONS set = true ->
  attendance_log st !! name = None ->
  count st name + Z.of_nat (length pre) + 2 =
    required_confirmations (parameters cfg) ->
  Forall (fun x => s_camera (sighting x) = cam /\
                   (e_now x - e_now first < VIOLATION_EMIT_INTERVAL set)%Q)
         (pre ++ c :: post) ->
  (VIOLATION_EMIT_INTERVAL set <= e_now first - last_emit tbl (cam, name))%Q ->
  let r := feed cfg set name (first :: pre ++ c :: post) st tbl in
  attendance_log r.1.1.1 !! name = Some (s_ts (sighting c)) /\
  SaveCrop (save_matched_dir (parameters cfg))
           (crop_filename cam name (s_ts (sighting c)))
           (save_ok (s_io (sighting c))) ∈ r.1.1.2 /\
  r.2 = [(violation_of (plain_event name (sighting first)), e_outcome first)] /\
  v_image_path (violation_of (plain_event name (sighting first))) = ""%string.
Proof.
  intros cam Hn Hv He Hlog HT Hall Hfirst r.
  (* the processor's side *)
  assert (Hproc :
    attendance_log r.1.1.1 !! name = Some (s_ts (sighting c)) /\
    SaveCrop (save_matched_dir (parameters cfg))
             (crop_filename cam name (s_ts (sighting c)))
             (save_ok (s_io (sighting c))) ∈ r.1.1.2).
  { pose proof (feed_processor cfg set name (first :: pre ++ c :: post) st tbl)
      as Hrun. cbv zeta in Hrun. fold r in Hrun.
    change (first :: pre ++ c :: post) with ((first :: pre) ++ c :: post)
      in Hrun.
    rewrite map_app in Hrun. cbn [map] in Hrun.
    set (counting := sighting first :: map sighting pre) in Hrun.
    assert (Hlen : length counting = S (length pre))
      by (subst counting; simpl length; now rewrite length_map).
    rewrite run_sightings_split in Hrun. cbv zeta in Hrun.
    destruct (run_counting cfg name counting st Hn Hv Hlog)
      as (Hc1 & Hl1 & _); [rewrite Hlen; lia|].
    rewrite Hlen in Hc1.
    destruct (run_sightings cfg name counting st) as [st1 effs1].
    cbn [fst snd] in *.
    rewrite run_sightings_single in Hrun. cbv zeta in Hrun.
    destruct (dispatch_confirming cfg name (sighting c) st1 Hn Hv)
      as (Hl2 & _ & _ & He2 & _); [congruence | lia |].
    destruct (dispatch cfg (s_camera (sighting c)) (s_ts (sighting c))
                (s_box (sighting c)) name (s_dist (sighting c))
                (s_io (sighting c)) st1) as [[st2 effs2] out].
    cbn [fst snd] in *.
    destruct (run_confirmed cfg name (map sighting post) st2 Hn Hv)
      as ((Hl3 & _) & _).
    { rewrite Hl2, lookup_insert_eq. eauto. }
    destruct (run_sightings cfg name (map sighting post) st2) as [st3 effs3].
    cbn [fst snd] in *.
    injection Hrun as Hst Heffs. rewrite Hst, Heffs, Hl3, Hl2.
    split; [apply lookup_insert_eq|].
    apply elem_of_app. right. apply elem_of_app. left.
    rewrite He2. unfold confirmation_effects.
    apply Forall_app in Hall as (_ & Hall).
    apply Forall_cons in Hall as ((Hcam & _) & _). rewrite Hcam.
    apply elem_of_app. left. apply elem_of_app. left.
    apply list_elem_of_further, list_elem_of_here. }
  destruct Hproc as (P1 & P2). split; [exact P1|]. split; [exact P2|].
  split; [|reflexivity].
  (* the emitter's side *)
  subst r. cbn [feed].
  destruct (dispatch_counting cfg name (sighting first) st Hn Hv Hlog)
    as (_ & _ & _ & Hev & _); [lia|].
  destruct (dispatch _ _ _ _ _ _ _ _) as [[st1 effs1] out].
  cbn [fst snd] in Hev. subst effs1.
  change (arrivals first [detection_event name (sighting first) None])
    with [{| a_data := plain_event name (sighting first);
             a_now := e_now first; a_outcome := e_outcome first |}].
  cbn [emit_all]. rewrite emit_forward; [|assumption | exact Hfirst].
  cbn [a_data a_now a_outcome].
  pose proof (feed_dropped cfg set name cam (e_now first) (pre ++ c :: post)
                st1 (<[key_of (plain_event name (sighting first)) :=
                        e_now first]> tbl) He) as Hrest.
  destruct (feed cfg set name (pre ++ c :: post) st1 _)
    as [[[st2 effs2] tbl2] sent2].
  cbn [fst snd] in *. rewrite Hrest; [reflexivity | | exact Hall].
  apply lookup_insert_eq.
Qed.

Definition seen_at (t : Q) : Seen :=
  {| sighting := sample_sighting (io_fine 0); e_now := t;
     e_outcome := Accepted |}.

(** Three sightings of "Alice" a tenth of a second apart, three
    confirmations required, an emit interval of five seconds. *)
Lemma fast_confirmation_posts_no_image_witness :
  let r := feed sample_config sample_settings "Alice"
             [seen_at 100; seen_at (1001 # 10); seen_at (1002 # 10)]
             init_state ∅ in
  attendance_log r.1.1.1 !! "Alice"%string = Some sample_ts /\
  map (fun v => v_image_path v.1) r.2 = [""%string].
Proof.
  cbv zeta.
  destruct (fast_confirmation_posts_no_image sample_config sample_settings
              "Alice" (seen_at 100) [seen_at (1001 # 10)]
              (seen_at (1002 # 10)) [] init_state ∅)
    as (H1 & _ & H3 & _).
  - discriminate.
  - reflexivity.
  - reflexivity.
  - reflexivity.
  - reflexivity.
  - repeat constructor.
  - vm_compute. discriminate.
  - cbv zeta in H1, H3. split; [exact H1|].
    exact (f_equal (map (fun v : Violation * PostOutcome => v_image_path v.1))
                   H3).
Defined.

End Pipeline.

(** ** The inference service's callback ([inference/main.py]) *)

Module InferenceMain.

Import Matcher Processor Emitter.

(** [on_violation] of [main.py]: the body it posts.  An event of the
    processor always has the keys [name], [timestamp] and [camera_id]
    the fallback asks for. *)
Definition on_violation (data : Payload) : Violation :=
  let image_filename :=
    match if_truthy (p_image_filename data) with
    | Some f => f
    | None =>
        let formatted_timestamp :=
          Py.replace " " "_" (Py.replace ":" "-" (render (p_timestamp data))) in
        (p_camera_id data ++ "_" ++ p_name data ++ "_"
         ++ formatted_timestamp ++ ".jpg")%string
    end in
  {| v_app_id := 1; v_camera_id := 1; v_details := data;
     v_image_path :=
       if (image_filename =? "")%string then ""%string else image_filename |}.

(** A call of [save_face_crop] that returned the name of the image:
    nothing raised in it.  Whether the image is on disk is another
    matter ([Processor.Save]). *)
Definition save_returned (e : Effect) : bool :=
  match e with SaveCrop _ _ true => true | _ => false end.

(** The fallback name is the name [save_face_crop] would have used. *)
Lemma on_violation_path (data : Payload) :
  p_image_filename data = None \/
  p_image_filename data =
    Some (crop_filename (p_camera_id data) (p_name data) (p_timestamp data)) ->
  v_image_path (on_violation data) =
    crop_filename (p_camera_id data) (p_name data) (p_timestamp data).
Proof.
  intros [H|H]; unfold on_violation; cbv zeta; rewrite H; cbn [if_truthy].
  - fold (crop_filename (p_camera_id data) (p_name data) (p_timestamp data)).
    cbn [v_image_path]. now rewrite crop_filename_nonempty.
  - rewrite crop_filename_nonempty. cbn [v_image_path].
    now rewrite crop_filename_nonempty.
Qed.

(** What one box hands to the callback: the name it carries, if any, is
    the name a call of [save_face_crop] returned; with no name, no such
    call returned. *)
Lemma box_event_image cosine_distance cfg camera_id img_w img_h ts b st :
  let r := process_box cosine_distance cfg camera_id img_w img_h ts b st in
  forall payload, payload ∈ detection_events r.1.2 ->
    p_camera_id payload = camera_id /\
    (p_image_filename payload = None /\ existsb save_returned r.1.2 = false \/
     p_image_filename payload =
       Some (crop_filename camera_id (p_name payload) (p_timestamp payload)) /\
     existsb save_returned r.1.2 = true).
Proof.
  cbv zeta. unfold process_box.
  destruct (Crop.crop_shape img_w img_h (box b)) as [rows cols].
  destruct ((rows <? min_face cfg) || (cols <? min_face cfg)).
  - cbn [fst snd]. destruct (Processor.on_violation cfg); simpl; intros payload Hin;
      [|now apply elem_of_nil in Hin].
    apply list_elem_of_singleton in Hin as ->. simpl. split; [reflexivity|].
    now left.
  - destruct (match_face _ _ _ _) as [name dist].
    unfold dispatch, handle_known_face, handle_unknown_face, save_face_crop,
      log_attendance. cbv zeta.
    destruct (negb (name =? Unknown)%string) eqn:Hknown.
    + simpl attendance_log.
      destruct (attendance_log st !! name);
        [|destruct (_ <=? _);
          [destruct (on_attendance cfg), (attendance_raises (io b)),
                    (returned (save (io b)))|]];
        destruct (Processor.on_violation cfg); simpl;
        rewrite ?crop_filename_nonempty; simpl;
        intros payload Hin;
        try (now apply elem_of_nil in Hin);
        apply list_elem_of_singleton in Hin as ->; simpl;
        (split; [reflexivity|]); auto.
    + apply negb_false_iff, String.eqb_eq in Hknown. subst name.
      change (unknown_due cfg camera_id (now (io b))
                (set_stats incr_total_detections st))
        with (unknown_due cfg camera_id (now (io b)) st).
      destruct (unknown_due cfg camera_id (now (io b)) st);
        [destruct (returned (save (io b)))|];
        destruct (Processor.on_violation cfg); simpl;
        rewrite ?crop_filename_nonempty; simpl;
        intros payload Hin;
        try (now apply elem_of_nil in Hin);
        apply list_elem_of_singleton in Hin as ->; simpl;
        (split; [reflexivity|]); auto.
Qed.

(** X14.  The inference service posts, for every event of a box, a
    record for camera 1 whose [image_path] is never empty: it is always
    [<camera>_<name>_<timestamp>.jpg], the name [save_face_crop] uses,
    whether or not the event carries a filename.  The event carries
    none exactly when no call of [save_face_crop] returned while the
    box was handled (a sighting that only counts, a small face, an
    unknown face inside the cooldown, a save that raised): such an
    event is posted under the name of an image that was never
    saved. *)
Theorem worker_record_always_names_an_image
    (cosine_distance : Embedding -> Embedding -> Q) (cfg : Config)
    (camera_id : string) (img_w img_h : Z) (ts : Timestamp) (b : BoxInput)
    (st : State) (payload : Payload) :
  let r := process_box cosine_distance cfg camera_id img_w img_h ts b st in
  payload ∈ detection_events r.1.2 ->
  let v := on_violation payload in
  v_camera_id v = 1 /\ v_details v = payload /\
  v_image_path v =
    crop_filename camera_id (p_name payload) (p_timestamp payload) /\
  v_image_path v <> ""%string /\
  (p_image_filename payload = None <-> existsb save_returned r.1.2 = false).
Proof.
  intros r Hin v.
  destruct (box_event_image cosine_distance cfg camera_id img_w img_h ts b st
              payload Hin) as (Hcam & Himg).
  fold r in Himg.
  assert (Hpath : v_image_path v =
            crop_filename camera_id (p_name payload) (p_timestamp payload)).
  { subst v. rewrite <- Hcam. apply on_violation_path.
    rewrite Hcam. destruct Himg as [(H & _)|(H & _)]; auto. }
  split; [reflexivity|]. split; [reflexivity|]. split; [exact Hpath|].
  split.
  - rewrite Hpath. intros Hempty.
    pose proof (crop_filename_nonempty camera_id (p_name payload)
                  (p_timestamp payload)) as Hne.
    rewrite Hempty in Hne. discriminate.
  - destruct Himg as [(H1 & H2)|(H1 & H2)]; rewrite H1, H2; split;
      (reflexivity || discriminate).
Qed.

(** A face too small to be matched: no save is tried, and the record
    names an image all the same. *)
Lemma worker_record_always_names_an_image_witness :
  let r := process_box unit_cosine_distance sample_config "C1" 1280 720
                       sample_ts small_box init_state in
  existsb save_returned r.1.2 = false /\
  v_image_path (on_violation (small_payload "C1" small_box)) =
    "C1_Unknown_2024-05-01_09-30-00.jpg"%string.
Proof.
  cbv zeta. split; [reflexivity|].
  destruct (worker_record_always_names_an_image unit_cosine_distance
              sample_config "C1" 1280 720 sample_ts small_box init_state
              (small_payload "C1" small_box)) as (_ & _ & H & _).
  - vm_compute. apply list_elem_of_here.
  - cbv zeta in H. rewrite H. reflexivity.
Defined.

End InferenceMain.

(** ** Camera identifiers ([_camera_id_to_int]) *)

Module CameraId.

Import Emitter.

(** The decimal reading of a digit string, from any accumulator. *)
Lemma digits_value_decimal (d : uint) (acc : nat) :
  digits_value (Z.of_nat acc) (NilEmpty.string_of_uint d) =
  Some (Z.of_nat (Nat.of_uint_acc d acc)).
Proof.
  revert acc. induction d as [|d IH|d IH|d IH|d IH|d IH|d IH|d IH|d IH|d IH|d IH];
    intros acc; [reflexivity|..];
    cbn [NilEmpty.string_of_uint digits_value Nat.of_uint_acc];
    change (is_digit _) with true; cbv iota;
    rewrite <- IH; f_equal; rewrite Nat.tail_mul_spec;
    match goal with
    | |- context [nat_of_ascii ?c] =>
        let v := eval vm_compute in (nat_of_ascii c) in
        change (nat_of_ascii c) with v
    end; lia.
Qed.

Lemma digits_value_nonneg (s : string) (acc : Z) :
  0 <= acc -> forall v, digits_value acc s = Some v -> 0 <= v.
Proof.
  revert acc. induction s as [|c s IH]; intros acc Hacc v; cbn [digits_value].
  - intros [= <-]. exact Hacc.
  - destruct (is_digit c) eqn:Hd; [|discriminate].
    apply IH. unfold is_digit in Hd.
    apply andb_true_iff in Hd as (Hlo & _). apply Nat.leb_le in Hlo. lia.
Qed.

Lemma digits_value_stops (pre : string) (c : ascii) (post : string) (acc : Z) :
  is_digit c = false -> digits_value acc (pre ++ String c post) = None.
Proof.
  intros Hc. revert acc. induction pre as [|a pre IH]; intros acc.
  - change (digits_value acc (String c post) = None).
    cbn [digits_value]. now rewrite Hc.
  - change (digits_value acc (String a (pre ++ String c post)) = None).
    cbn [digits_value]. destruct (is_digit a); [apply IH | reflexivity].
Qed.

(** X15.  [_camera_id_to_int] reads the letter C followed by decimal
    digits as the number written (leading zeros allowed), so the
    identifier made of C and the decimal writing of [n] gives [n] back.
    Every other identifier is read as 1: the empty one, one that does
    not begin with C, a lone C, and one with an ASCII character that is
    not a digit after the C.  The result is never negative.  (The
    digit strings considered are within the 4300 digits that [int]
    converts.) *)
Theorem camera_id_round_trip :
  (forall d : uint,
     (String.length (NilZero.string_of_uint d) <= 4300)%nat ->
     _camera_id_to_int ("C" ++ NilZero.string_of_uint d) =
     Z.of_nat (Nat.of_uint d)) /\
  (forall n : nat,
     (String.length (NilZero.string_of_uint (Nat.to_uint n)) <= 4300)%nat ->
     _camera_id_to_int ("C" ++ NilZero.string_of_uint (Nat.to_uint n)) =
     Z.of_nat n) /\
  _camera_id_to_int "" = 1 /\ _camera_id_to_int "C" = 1 /\
  (forall c rest, c <> "C"%char -> _camera_id_to_int (String c rest) = 1) /\
  (forall pre c post,
     (nat_of_ascii c < 128)%nat -> is_digit c = false ->
     _camera_id_to_int ("C" ++ pre ++ String c post) = 1) /\
  (forall camera_id, 0 <= _camera_id_to_int camera_id).
Proof.
  assert (Hread : forall d : uint,
    _camera_id_to_int ("C" ++ NilZero.string_of_uint d) =
    Z.of_nat (Nat.of_uint d)).
  { intros d. destruct d; [reflexivity|..];
      match goal with
      | |- _camera_id_to_int ("C" ++ NilZero.string_of_uint ?x) = _ =>
          change (default 1 (digits_value (Z.of_nat 0)
                               (NilEmpty.string_of_uint x)) =
                  Z.of_nat (Nat.of_uint_acc x 0));
          now rewrite (digits_value_decimal x 0)
      end. }
  split; [intros d _; apply Hread|].
  split; [intros n _; now rewrite Hread, Unsigned.of_to|].
  split; [reflexivity|]. split; [reflexivity|].
  split; [|split].
  - intros c rest Hc. unfold _camera_id_to_int.
    destruct c as [[] [] [] [] [] [] [] []]; try reflexivity.
    now contradict Hc.
  - intros pre c post _ Hc. destruct pre as [|a pre].
    + change (default 1 (digits_value 0 (String c post)) = 1).
      cbn [digits_value]. now rewrite Hc.
    + change (default 1 (digits_value 0 (String a pre ++ String c post)) = 1).
      now rewrite digits_value_stops.
  - intros camera_id. unfold _camera_id_to_int.
    destruct camera_id as [|c [|a rest]]; try lia;
      destruct c as [[] [] [] [] [] [] [] []]; try lia.
    destruct (digits_value 0 (String a rest)) as [v|] eqn:Hv; simpl; [|lia].
    now apply (digits_value_nonneg (String a rest) 0).
Qed.

Example camera_ids :
  map _camera_id_to_int ["C1"; "C12"; "C007"; "C0"; "C"; "c3"; "cam3"; "C1a"; ""]
  = [1; 12; 7; 0; 1; 1; 1; 1; 1].
Proof. reflexivity. Qed.

End CameraId.

(** ** The WebSocket registry ([backend/websocket_manager.py]) *)

Module Sockets.

(** A connection stands for a [WebSocket] object; two are equal when
    they are the same object. *)
Abbreviation Conn := nat.

(** [list.remove(x)]: the list without the first [x], [None] for the
    [ValueError] when there is none. *)
Fixpoint remove (x : Conn) (l : list Conn) : option (list Conn) :=
  match l with
  | [] => None
  | y :: rest =>
      if decide (y = x) then Some rest
      else option_map (cons y) (remove x rest)
  end.

(** [connect], once the handshake went through, and [disconnect]. *)
Definition connect (c : Conn) (active_connections : list Conn) : list Conn :=
  active_connections ++ [c].

Definition disconnect (c : Conn) (active_connections : list Conn)
    : list Conn :=
  default active_connections (remove c active_connections).

(** [broadcast]: the [for] loop walks the list by position while the
    handler of a failed send removes from the same list.  [i] is the
    position of the iterator, [ok c] tells whether [send_text] on [c]
    goes through; the result is the list left and the connections that
    got the message, in order.  No other task touches the list during
    the broadcast. *)
Fixpoint broadcast_from (fuel : nat) (ok : Conn -> bool) (i : nat)
    (active_connections sent : list Conn) : list Conn * list Conn :=
  match fuel with
  | O => (active_connections, sent)
  | S fuel' =>
      match active_connections !! i with
      | None => (active_connections, sent)
      | Some connection =>
          if ok connection
          then broadcast_from fuel' ok (S i) active_connections
                              (sent ++ [connection])
          else broadcast_from fuel' ok (S i)
                              (default active_connections
                                 (remove connection active_connections))
                              sent
      end
  end.

(** The iterator advances at every step and the list never grows, so
    its length is fuel enough. *)
Definition broadcast (ok : Conn -> bool) (active_connections : list Conn)
    : list Conn * list Conn :=
  broadcast_from (length active_connections) ok 0 active_connections [].

(** What the loop amounts to on a list without repetition: after a
    failed send the connection is dropped and the one behind it is
    passed over, neither tried nor dropped. *)
Fixpoint sweep (ok : Conn -> bool) (l : list Conn) : list Conn * list Conn :=
  match l with
  | [] => ([], [])
  | c :: rest =>
      if ok c then
        let '(kept, sent) := sweep ok rest in (c :: kept, c :: sent)
      else
        match rest with
        | [] => ([], [])
        | d :: rest' =>
            let '(kept, sent) := sweep ok rest' in (d :: kept, sent)
        end
  end.

Lemma remove_absent (x : Conn) (l : list Conn) : x ∉ l -> remove x l = None.
Proof.
  induction l as [|y l IH]; intros Hx; [reflexivity|]. cbn [remove].
  apply not_elem_of_cons in Hx as (Hne & Hx).
  rewrite decide_False by congruence. now rewrite IH.
Qed.

Lemma remove_middle (x : Conn) (pre post : list Conn) :
  x ∉ pre -> remove x (pre ++ x :: post) = Some (pre ++ post).
Proof.
  induction pre as [|y pre IH]; intros Hx; cbn [remove app].
  - now rewrite decide_True.
  - apply not_elem_of_cons in Hx as (Hne & Hx).
    rewrite decide_False by congruence. now rewrite IH.
Qed.

Lemma lookup_middle (pre : list Conn) (todo : list Conn) :
  (pre ++ todo) !! length pre = head todo.
Proof.
  rewrite lookup_app_r by lia. rewrite Nat.sub_diag. now destruct todo.
Qed.

(** The loop from position [length pre], the connections before it
    already handled. *)
Lemma broadcast_from_sweep (ok : Conn -> bool) (fuel : nat) :
  forall pre todo sent,
    (length todo <= fuel)%nat -> NoDup (pre ++ todo) ->
    broadcast_from fuel ok (length pre) (pre ++ todo) sent =
    (pre ++ (sweep ok todo).1, sent ++ (sweep ok todo).2).
Proof.
  induction fuel as [|fuel IH]; intros pre todo sent Hfuel Hnd.
  - destruct todo; [|simpl in Hfuel; lia]. simpl. now rewrite !app_nil_r.
  - cbn [broadcast_from]. rewrite lookup_middle.
    destruct todo as [|c rest]; cbn [head sweep].
    { simpl. now rewrite !app_nil_r. }
    simpl in Hfuel.
    destruct (ok c).
    + replace (S (length pre)) with (length (pre ++ [c]))
        by (rewrite length_app; simpl; lia).
      replace (pre ++ c :: rest) with ((pre ++ [c]) ++ rest) in *
        by now rewrite <- app_assoc.
      rewrite IH by (assumption || lia).
      destruct (sweep ok rest) as [kept sent']. cbn [fst snd].
      now rewrite <- !app_assoc.
    + apply NoDup_app in Hnd as (Hpre & Hdisj & Hrest).
      assert (Hc : c ∉ pre).
      { intros Hin. apply (Hdisj c Hin). apply list_elem_of_here. }
      rewrite remove_middle by assumption.
      change (default (pre ++ c :: rest) (Some (pre ++ rest)))
        with (pre ++ rest).
      destruct rest as [|d rest'].
      * rewrite app_nil_r.
        destruct fuel; cbn [broadcast_from];
          [|rewrite lookup_ge_None_2 by lia]; simpl; now rewrite !app_nil_r.
      * replace (S (length pre)) with (length (pre ++ [d]))
          by (rewrite length_app; simpl; lia).
        replace (pre ++ d :: rest') with ((pre ++ [d]) ++ rest')
          by now rewrite <- app_assoc.
        simpl in Hfuel. rewrite IH.
        -- destruct (sweep ok rest') as [kept sent']. cbn [fst snd].
           now rewrite <- !app_assoc.
        -- lia.
        -- rewrite <- app_assoc. cbn [app].
           apply NoDup_app. split; [assumption|].
           apply NoDup_cons in Hrest as (_ & Hrest).
           split; [|assumption].
           intros x Hx Hin. apply (Hdisj x Hx).
           now apply list_elem_of_further.
Qed.

Lemma sweep_all_ok (ok : Conn -> bool) (pre l : list Conn) :
  Forall (fun c => ok c = true) pre ->
  sweep ok (pre ++ l) = (pre ++ (sweep ok l).1, pre ++ (sweep ok l).2).
Proof.
  induction 1 as [|c pre Hc _ IH]; [simpl; now destruct (sweep ok l)|].
  cbn [app sweep]. rewrite Hc, IH. reflexivity.
Qed.

(** What is left and what was reached are parts of the list. *)
Lemma sweep_sublist (ok : Conn -> bool) (n : nat) :
  forall l, (length l <= n)%nat ->
    sublist (sweep ok l).1 l /\ sublist (sweep ok l).2 (sweep ok l).1 /\
    Forall (fun c => ok c = true) (sweep ok l).2 /\
    (forall c, c ∈ l -> c ∉ (sweep ok l).1 -> ok c = false).
Proof.
  induction n as [|n IH]; intros l Hn.
  - destruct l; [|simpl in Hn; lia]. simpl.
    repeat split; try constructor. intros c Hc. now apply elem_of_nil in Hc.
  - destruct l as [|c rest]; cbn [sweep].
    { repeat split; try constructor. intros c Hc. now apply elem_of_nil in Hc. }
    simpl in Hn. destruct (ok c) eqn:Hok.
    + destruct (IH rest ltac:(lia)) as (H1 & H2 & H3 & H4).
      destruct (sweep ok rest) as [kept sent]. cbn [fst snd] in *.
      repeat split; try (now constructor).
      intros x Hx Hout. apply elem_of_cons in Hx as [->|Hx].
      * contradict Hout. apply list_elem_of_here.
      * apply H4; [assumption|]. intros Hin. apply Hout.
        now apply list_elem_of_further.
    + destruct rest as [|d rest'].
      { cbn [fst snd]. repeat split; try constructor.
        - apply sublist_nil_l.
        - intros x Hx _. apply list_elem_of_singleton in Hx. now subst. }
      simpl in Hn. destruct (IH rest' ltac:(lia)) as (H1 & H2 & H3 & H4).
      destruct (sweep ok rest') as [kept sent]. cbn [fst snd] in *.
      split; [constructor; now constructor|].
      split; [now constructor|]. split; [assumption|].
      intros x Hx Hout. apply elem_of_cons in Hx as [->|Hx]; [assumption|].
      apply elem_of_cons in Hx as [->|Hx].
      * contradict Hout. apply list_elem_of_here.
      * apply H4; [assumption|]. intros Hin. apply Hout.
        now apply list_elem_of_further.
Qed.

(** X16.  [broadcast] removes from the list it is iterating over.  On a
    registry without repetition, with any fuel from the length of the
    list on, the loop is [sweep]: a failed send drops that connection,
    and the connection behind it is passed over.  So behind the first
    connection whose send fails, the next connection does not get the
    message and stays registered, whether it is alive or not. *)
Theorem broadcast_passes_over_the_next
    (ok : Conn -> bool) (active_connections : list Conn) :
  NoDup active_connections ->
  (forall fuel, (length active_connections <= fuel)%nat ->
     broadcast_from fuel ok 0 active_connections [] =
     sweep ok active_connections) /\
  broadcast ok active_connections = sweep ok active_connections /\
  (forall pre c d post,
     active_connections = pre ++ c :: d :: post ->
     Forall (fun x => ok x = true) pre -> ok c = false ->
     let r := broadcast ok active_connections in
     (d ∈ r.1) /\ (d ∉ r.2) /\ (c ∉ r.1)).
Proof.
  intros Hnd.
  assert (Hfuel : forall fuel, (length active_connections <= fuel)%nat ->
            broadcast_from fuel ok 0 active_connections [] =
            sweep ok active_connections).
  { intros fuel Hle.
    pose proof (broadcast_from_sweep ok fuel [] active_connections [] Hle Hnd)
      as H. simpl in H. rewrite H. now destruct (sweep ok active_connections). }
  split; [exact Hfuel|].
  assert (Hb : broadcast ok active_connections = sweep ok active_connections)
    by (apply Hfuel; reflexivity).
  split; [exact Hb|].
  intros pre c d post -> Hpre Hc r. subst r. rewrite Hb.
  rewrite (sweep_all_ok ok pre (c :: d :: post) Hpre).
  cbn [sweep]. rewrite Hc.
  destruct (sweep_sublist ok (length post) post (le_n _)) as (H1 & H2 & _).
  destruct (sweep ok post) as [kept sent]. cbn [fst snd] in *.
  apply NoDup_app in Hnd as (_ & Hdisj & Hrest).
  apply NoDup_cons in Hrest as (Hc' & Hrest).
  apply NoDup_cons in Hrest as (Hd' & _).
  split; [|split].
  - apply elem_of_app. right. apply list_elem_of_here.
  - intros Hin. apply elem_of_app in Hin as [Hin|Hin].
    + apply (Hdisj d Hin). apply list_elem_of_further, list_elem_of_here.
    + apply Hd'. apply (elem_of_sublist _ _ _ Hin).
      now transitivity kept.
  - intros Hin. apply elem_of_app in Hin as [Hin|Hin].
    + apply (Hdisj c Hin). apply list_elem_of_here.
    + apply Hc'. apply elem_of_cons in Hin as [->|Hin];
        [apply list_elem_of_here|].
      apply list_elem_of_further. exact (elem_of_sublist _ _ _ Hin H1).
Qed.

(** Connections 1 and 2 are gone, 3 is alive: 2 stays registered and 3
    still gets the message. *)
Lemma broadcast_passes_over_the_next_witness :
  broadcast (fun c => negb (c <=? 2)%nat) [1; 2; 3]%nat = ([2; 3], [3])%nat.
Proof.
  refine (eq_trans
    (proj1 (proj2 (broadcast_passes_over_the_next
                     (fun c => negb (c <=? 2)%nat) [1; 2; 3]%nat _))) _).
  - apply (bool_decide_unpack _). exact I.
  - reflexivity.
Defined.

(** X17.  What a broadcast never does, on a registry without
    repetition: it never reaches a connection it does not keep, never
    drops a connection whose send would have gone through, never adds
    or reorders; and every connection it reaches took the message. *)
Theorem broadcast_keeps_the_living
    (ok : Conn -> bool) (active_connections : list Conn) :
  NoDup active_connections ->
  let r := broadcast ok active_connections in
  sublist r.1 active_connections /\ sublist r.2 r.1 /\
  Forall (fun c => ok c = true) r.2 /\
  (forall c, c ∈ active_connections -> ok c = true -> c ∈ r.1) /\
  (Forall (fun c => ok c = true) active_connections ->
   r = (active_connections, active_connections)).
Proof.
  intros Hnd r.
  assert (Hb : r = sweep ok active_connections).
  { subst r. unfold broadcast.
    pose proof (broadcast_from_sweep ok (length active_connections) []
                  active_connections [] (le_n _) Hnd) as H.
    simpl in H. rewrite H. now destruct (sweep ok active_connections). }
  rewrite Hb.
  destruct (sweep_sublist ok (length active_connections) active_connections
              (le_n _)) as (H1 & H2 & H3 & H4).
  split; [exact H1|]. split; [exact H2|]. split; [exact H3|]. split.
  - intros c Hin Hok.
    destruct (decide (c ∈ (sweep ok active_connections).1)) as [|Hout];
      [assumption|].
    specialize (H4 c Hin Hout). congruence.
  - intros Hall.
    pose proof (sweep_all_ok ok active_connections [] Hall) as Hs.
    rewrite app_nil_r in Hs. rewrite Hs. simpl. now rewrite !app_nil_r.
Qed.

Lemma broadcast_keeps_the_living_witness :
  broadcast (fun _ => true) [4; 7; 9]%nat = ([4; 7; 9], [4; 7; 9])%nat.
Proof.
  refine (proj2 (proj2 (proj2 (proj2
    (broadcast_keeps_the_living (fun _ => true) [4; 7; 9]%nat _)))) _).
  - apply (bool_decide_unpack _). exact I.
  - repeat constructor.
Defined.

Lemma remove_length (x : Conn) (l l' : list Conn) :
  remove x l = Some l' -> length l = S (length l') /\ sublist l' l /\
                          (NoDup l -> x ∉ l').
Proof.
  revert l'. induction l as [|y l IH]; intros l'; cbn [remove]; [discriminate|].
  destruct (decide (y = x)) as [->|Hne].
  - intros [= <-]. split; [reflexivity|]. split; [now constructor|].
    intros Hnd. now apply NoDup_cons in Hnd as (Hx & _).
  - destruct (remove x l) as [l1|] eqn:Hr; [|discriminate]. intros [= <-].
    destruct (IH l1 eq_refl) as (H1 & H2 & H3).
    split; [simpl; lia|]. split; [now constructor|].
    intros Hnd. apply NoDup_cons in Hnd as (_ & Hnd).
    apply not_elem_of_cons. split; [congruence | now apply H3].
Qed.

(** X20.  [disconnect] undoes [connect]: a connection that was not
    registered and is connected and disconnected leaves the list as it
    was.  Disconnecting a connection that is not registered changes
    nothing (the [ValueError] is swallowed).  Disconnecting a registered
    one removes one entry, the first, and keeps the order of the rest:
    on a list without repetition the connection is gone, but one that
    was connected twice is still registered after one [disconnect]. *)
Theorem disconnect_undoes_connect (c : Conn) (active_connections : list Conn) :
  (c ∉ active_connections ->
   disconnect c (connect c active_connections) = active_connections /\
   disconnect c active_connections = active_connections) /\
  (c ∈ active_connections ->
   S (length (disconnect c active_connections)) = length active_connections) /\
  sublist (disconnect c active_connections) active_connections /\
  (NoDup active_connections -> c ∉ disconnect c active_connections) /\
  (c ∈ disconnect c (connect c (connect c active_connections))).
Proof.
  split; [|split; [|split; [|split]]].
  - intros Hc. unfold disconnect, connect. split.
    + rewrite remove_middle by assumption. simpl. apply app_nil_r.
    + now rewrite remove_absent.
  - intros Hc. unfold disconnect.
    destruct (remove c active_connections) as [l'|] eqn:Hr.
    + apply remove_length in Hr as (Hlen & _). simpl. lia.
    + exfalso. clear -Hc Hr. induction active_connections as [|y l IH];
        [now apply elem_of_nil in Hc|].
      cbn [remove] in Hr. destruct (decide (y = c)); [discriminate|].
      apply elem_of_cons in Hc as [->|Hc]; [congruence|].
      destruct (remove c l); [discriminate|]. now apply IH.
  - unfold disconnect.
    destruct (remove c active_connections) as [l'|] eqn:Hr; simpl;
      [now apply remove_length in Hr as (_ & Hs & _) | reflexivity].
  - intros Hnd. unfold disconnect.
    destruct (remove c active_connections) as [l'|] eqn:Hr; simpl.
    + apply remove_length in Hr as (_ & _ & Hx). now apply Hx.
    + intros Hc. clear -Hc Hr. induction active_connections as [|y l IH];
        [now apply elem_of_nil in Hc|].
      cbn [remove] in Hr. destruct (decide (y = c)); [discriminate|].
      apply elem_of_cons in Hc as [->|Hc]; [congruence|].
      destruct (remove c l); [discriminate|]. now apply IH.
  - unfold disconnect, connect.
    destruct (decide (c ∈ active_connections)) as [Hin|Hout].
    + destruct (remove c ((active_connections ++ [c]) ++ [c])) as [l'|] eqn:Hr;
        simpl; [|set_solver].
      apply list_elem_of_split in Hin as (l1 & l2 & ->).
      assert (Hfirst : exists m1 m2, l1 ++ c :: l2 = m1 ++ c :: m2 /\ c ∉ m1).
      { clear. induction l1 as [|y l1 (m1 & m2 & Heq & Hm)].
        - exists [], l2. split; [reflexivity | apply not_elem_of_nil].
        - destruct (decide (y = c)) as [->|Hne].
          + exists [], (l1 ++ c :: l2). split; [reflexivity|].
            apply not_elem_of_nil.
          + exists (y :: m1), m2. split; [simpl; now rewrite Heq|].
            apply not_elem_of_cons. split; [congruence | assumption]. }
      destruct Hfirst as (m1 & m2 & Heq & Hm). rewrite Heq in Hr.
      rewrite <- !app_assoc in Hr. cbn [app] in Hr.
      rewrite remove_middle in Hr by assumption. injection Hr as <-.
      set_solver.
    + rewrite <- app_assoc. cbn [app].
      rewrite remove_middle by assumption. simpl. set_solver.
Qed.

Lemma disconnect_undoes_connect_witness :
  disconnect 5%nat (connect 5%nat [3; 8]%nat) = [3; 8]%nat.
Proof.
  refine (proj1 (proj1 (disconnect_undoes_connect 5%nat [3; 8]%nat) _)).
  apply (bool_decide_unpack _). exact I.
Defined.

End Sockets.

(** ** The transcoder registry ([backend/streaming.py]) *)

Module Streams.

Import Processor.

(** A process stands for a [StreamProcess] (a [Popen] of ffmpeg); the
    [n]-th process started is the number [n]. *)
Abbreviation Pid := nat.

(** [processes] is [StreamManager._processes]; [alive] are the processes
    whose [poll()] is [None]; [spawned] counts the [Popen] calls. *)
Record World := {
  processes : gmap string Pid;
  alive : gset Pid;
  spawned : nat;
}.

Definition init : World :=
  {| processes := ∅; alive := ∅; spawned := 0 |}.

(** [_public_playlist_url] *)
Definition _public_playlist_url (name : string) : string :=
  ("/streams/" ++ name ++ "/index.m3u8")%string.

(** [StreamManager.is_running] *)
Definition is_running (name : string) (w : World) : bool :=
  match processes w !! name with
  | Some p => bool_decide (p ∈ alive w)
  | None => false
  end.

(** [ensure_stream].  [popen_ok] is false when creating the directory,
    opening the log or starting ffmpeg raises; the exception leaves the
    method before the registry is written. *)
Definition ensure_stream (name rtsp_url : string) (popen_ok : bool)
    (w : World) : World * Outcome string :=
  if (rtsp_url =? "")%string then (w, Raised)
  else if is_running name w then (w, Returned (_public_playlist_url name))
  else if popen_ok then
    ({| processes := <[name := spawned w]> (processes w);
        alive := {[spawned w]} ∪ alive w;
        spawned := S (spawned w) |},
     Returned (_public_playlist_url name))
  else (w, Raised).

(** [stop_stream]: the entry is popped, and [StreamProcess.stop]
    terminates the process, or kills it after five seconds. *)
Definition stop_stream (name : string) (w : World) : World :=
  match processes w !! name with
  | Some p =>
      {| processes := delete name (processes w);
         alive := alive w ∖ {[p]};
         spawned := spawned w |}
  | None => w
  end.

(** [stop_all]: [stop_stream] on each name of the registry. *)
Definition stop_all (w : World) : World :=
  foldr stop_stream w (elements (dom (processes w))).

(** A transcoder exits on its own (the camera went away, ffmpeg
    failed). *)
Definition exits (p : Pid) (w : World) : World :=
  {| processes := processes w; alive := alive w ∖ {[p]};
     spawned := spawned w |}.

(** What can happen to the registry. *)
Inductive step : World -> World -> Prop :=
| step_ensure name rtsp_url popen_ok w :
    step w (ensure_stream name rtsp_url popen_ok w).1
| step_stop name w : step w (stop_stream name w)
| step_stop_all w : step w (stop_all w)
| step_exits p w : step w (exits p w).

(** Every running transcoder is in the registry, under one name only,
    and the registry holds only processes that were started. *)
Definition Inv (w : World) : Prop :=
  (forall p, p ∈ alive w -> exists name, processes w !! name = Some p) /\
  (forall name p, processes w !! name = Some p -> (p < spawned w)%nat) /\
  (forall n1 n2 p, processes w !! n1 = Some p -> processes w !! n2 = Some p ->
                   n1 = n2).

Lemma Inv_registry_init : Inv init.
Proof.
  split; [|split]; simpl.
  - intros p Hp. set_solver.
  - intros name p Hp. now rewrite lookup_empty in Hp.
  - intros n1 n2 p Hp. now rewrite lookup_empty in Hp.
Qed.

Lemma ensure_stream_Inv name rtsp_url popen_ok w :
  Inv w -> Inv (ensure_stream name rtsp_url popen_ok w).1.
Proof.
  intros (Ha & Hs & Hi). unfold ensure_stream.
  destruct (rtsp_url =? "")%string; [now repeat split|].
  destruct (is_running name w) eqn:Hrun; [now repeat split|].
  destruct popen_ok; [|now repeat split]. cbn [fst].
  split; [|split]; cbn [processes alive spawned].
  - intros p Hp. apply elem_of_union in Hp as [Hp|Hp].
    + apply elem_of_singleton in Hp as ->. exists name.
      apply lookup_insert_eq.
    + destruct (Ha p Hp) as (n & Hn). exists n.
      rewrite lookup_insert_ne; [exact Hn|]. intros <-.
      unfold is_running in Hrun. rewrite Hn in Hrun.
      now apply bool_decide_eq_false in Hrun.
  - intros n p. destruct (decide (n = name)) as [->|Hne].
    + rewrite lookup_insert_eq. intros [= <-]. lia.
    + rewrite lookup_insert_ne by congruence. intros Hp.
      specialize (Hs n p Hp). lia.
  - intros n1 n2 p.
    destruct (decide (n1 = name)) as [->|H1], (decide (n2 = name)) as [->|H2];
      rewrite ?lookup_insert_eq, ?lookup_insert_ne by congruence;
      try congruence.
    + intros [= <-] Hp. specialize (Hs n2 _ Hp). lia.
    + intros Hp [= <-]. specialize (Hs n1 _ Hp). lia.
    + apply Hi.
Qed.

Lemma stop_stream_Inv name w : Inv w -> Inv (stop_stream name w).
Proof.
  intros (Ha & Hs & Hi). unfold stop_stream.
  destruct (processes w !! name) as [q|] eqn:Hq; [|now repeat split].
  split; [|split]; cbn [processes alive spawned].
  - intros p Hp. apply elem_of_difference in Hp as (Hp & Hne).
    destruct (Ha p Hp) as (n & Hn). exists n.
    rewrite lookup_delete_ne; [exact Hn|]. intros <-.
    apply Hne, elem_of_singleton. congruence.
  - intros n p Hp. apply lookup_delete_Some in Hp as (_ & Hp). eauto.
  - intros n1 n2 p H1 H2.
    apply lookup_delete_Some in H1 as (_ & H1).
    apply lookup_delete_Some in H2 as (_ & H2). eauto.
Qed.

Lemma stop_names_Inv names w : Inv w -> Inv (foldr stop_stream w names).
Proof.
  induction names as [|n names IH]; intros HI; [exact HI|].
  simpl. now apply stop_stream_Inv, IH.
Qed.

Lemma stop_names_lookup names w n :
  processes (foldr stop_stream w names) !! n =
  if bool_decide (n ∈ names) then None else processes w !! n.
Proof.
  induction names as [|m names IH]; [reflexivity|]. cbn [foldr].
  set (w1 := foldr stop_stream w names) in *.
  assert (Hstop : processes (stop_stream m w1) = delete m (processes w1)).
  { unfold stop_stream. destruct (processes w1 !! m) eqn:Hm; [reflexivity|].
    now rewrite delete_id. }
  rewrite Hstop. destruct (decide (n = m)) as [->|Hne].
  - rewrite lookup_delete_eq.
    rewrite bool_decide_eq_true_2; [reflexivity | apply list_elem_of_here].
  - rewrite lookup_delete_ne by congruence. rewrite IH.
    destruct (bool_decide_reflect (n ∈ names)) as [Hin|Hout].
    + rewrite bool_decide_eq_true_2; [reflexivity|].
      now apply list_elem_of_further.
    + rewrite bool_decide_eq_false_2; [reflexivity|].
      intros Hin. apply elem_of_cons in Hin as [|]; congruence.
Qed.

Lemma exits_Inv p w : Inv w -> Inv (exits p w).
Proof.
  intros (Ha & Hs & Hi). split; [|split]; cbn [processes alive spawned];
    [|assumption|assumption].
  intros q Hq. apply elem_of_difference in Hq as (Hq & _). now apply Ha.
Qed.

Lemma step_Inv w w' : Inv w -> step w w' -> Inv w'.
Proof.
  intros HI Hs. destruct Hs as [name url ok w0 | name w0 | w0 | p w0].
  - now apply ensure_stream_Inv.
  - now apply stop_stream_Inv.
  - now apply stop_names_Inv.
  - now apply exits_Inv.
Qed.

Lemma reachable_Inv w : rtc step init w -> Inv w.
Proof.
  intros Hreach. pattern w. revert w Hreach. apply rtc_ind_r.
  - apply Inv_registry_init.
  - intros mid w _ Hlast IH. exact (step_Inv mid w IH Hlast).
Qed.

(** X18.  However streams are started and stopped and transcoders exit
    on their own, every ffmpeg process that is still running is
    registered, under exactly one name: [ensure_stream] replaces an
    entry only when its process has exited.  So [stop_all], which runs
    at interpreter exit, leaves no transcoder running and an empty
    registry. *)
Theorem no_transcoder_left_behind (w : World) :
  rtc step init w ->
  (forall p, p ∈ alive w ->
     exists name, processes w !! name = Some p /\
                  forall other, processes w !! other = Some p -> other = name) /\
  alive (stop_all w) = ∅ /\ processes (stop_all w) = ∅.
Proof.
  intros Hreach. pose proof (reachable_Inv w Hreach) as HI.
  split.
  - intros p Hp. destruct HI as (Ha & _ & Hi).
    destruct (Ha p Hp) as (name & Hn). exists name. split; [exact Hn|].
    intros other Ho. exact (Hi other name p Ho Hn).
  - assert (Hreg : processes (stop_all w) = ∅).
    { apply map_eq. intros n. rewrite lookup_empty. unfold stop_all.
      rewrite stop_names_lookup.
      destruct (bool_decide_reflect (n ∈ elements (dom (processes w))))
        as [Hin|Hout]; [reflexivity|].
      apply not_elem_of_dom. intros Hd. apply Hout. now apply elem_of_elements. }
    split; [|exact Hreg].
    destruct (stop_names_Inv (elements (dom (processes w))) w HI) as (Ha & _).
    fold (stop_all w) in Ha. apply set_eq. intros p. split; [|set_solver].
    intros Hp. destruct (Ha p Hp) as (n & Hn).
    rewrite Hreg, lookup_empty in Hn. discriminate.
Qed.

(** Two cameras started, the first transcoder exits, the first camera
    is started again. *)
Definition three_starts : World :=
  (ensure_stream "c1" "rtsp://cam1/live" true
     (exits 0
        (ensure_stream "c2" "rtsp://cam2/live" true
           (ensure_stream "c1" "rtsp://cam1/live" true init).1).1)).1.

Lemma no_transcoder_left_behind_witness :
  alive three_starts = {[1; 2]}%nat /\ alive (stop_all three_starts) = ∅.
Proof.
  split; [apply set_eq; intros p; vm_compute; set_solver|].
  refine (proj1 (proj2 (no_transcoder_left_behind three_starts _))).
  unfold three_starts.
  eapply rtc_l; [apply (step_ensure "c1" "rtsp://cam1/live" true)|].
  eapply rtc_l; [apply (step_ensure "c2" "rtsp://cam2/live" true)|].
  eapply rtc_l; [apply (step_exits 0)|].
  eapply rtc_l; [apply (step_ensure "c1" "rtsp://cam1/live" true)|].
  apply rtc_refl.
Defined.

(** X19.  [ensure_stream] starts a process only when none is running
    under the name.  After a call that returns, the stream is running
    and the call has returned [/streams/<name>/index.m3u8]; calling it
    again, as long as that process runs, starts nothing and returns the
    same address, whatever URL is given the second time; and an empty
    URL is refused before anything is looked at. *)
Theorem ensure_stream_starts_once
    (name rtsp_url rtsp_url' : string) (popen_ok popen_ok' : bool)
    (w : World) (playlist : string) :
  (ensure_stream name rtsp_url popen_ok w).2 = Returned playlist ->
  let w1 := (ensure_stream name rtsp_url popen_ok w).1 in
  playlist = _public_playlist_url name /\
  is_running name w1 = true /\
  (spawned w1 <= S (spawned w))%nat /\
  (rtsp_url' <> ""%string ->
   ensure_stream name rtsp_url' popen_ok' w1 = (w1, Returned playlist)) /\
  ensure_stream name "" popen_ok' w1 = (w1, Raised).
Proof.
  intros Hret w1. subst w1. unfold ensure_stream in *.
  destruct (rtsp_url =? "")%string; [discriminate|].
  destruct (is_running name w) eqn:Hrun.
  - cbn [fst snd] in *. injection Hret as <-. rewrite Hrun.
    split; [reflexivity|]. split; [reflexivity|]. split; [lia|].
    split; [|reflexivity].
    intros Hne. apply String.eqb_neq in Hne. now rewrite Hne.
  - destruct popen_ok; [|discriminate]. cbn [fst snd] in *.
    injection Hret as <-.
    assert (Hnow : is_running name
              {| processes := <[name := spawned w]> (processes w);
                 alive := {[spawned w]} ∪ alive w;
                 spawned := S (spawned w) |} = true).
    { unfold is_running. cbn [processes alive]. rewrite lookup_insert_eq.
      apply bool_decide_eq_true_2. set_solver. }
    rewrite Hnow. split; [reflexivity|]. split; [reflexivity|].
    cbn [spawned]. split; [lia|]. split; [|reflexivity].
    intros Hne. apply String.eqb_neq in Hne. now rewrite Hne.
Qed.

Lemma ensure_stream_starts_once_witness :
  let w1 := (ensure_stream "c1" "rtsp://cam1/live" true init).1 in
  ensure_stream "c1" "rtsp://elsewhere/live" true w1 =
    (w1, Returned "/streams/c1/index.m3u8"%string) /\
  spawned w1 = 1%nat.
Proof.
  cbv zeta. split; [|reflexivity].
  refine (proj1 (proj2 (proj2 (proj2
    (ensure_stream_starts_once "c1" "rtsp://cam1/live" "rtsp://elsewhere/live"
       true true init "/streams/c1/index.m3u8" _)))) _).
  - reflexivity.
  - discriminate.
Defined.

End Streams.

(** ** The stream address ([_enhance_rtsp_url]) *)

Module Url.

#[local] Arguments String.append !_ _ / : simpl nomatch.
Local Open Scope string_scope.

(** [s.startswith(p)] *)
Fixpoint startswith (p s : string) : bool :=
  match p, s with
  | EmptyString, _ => true
  | String _ _, EmptyString => false
  | String a p', String b s' => Ascii.eqb a b && startswith p' s'
  end.

(** [sub in s] *)
Fixpoint contains (sub s : string) : bool :=
  startswith sub s ||
  match s with
  | EmptyString => false
  | String _ rest => contains sub rest
  end.

(** [s.replace(old, new)] for a non-empty [old]: the occurrences are
    taken from the left and do not overlap.  [skip] counts the
    characters of the occurrence just replaced that are still to be
    passed over. *)
Fixpoint replace_from (old new : string) (skip : nat) (s : string) : string :=
  match s with
  | EmptyString => EmptyString
  | String c rest =>
      match skip with
      | S k => replace_from old new k rest
      | O =>
          if startswith old s
          then new ++ replace_from old new (String.length old - 1) rest
          else String c (replace_from old new 0 rest)
      end
  end.

Definition replace (old new s : string) : string := replace_from old new 0 s.

(** [s.lower()], on ASCII text. *)
Definition lower_char (c : ascii) : ascii :=
  let n := nat_of_ascii c in
  if (65 <=? n)%nat && (n <=? 90)%nat then ascii_of_nat (n + 32) else c.

Fixpoint lower (s : string) : string :=
  match s with
  | EmptyString => EmptyString
  | String c rest => String (lower_char c) (lower rest)
  end.

(** [_enhance_rtsp_url] *)
Definition _enhance_rtsp_url (url : string) : string :=
  if negb (startswith "rtsp://" url) then url
  else
    let url :=
      if contains "/Streaming/Channels/" url then
        if contains "/102" url || contains "/Channels/2" url then
          let enhanced :=
            replace "/Channels/2" "/Channels/1" (replace "/102" "/101" url) in
          if negb (enhanced =? url) then enhanced else url
        else url
      else url in
    if negb (contains "?" url) then url ++ "?resolution=1920x1080&fps=30"
    else if negb (contains "resolution" (lower url))
    then url ++ "&resolution=1920x1080&fps=30"
    else url.

(** The character [c] does not occur in [s]. *)
Fixpoint none (c : ascii) (s : string) : bool :=
  match s with
  | EmptyString => true
  | String b rest => negb (Ascii.eqb c b) && none c rest
  end.

Lemma append_assoc (a b c : string) : (a ++ b) ++ c = a ++ b ++ c.
Proof. induction a as [|x a IH]; cbn; [reflexivity | now rewrite IH]. Qed.

Lemma append_nil_r (a : string) : a ++ "" = a.
Proof. induction a as [|x a IH]; cbn; [reflexivity | now rewrite IH]. Qed.

Lemma startswith_self (p b : string) : startswith p (p ++ b) = true.
Proof.
  induction p as [|x p IH]; cbn; [reflexivity|].
  now rewrite Ascii.eqb_refl, IH.
Qed.

Lemma startswith_app (p a b : string) :
  startswith p a = true -> startswith p (a ++ b) = true.
Proof.
  revert a. induction p as [|x p IH]; intros a; [reflexivity|].
  destruct a as [|y a]; cbn; [discriminate|].
  intros H. apply andb_true_iff in H as (H1 & H2).
  now rewrite H1, IH.
Qed.

(** A text that holds the pattern contains it. *)
Lemma contains_intro (p a b : string) : contains p (a ++ p ++ b) = true.
Proof.
  induction a as [|x a IH].
  - cbn [String.append]. destruct (p ++ b) eqn:E; cbn [contains];
      rewrite <- E, startswith_self; reflexivity.
  - cbn [String.append contains]. rewrite IH. apply orb_true_r.
Qed.

Lemma contains_app (p a b : string) :
  contains p a = true -> contains p (a ++ b) = true.
Proof.
  induction a as [|x a IH]; cbn [contains String.append].
  - rewrite orb_false_r. intros H. destruct p; [|discriminate].
    now destruct b.
  - intros H. apply orb_true_iff in H as [H|H].
    + apply (startswith_app p (String x a) b) in H. cbn [String.append] in H.
      now rewrite H.
    + rewrite (IH H). apply orb_true_r.
Qed.

Lemma lower_app (a b : string) : lower (a ++ b) = lower a ++ lower b.
Proof. induction a as [|x a IH]; cbn; [reflexivity | now rewrite IH]. Qed.

(** X21.  A source that is not an RTSP address is opened as given.  An
    RTSP address always comes out with a query string that names a
    resolution: one is appended with [?] when the address has no query,
    with [&] when it has one without a resolution, and the address is
    left alone when it has one already (in whatever letter case). *)
Theorem enhanced_url_asks_for_resolution (url : string) :
  (startswith "rtsp://" url = false -> _enhance_rtsp_url url = url) /\
  (startswith "rtsp://" url = true ->
   contains "?" (_enhance_rtsp_url url) = true /\
   contains "resolution" (lower (_enhance_rtsp_url url)) = true) /\
  (startswith "rtsp://" url = true ->
   contains "/Streaming/Channels/" url = false ->
   _enhance_rtsp_url url =
     if negb (contains "?" url) then url ++ "?resolution=1920x1080&fps=30"
     else if negb (contains "resolution" (lower url))
     then url ++ "&resolution=1920x1080&fps=30"
     else url).
Proof.
  split; [|split].
  - intros H. unfold _enhance_rtsp_url. now rewrite H.
  - intros H. unfold _enhance_rtsp_url. rewrite H. cbn [negb]. cbv zeta.
    match goal with
    | |- context [if negb (contains "?" ?u) then _ else _] => set (url1 := u)
    end.
    destruct (contains "?" url1) eqn:Hq; cbn [negb].
    + destruct (contains "resolution" (lower url1)) eqn:Hr; cbn [negb].
      * now rewrite Hq, Hr.
      * split; [now apply contains_app|].
        rewrite lower_app.
        pose proof (contains_intro "resolution" (lower url1 ++ "&")
                                   "=1920x1080&fps=30") as Hc.
        rewrite append_assoc in Hc. exact Hc.
    + split.
      * apply (contains_intro "?" url1 "resolution=1920x1080&fps=30").
      * rewrite lower_app.
        pose proof (contains_intro "resolution" (lower url1 ++ "?")
                                   "=1920x1080&fps=30") as Hc.
        rewrite append_assoc in Hc. exact Hc.
  - intros H Hh. unfold _enhance_rtsp_url. rewrite H, Hh. reflexivity.
Qed.

(** *** Channel numbers *)

Lemma none_app (c : ascii) (a b : string) :
  none c (a ++ b) = none c a && none c b.
Proof.
  induction a as [|x a IH]; cbn; [reflexivity|].
  now rewrite IH, andb_assoc.
Qed.

Lemma none_contains (c : ascii) (s : string) :
  none c s = true -> contains (String c "") s = false.
Proof.
  induction s as [|x s IH]; cbn [none contains startswith]; [reflexivity|].
  intros H. apply andb_true_iff in H as (H1 & H2).
  apply negb_true_iff in H1. rewrite H1, (IH H2). reflexivity.
Qed.

(** A pattern that begins with [c] does not begin inside a text
    without [c]. *)
Lemma replace_block (c : ascii) (p new h t : string) :
  none c h = true ->
  replace_from (String c p) new 0 (h ++ t) =
  h ++ replace_from (String c p) new 0 t.
Proof.
  induction h as [|x h IH]; cbn [none String.append]; [reflexivity|].
  intros H. apply andb_true_iff in H as (H1 & H2).
  apply negb_true_iff in H1.
  cbn [replace_from startswith]. rewrite H1. cbn [andb].
  now rewrite (IH H2).
Qed.

Lemma replace_step (old new : string) (c : ascii) (s : string) :
  startswith old (String c s) = false ->
  replace_from old new 0 (String c s) = String c (replace_from old new 0 s).
Proof. intros H. cbn [replace_from]. now rewrite H. Qed.

Lemma replace_none (c : ascii) (p new h : string) :
  none c h = true -> replace_from (String c p) new 0 h = h.
Proof.
  intros H. pose proof (replace_block c p new h "" H) as Hb.
  rewrite append_nil_r in Hb. rewrite Hb. cbn [replace_from].
  apply append_nil_r.
Qed.

(** A pattern without [c] cannot reach over a [c]. *)
Lemma startswith_short (c : ascii) (p h t : string) :
  none c p = true ->
  startswith p (h ++ String c t) = startswith p h.
Proof.
  revert h. induction p as [|a p IH]; intros h; [reflexivity|].
  cbn [none]. intros H. apply andb_true_iff in H as (H1 & H2).
  apply negb_true_iff in H1.
  destruct h as [|b h]; cbn [String.append startswith].
  - rewrite Ascii.eqb_sym, H1. reflexivity.
  - now rewrite (IH h H2).
Qed.

(** A pattern cut at its first [c] against a text cut at its first
    [c]. *)
Lemma startswith_block (c : ascii) (p1 p2 h t : string) :
  none c p1 = true -> none c h = true ->
  startswith (p1 ++ String c p2) (h ++ String c t) =
  (p1 =? h) && startswith p2 t.
Proof.
  revert h. induction p1 as [|a p1 IH]; intros h Hp Hh.
  - destruct h as [|b h]; cbn [String.append startswith String.eqb].
    + now rewrite Ascii.eqb_refl.
    + cbn [none] in Hh. apply andb_true_iff in Hh as (H1 & _).
      apply negb_true_iff in H1. now rewrite H1.
  - cbn [none] in Hp. apply andb_true_iff in Hp as (H1 & H2).
    apply negb_true_iff in H1.
    destruct h as [|b h]; cbn [String.append startswith String.eqb].
    + rewrite Ascii.eqb_sym, H1. reflexivity.
    + cbn [none] in Hh. apply andb_true_iff in Hh as (_ & H4).
      rewrite (IH h H2 H4). now destruct (Ascii.eqb a b).
Qed.

Lemma eqb_app (a x y : string) : (a ++ x =? a ++ y) = (x =? y).
Proof.
  induction a as [|c a IH]; cbn [String.append String.eqb]; [reflexivity|].
  now rewrite Ascii.eqb_refl.
Qed.

Lemma contains_block (c : ascii) (p h t : string) :
  none c h = true ->
  contains (String c p) (h ++ t) = contains (String c p) t.
Proof.
  induction h as [|x h IH]; cbn [none String.append]; [reflexivity|].
  intros H. apply andb_true_iff in H as (H1 & H2).
  apply negb_true_iff in H1.
  cbn [contains startswith]. rewrite H1. cbn [andb orb]. now apply IH.
Qed.

(** Where the pattern does not occur, nothing is replaced. *)
Lemma replace_absent (old new s : string) :
  contains old s = false -> replace old new s = s.
Proof.
  unfold replace. induction s as [|c s IH]; [reflexivity|].
  cbn [contains]. intros H. apply orb_false_iff in H as (H1 & H2).
  rewrite replace_step by assumption. now rewrite (IH H2).
Qed.

(** X22.  The rewriting meant to turn a Hikvision substream into the
    main stream changes the camera.  For an address
    [rtsp://<host>/Streaming/Channels/2<rest>] (channel 2 of a recorder:
    201, 202, ...), with no slash or question mark in the host and the
    rest and a host that does not begin with 102, the address opened
    is [rtsp://<host>/Streaming/Channels/1<rest>] with the quality
    parameters appended: channel 201 becomes 101, the first camera. *)
Theorem channel_two_becomes_channel_one (host rest : string) :
  none "/" host = true -> none "?" host = true ->
  none "/" rest = true -> none "?" rest = true ->
  startswith "102" host = false ->
  _enhance_rtsp_url ("rtsp://" ++ host ++ "/Streaming/Channels/2" ++ rest) =
  "rtsp://" ++ host ++ "/Streaming/Channels/1" ++ rest
    ++ "?resolution=1920x1080&fps=30".
Proof.
  intros Hh Hhq Hr Hrq H102.
  set (url := "rtsp://" ++ host ++ "/Streaming/Channels/2" ++ rest).
  set (url1 := "rtsp://" ++ host ++ "/Streaming/Channels/1" ++ rest).
  assert (Hrtsp : startswith "rtsp://" url = true) by reflexivity.
  assert (Hhik : contains "/Streaming/Channels/" url = true).
  { pose proof (contains_intro "/Streaming/Channels/" ("rtsp://" ++ host)
                               ("2" ++ rest)) as H.
    rewrite append_assoc in H. exact H. }
  assert (Hch : contains "/Channels/2" url = true).
  { pose proof (contains_intro "/Channels/2"
                  ("rtsp://" ++ host ++ "/Streaming") rest) as H.
    rewrite !append_assoc in H. exact H. }
  (* no [/102] anywhere *)
  assert (H1 : replace "/102" "/101" url = url).
  { apply replace_absent.
    change url with
      ("rtsp:" ++ String "/" (String "/" (host ++ String "/" ("Streaming"
         ++ String "/" ("Channels" ++ String "/" (String "2" rest)))))).
    rewrite contains_block by reflexivity.
    change (contains "/102" (String "/" (String "/" ?t)))
      with (startswith "102" t || contains "/102" t).
    rewrite startswith_short by reflexivity. rewrite H102. cbn [orb].
    rewrite contains_block by assumption.
    change (contains "/102" (String "/" ("Streaming" ++ ?t)))
      with (contains "/102" ("Streaming" ++ t)).
    rewrite contains_block by reflexivity.
    change (contains "/102" (String "/" ("Channels" ++ ?t)))
      with (contains "/102" ("Channels" ++ t)).
    rewrite contains_block by reflexivity.
    change (contains "/102" (String "/" (String "2" rest)))
      with (contains "/102" rest).
    pose proof (contains_block "/" "102" rest "" Hr) as Hb.
    rewrite append_nil_r in Hb. now rewrite Hb. }
  (* one [/Channels/2], replaced *)
  assert (H2 : replace "/Channels/2" "/Channels/1" url = url1).
  { unfold replace.
    set (tail := "Streaming" ++ String "/" ("Channels/2" ++ rest)).
    change url with
      ("rtsp:" ++ String "/" (String "/" (host ++ String "/" tail))).
    rewrite replace_block by reflexivity.
    change (replace_from "/Channels/2" "/Channels/1" 0
              (String "/" (String "/" ?t)))
      with (String "/" (replace_from "/Channels/2" "/Channels/1" 0
                          (String "/" t))).
    rewrite replace_step.
    2:{ pose proof (startswith_block "/" "Channels" "2" host tail eq_refl Hh)
          as Hb.
        change (startswith "2" tail) with false in Hb.
        rewrite andb_false_r in Hb. exact Hb. }
    rewrite replace_block by assumption. subst tail.
    change (replace_from "/Channels/2" "/Channels/1" 0
              (String "/" ("Streaming" ++ ?t)))
      with (String "/" (replace_from "/Channels/2" "/Channels/1" 0
                          ("Streaming" ++ t))).
    rewrite replace_block by reflexivity.
    change (replace_from "/Channels/2" "/Channels/1" 0
              (String "/" ("Channels/2" ++ rest)))
      with ("/Channels/1" ++ replace_from "/Channels/2" "/Channels/1" 0 rest).
    rewrite replace_none by assumption. reflexivity. }
  assert (Hne : (url1 =? url) = false).
  { change url1 with
      ("rtsp://" ++ host ++ "/Streaming/Channels/" ++ String "1" rest).
    change url with
      ("rtsp://" ++ host ++ "/Streaming/Channels/" ++ String "2" rest).
    now rewrite !eqb_app. }
  assert (Hq : contains "?" url1 = false).
  { apply none_contains. unfold url1.
    rewrite !none_app, Hhq, Hrq. reflexivity. }
  unfold _enhance_rtsp_url. rewrite Hrtsp, Hhik, Hch, orb_true_r.
  cbn [negb]. cbv zeta. rewrite H1, H2, Hne. cbn [negb]. rewrite Hq.
  cbn [negb]. unfold url1. now rewrite !append_assoc.
Qed.

(** The main stream of the second camera of a recorder. *)
Lemma channel_two_becomes_channel_one_witness :
  _enhance_rtsp_url "rtsp://admin:pw@192.168.1.2:554/Streaming/Channels/201" =
  "rtsp://admin:pw@192.168.1.2:554/Streaming/Channels/101?resolution=1920x1080&fps=30".
Proof.
  exact (channel_two_becomes_channel_one "admin:pw@192.168.1.2:554" "01"
           eq_refl eq_refl eq_refl eq_refl eq_refl).
Defined.

End Url.

(** ** The image endpoint ([backend/routers/detections.py]) *)

Module Images.

Import Url.

(** A regular file: what it holds and its modification time. *)
Record File := {
  content : string;
  mtime : Q;
}.

(** A directory of regular files, by name.  The cache directory and the
    detection directories hold no sub-directories. *)
Abbreviation Dir := (gmap string File).

(** [CACHE_DIR] and [DETECTION_IMAGE_PATHS], in their order. *)
Record Disk := {
  cache : Dir;
  detection_dirs : list Dir;
}.

(** What [shutil.copy2] does: it copies the data and the times, or
    raises [OSError], leaving at the destination whatever it had
    written. *)
Inductive Copy :=
| Copied
| CopyFailed (left_behind : option File).

(** What the endpoint answers: status 400, status 404, or a
    [FileResponse] for a path, which is the cache directory itself, a
    file of the cache, or a file of the [i]-th detection directory. *)
Inductive Target :=
| CacheDirectory
| CacheFile (f : File)
| DetectionFile (i : nat) (f : File).

Inductive Response :=
| BadRequest
| NotFound
| FileResponse (target : Target).

Section Endpoint.

(** [CACHE_TTL_SECONDS]; the names [CACHE_DIR.glob("*.jpg")] yields;
    and whether [unlink] goes through for a name. *)
Variable CACHE_TTL_SECONDS : Z.
Variable glob_jpg : string -> bool.
Variable unlink_ok : string -> bool.

Definition expired (now : Q) (f : File) : bool :=
  if Qlt_le_dec (inject_Z CACHE_TTL_SECONDS) (now - mtime f) then true
  else false.

(** [_cleanup_cache] *)
Definition _cleanup_cache (now : Q) (c : Dir) : Dir :=
  filter (fun entry => negb (glob_jpg entry.1 && expired now entry.2
                             && unlink_ok entry.1) = true) c.

(** [resolve_detection_image_path] *)
Fixpoint resolve_from (i : nat) (filename : string) (dirs : list Dir)
    : option (nat * File) :=
  match dirs with
  | [] => None
  | d :: rest =>
      match d !! filename with
      | Some f => Some (i, f)
      | None => resolve_from (S i) filename rest
      end
  end.

Definition resolve_detection_image_path (filename : string) (dirs : list Dir)
    : option (nat * File) :=
  resolve_from 0 filename dirs.

(** [CACHE_DIR / filename] is the directory itself for these names. *)
Definition names_directory (filename : string) : bool :=
  (filename =? "")%string || (filename =? ".")%string.

(** [get_detection_image], called at time [now]. *)
Definition get_detection_image (filename : string) (now : Q) (copy : Copy)
    (disk : Disk) : Disk * Response :=
  if contains ".." filename || contains "/" filename || contains "\" filename
  then (disk, BadRequest)
  else
    let cache1 := _cleanup_cache now (cache disk) in
    let disk1 := {| cache := cache1; detection_dirs := detection_dirs disk |} in
    if names_directory filename then (disk1, FileResponse CacheDirectory)
    else
      match cache1 !! filename with
      | Some f => (disk1, FileResponse (CacheFile f))
      | None =>
          match resolve_detection_image_path filename (detection_dirs disk) with
          | Some (i, f) =>
              match copy with
              | Copied =>
                  ({| cache := <[filename := f]> cache1;
                      detection_dirs := detection_dirs disk |},
                   FileResponse (CacheFile f))
              | CopyFailed left_behind =>
                  ({| cache := match left_behind with
                               | Some g => <[filename := g]> cache1
                               | None => cache1
                               end;
                      detection_dirs := detection_dirs disk |},
                   FileResponse (DetectionFile i f))
              end
          | None => (disk1, NotFound)
          end
      end.

(** The names the guard lets through and that name a file. *)
Definition plain (filename : string) : Prop :=
  contains ".." filename = false /\ contains "/" filename = false /\
  contains "\" filename = false /\ names_directory filename = false.

Lemma cleanup_lookup (now : Q) (c : Dir) (name : string) :
  _cleanup_cache now c !! name =
  match c !! name with
  | Some f => if glob_jpg name && expired now f && unlink_ok name then None
              else Some f
  | None => None
  end.
Proof.
  unfold _cleanup_cache.
  destruct (c !! name) as [f|] eqn:Hc.
  - destruct (glob_jpg name && expired now f && unlink_ok name) eqn:Hx.
    + apply map_lookup_filter_None. right. intros g Hg.
      assert (g = f) by congruence. subst g. cbn [fst snd]. now rewrite Hx.
    + apply map_lookup_filter_Some. split; [assumption|].
      cbn [fst snd]. now rewrite Hx.
  - apply map_lookup_filter_None. now left.
Qed.

(** X23.  The cache keeps the times of the original ([copy2]), and it is
    asked first.  After a request that copied an image into the cache,
    what later requests for that name are served does not depend on the
    detection directories any more, as long as the entry stays: a
    removed or replaced original is still served as it was.  The entry
    stays until the next clean-up can delete it, which is when the name
    matches [*.jpg] and the age of the original, not of the copy,
    exceeds the time to live; so an image that was already older than
    that when first asked for is copied again at every request. *)
Theorem cached_image_outlives_original
    (filename : string) (now1 now2 : Q) (copy2 : Copy) (disk : Disk)
    (i : nat) (f : File) (later_dirs : list Dir) :
  plain filename ->
  _cleanup_cache now1 (cache disk) !! filename = None ->
  resolve_detection_image_path filename (detection_dirs disk) = Some (i, f) ->
  let r1 := get_detection_image filename now1 Copied disk in
  let evicted := glob_jpg filename && expired now2 f && unlink_ok filename in
  let r2 := get_detection_image filename now2 copy2
              {| cache := cache r1.1; detection_dirs := later_dirs |} in
  r1.2 = FileResponse (CacheFile f) /\
  cache r1.1 !! filename = Some f /\
  (evicted = false -> r2.2 = FileResponse (CacheFile f)) /\
  (evicted = true ->
   r2.2 = match resolve_detection_image_path filename later_dirs with
          | Some (j, g) =>
              match copy2 with
              | Copied => FileResponse (CacheFile g)
              | CopyFailed _ => FileResponse (DetectionFile j g)
              end
          | None => NotFound
          end) /\
  ((now1 <= now2)%Q -> expired now1 f = true -> expired now2 f = true).
Proof.
  intros (G1 & G2 & G3 & G4) Hmiss Hres. cbv zeta.
  assert (H1 : get_detection_image filename now1 Copied disk =
               ({| cache := <[filename := f]> (_cleanup_cache now1 (cache disk));
                   detection_dirs := detection_dirs disk |},
                FileResponse (CacheFile f))).
  { unfold get_detection_image. rewrite G1, G2, G3, G4. cbn [orb]. cbv zeta.
    now rewrite Hmiss, Hres. }
  rewrite H1. cbn [fst snd cache].
  split; [reflexivity|]. split; [apply lookup_insert_eq|].
  assert (Hlook : _cleanup_cache now2
                    (<[filename := f]> (_cleanup_cache now1 (cache disk)))
                  !! filename =
                  if glob_jpg filename && expired now2 f && unlink_ok filename
                  then None else Some f).
  { rewrite cleanup_lookup. now rewrite lookup_insert_eq. }
  split; [|split].
  - intros He. unfold get_detection_image. rewrite G1, G2, G3, G4.
    cbn [orb cache detection_dirs]. cbv zeta. rewrite Hlook, He. reflexivity.
  - intros He. unfold get_detection_image. rewrite G1, G2, G3, G4.
    cbn [orb cache detection_dirs]. cbv zeta. rewrite Hlook, He.
    destruct (resolve_detection_image_path filename later_dirs) as [[j g]|];
      [|reflexivity].
    now destruct copy2.
  - unfold expired. intros Hle.
    destruct (Qlt_le_dec (inject_Z CACHE_TTL_SECONDS) (now1 - mtime f));
      [|discriminate].
    intros _.
    destruct (Qlt_le_dec (inject_Z CACHE_TTL_SECONDS) (now2 - mtime f));
      [reflexivity | lra].
Qed.

Lemma resolve_from_Some (filename : string) (dirs : list Dir) :
  forall i j g,
    resolve_from i filename dirs = Some (j, g) ->
    (i <= j)%nat /\
    (exists d, dirs !! (j - i)%nat = Some d /\ d !! filename = Some g) /\
    (forall k d, (k < j - i)%nat -> dirs !! k = Some d ->
                 d !! filename = None).
Proof.
  induction dirs as [|d0 dirs IH]; intros i j g; cbn [resolve_from];
    [discriminate|].
  destruct (d0 !! filename) as [f|] eqn:Hd.
  - intros [= <- <-]. split; [lia|]. rewrite Nat.sub_diag. split.
    + exists d0. now split.
    + intros k d Hk. lia.
  - intros Hr. destruct (IH (S i) j g Hr) as (Hle & (d & Hd1 & Hd2) & Hbefore).
    split; [lia|].
    replace (j - i)%nat with (S (j - S i)) by lia. split.
    + exists d. now split.
    + intros [|k] d' Hk Hlook; cbn in Hlook.
      * congruence.
      * apply (Hbefore k d'); [lia | exact Hlook].
Qed.

Lemma resolve_from_None (filename : string) (dirs : list Dir) (i : nat) :
  resolve_from i filename dirs = None <->
  Forall (fun d => d !! filename = None) dirs.
Proof.
  revert i. induction dirs as [|d0 dirs IH]; intros i; cbn [resolve_from].
  - split; [constructor | reflexivity].
  - destruct (d0 !! filename) as [f|] eqn:Hd.
    + split; [discriminate|]. intros H. apply Forall_cons in H as (H & _).
      congruence.
    + rewrite IH. split; [now constructor|].
      intros H. now apply Forall_cons in H as (_ & H).
Qed.

(** X24.  The guard refuses every name with a slash, a backslash or two
    dots in a row, before anything is looked at or cleaned; but it lets
    the name of the directory itself through: for [.] the endpoint
    answers with a [FileResponse] for the cache directory, not with
    404.  For any other name that passes, the detection directories are
    left as they are; 404 is answered exactly when neither the cleaned
    cache nor any detection directory has the name; and a file answered
    from a detection directory is that name's file in the first
    directory that has it. *)
Theorem image_guard_and_lookup
    (filename : string) (now : Q) (copy : Copy) (disk : Disk) :
  let r := get_detection_image filename now copy disk in
  (contains ".." filename || contains "/" filename || contains "\" filename
   = true -> r = (disk, BadRequest)) /\
  (get_detection_image "." now copy disk).2 = FileResponse CacheDirectory /\
  (plain filename ->
   detection_dirs r.1 = detection_dirs disk /\
   (r.2 = NotFound <->
    _cleanup_cache now (cache disk) !! filename = None /\
    Forall (fun d => d !! filename = None) (detection_dirs disk)) /\
   (forall j g, r.2 = FileResponse (DetectionFile j g) ->
      (exists d, detection_dirs disk !! j = Some d /\ d !! filename = Some g) /\
      (forall k d, (k < j)%nat -> detection_dirs disk !! k = Some d ->
                   d !! filename = None))).
Proof.
  cbv zeta. split; [|split].
  - intros Hg. unfold get_detection_image. now rewrite Hg.
  - reflexivity.
  - intros (G1 & G2 & G3 & G4). unfold get_detection_image.
    rewrite G1, G2, G3, G4. cbn [orb]. cbv zeta.
    unfold resolve_detection_image_path.
    pose proof (resolve_from_Some filename (detection_dirs disk) 0) as HS.
    pose proof (resolve_from_None filename (detection_dirs disk) 0) as HN.
    destruct (_cleanup_cache now (cache disk) !! filename) as [f|] eqn:Hc.
    { cbn [fst snd detection_dirs]. split; [reflexivity|]. split.
      - split; [discriminate|]. intros (H & _). discriminate.
      - intros j g [=]. }
    destruct (resolve_from 0 filename (detection_dirs disk)) as [[i f]|] eqn:Hr.
    + destruct (HS i f eq_refl) as (_ & Hd & Hbefore).
      rewrite Nat.sub_0_r in Hd, Hbefore.
      destruct copy as [|left_behind]; cbn [fst snd detection_dirs].
      * split; [reflexivity|]. split.
        -- split; [discriminate|]. intros (_ & H). apply HN in H. discriminate.
        -- intros j g [=].
      * split; [reflexivity|]. split.
        -- split; [discriminate|]. intros (_ & H). apply HN in H. discriminate.
        -- intros j g [= <- <-]. split; [exact Hd | exact Hbefore].
    + cbn [fst snd detection_dirs]. split; [reflexivity|]. split.
      * split; [|reflexivity]. intros _. split; [reflexivity|].
        now apply HN.
      * intros j g [=].
Qed.

End Endpoint.

Definition portrait : File := {| content := "jpeg of a face"; mtime := 1000 |}.

(** An image served once and then deleted from the detection directory
    is still served, from the cache. *)
Lemma cached_image_outlives_original_witness :
  let disk := {| cache := ∅;
                 detection_dirs := [{[ "C1_Alice.jpg"%string := portrait ]}] |} in
  let r1 := get_detection_image 21600 (fun _ => true) (fun _ => true)
              "C1_Alice.jpg" 2000 Copied disk in
  (get_detection_image 21600 (fun _ => true) (fun _ => true)
     "C1_Alice.jpg" 3000 Copied
     {| cache := cache r1.1; detection_dirs := [∅] |}).2
  = FileResponse (CacheFile portrait).
Proof.
  cbv zeta.
  refine (proj1 (proj2 (proj2
    (cached_image_outlives_original 21600 (fun _ => true) (fun _ => true)
       "C1_Alice.jpg" 2000 3000 Copied
       {| cache := ∅;
          detection_dirs := [{[ "C1_Alice.jpg"%string := portrait ]}] |}
       0%nat portrait [∅] _ _ _))) _).
  - repeat split.
  - apply map_lookup_filter_None. left. apply lookup_empty.
  - reflexivity.
  - reflexivity.
Defined.

End Images.
